(** * reflectutils/jsonfield.go: tag-driven introspection of struct fields

    A shallow embedding of [util/reflectutils/jsonfield.go]: the tag parser
    ([ParseStructFieldJsonInfo], [MarshalName]), the two value walkers
    ([fetchStructFieldValueSet], [fetchStructFieldValueV2s]), the schema
    walker with its cache ([fetchStructFieldInfos],
    [cachefetchStructFieldInfos]) and name resolution
    ([GetStructFieldIndex], [getStructFieldIndex], [GetValue],
    [GetInterface]).

    Conventions.
    - Go [int] is [Z]; the lists handled here are far from the range where
      an [int] wraps.
    - [map[string]string] is [gmap string string].
    - A [reflect.Value] is a tree: a pointer owns its pointee.  Writes that
      the Go code performs through [fv.Set] are returned as the updated
      instance (state passing), and [fv.Set] on a value that is not
      addressable is the run-time panic [None].
    - The flag word of a [reflect.Value] is not part of the tree.  Its
      read-only bit ([flagRO], set on a value obtained through an unexported
      struct field), which [CanInterface] tests, is given to [GetInterface]
      for each position of the set.
    - The helpers that live outside this file ([utils.TagMap],
      [utils.CamelSplit], [utils.Capitalize], [gotypes.IsFieldExportable],
      and [strings.ToLower] of the Go library) are the fields of the class
      [Collaborators]; the development is parametric in them. *)

From Stdlib Require Import ZArith Lia Bool String Ascii Sorted.
From stdpp Require Import base option list strings gmap.
From Equations Require Import Equations.

Set Warnings "-register-all".
Local Open Scope Z_scope.

(** ** Go strings *)

Module gostrings.

(** [strings.Split(s, ",")]: the fields of [s] between commas; never the
    empty list (the empty string has the one field [EmptyString]). *)
Fixpoint SplitComma (s : string) : list string :=
  match s with
  | EmptyString => [EmptyString]
  | String c s' =>
      if Ascii.eqb c ","%char then EmptyString :: SplitComma s'
      else match SplitComma s' with
           | h :: t => String c h :: t
           | [] => [String c EmptyString]
           end
  end.

End gostrings.

(** ** The fragment of package [reflect] the walkers use *)

Module reflect.

Record StructFieldOf (T : Type) : Type := mkStructField {
  Name : string;
  Tag : string;
  Anonymous : bool;
  Typ : T
}.
Arguments mkStructField {T}.
Arguments Name {T}.
Arguments Tag {T}.
Arguments Anonymous {T}.
Arguments Typ {T}.

(** [reflect.Type].  [TScalar] stands for every type whose kind is none of
    [Ptr], [Interface], [Struct]: the walkers never look inside those. *)
Inductive GoType : Type :=
| TScalar (name : string)
| TInterface (name : string)
| TPtr (elem : GoType)
| TStruct (name : string) (fields : list (StructFieldOf GoType)).

Definition StructField : Type := StructFieldOf GoType.

(** [reflect.Value], for a valid value; the zero [reflect.Value] that
    [Elem] returns on a nil interface or pointer is [None] of
    [option Value]. *)
Inductive Value : Type :=
| VScalar (typ : string) (payload : Z)
| VInterface (typ : string) (dyn : option Value)
| VPtr (elem : GoType) (target : option Value)
| VStruct (name : string) (fields : list (StructField * Value)).

Inductive Kind : Type := Invalid | Interface | Ptr | Struct | OtherKind.

Definition KindOf (fv : option Value) : Kind :=
  match fv with
  | None => Invalid
  | Some (VScalar _ _) => OtherKind
  | Some (VInterface _ _) => Interface
  | Some (VPtr _ _) => Ptr
  | Some (VStruct _ _) => Struct
  end.

(** [Value.Elem] on a pointer or an interface. *)
Definition Elem (fv : Value) : option Value :=
  match fv with
  | VPtr _ target => target
  | VInterface _ dyn => dyn
  | _ => None
  end.

Definition IsNil (fv : Value) : bool :=
  match fv with
  | VPtr _ None | VInterface _ None => true
  | _ => false
  end.

(** [Value.CanInterface]: whether the handle is free of [flagRO], the bit
    [readOnly]; on the zero [reflect.Value] the method panics. *)
Definition CanInterface (readOnly : bool) (fv : option Value) : option bool :=
  match fv with
  | None => None
  | Some _ => Some (negb readOnly)
  end.

(** The zero value of a type; [reflect.New(t)] points to it. *)
Fixpoint Zero (t : GoType) : Value :=
  match t with
  | TScalar n => VScalar n 0
  | TInterface n => VInterface n None
  | TPtr e => VPtr e None
  | TStruct n fs => VStruct n (map (fun sf => (sf, Zero (Typ sf))) fs)
  end.

(** [Value.Type]. *)
Definition TypeOf (v : Value) : GoType :=
  match v with
  | VScalar n _ => TScalar n
  | VInterface n _ => TInterface n
  | VPtr e _ => TPtr e
  | VStruct n fs => TStruct n (map fst fs)
  end.

(** Identity of types, as [==] on [reflect.Type]. *)
Fixpoint type_eqb (a b : GoType) {struct a} : bool :=
  match a, b with
  | TScalar x, TScalar y => String.eqb x y
  | TInterface x, TInterface y => String.eqb x y
  | TPtr x, TPtr y => type_eqb x y
  | TStruct x fs, TStruct y gs =>
      String.eqb x y &&
      (fix fields_eqb (fs gs : list (StructFieldOf GoType)) {struct fs} : bool :=
         match fs, gs with
         | [], [] => true
         | f :: fs', g :: gs' =>
             String.eqb (Name f) (Name g) && String.eqb (Tag f) (Tag g)
             && Bool.eqb (Anonymous f) (Anonymous g)
             && type_eqb (Typ f) (Typ g) && fields_eqb fs' gs'
         | _, _ => false
         end) fs gs
  | _, _ => false
  end.

End reflect.

Import reflect.

(** ** Collaborators of the file *)

Module gotypes.

(** [gotypes.TimeType], the type of [time.Time]: a struct of three
    unexported fields. *)
Definition TimeType : GoType :=
  TStruct "time.Time"
    [ mkStructField "wall" EmptyString false (TScalar "uint64");
      mkStructField "ext" EmptyString false (TScalar "int64");
      mkStructField "loc" EmptyString false (TPtr (TScalar "time.Location")) ].

End gotypes.

Class Collaborators : Type := {
  (** [utils.TagMap]: the key/value pairs of a struct tag. *)
  TagMap : string -> gmap string string;
  (** [utils.CamelSplit]: the words of an identifier, lower-cased and
      joined by the separator. *)
  CamelSplit : string -> string -> string;
  (** [utils.Capitalize]. *)
  Capitalize : string -> string;
  (** [gotypes.IsFieldExportable]. *)
  IsFieldExportable : string -> bool;
  (** [strings.ToLower]. *)
  ToLower : string -> string
}.

(** ** The field policy and the tag parser *)

Record SStructFieldInfo : Type := mkInfo {
  Ignore : bool;
  OmitEmpty : bool;
  OmitFalse : bool;
  OmitZero : bool;
  Name : string;
  FieldName : string;
  ForceString : bool;
  Tags : gmap string string
}.

Definition setIgnore (b : bool) (i : SStructFieldInfo) : SStructFieldInfo :=
  mkInfo b (OmitEmpty i) (OmitFalse i) (OmitZero i) (Name i) (FieldName i) (ForceString i) (Tags i).
Definition setOmitEmpty (b : bool) (i : SStructFieldInfo) : SStructFieldInfo :=
  mkInfo (Ignore i) b (OmitFalse i) (OmitZero i) (Name i) (FieldName i) (ForceString i) (Tags i).
Definition setOmitFalse (b : bool) (i : SStructFieldInfo) : SStructFieldInfo :=
  mkInfo (Ignore i) (OmitEmpty i) b (OmitZero i) (Name i) (FieldName i) (ForceString i) (Tags i).
Definition setOmitZero (b : bool) (i : SStructFieldInfo) : SStructFieldInfo :=
  mkInfo (Ignore i) (OmitEmpty i) (OmitFalse i) b (Name i) (FieldName i) (ForceString i) (Tags i).
Definition setName (s : string) (i : SStructFieldInfo) : SStructFieldInfo :=
  mkInfo (Ignore i) (OmitEmpty i) (OmitFalse i) (OmitZero i) s (FieldName i) (ForceString i) (Tags i).
Definition setForceString (b : bool) (i : SStructFieldInfo) : SStructFieldInfo :=
  mkInfo (Ignore i) (OmitEmpty i) (OmitFalse i) (OmitZero i) (Name i) (FieldName i) b (Tags i).

Section TagParser.
Context `{Collaborators}.

(** The body of the [switch strings.ToLower(k)] of the option loop. *)
Definition applyOption (info : SStructFieldInfo) (k : string) : SStructFieldInfo :=
  let l := ToLower k in
  if String.eqb l "omitempty" then setOmitEmpty true info
  else if String.eqb l "allowempty" then setOmitEmpty false info
  else if String.eqb l "omitzero" then setOmitZero true info
  else if String.eqb l "allowzero" then setOmitZero false info
  else if String.eqb l "omitfalse" then setOmitFalse true info
  else if String.eqb l "allowfalse" then setOmitFalse false info
  else if String.eqb l "string" then setForceString true info
  else info.

Definition ParseStructFieldJsonInfo (sf : StructField) : SStructFieldInfo :=
  let info := mkInfo false true false false EmptyString (reflect.Name sf) false (TagMap (Tag sf)) in
  let info :=
    match Tags info !! "json" with
    | Some val =>
        let keys := gostrings.SplitComma val in
        let info :=
          match keys with
          | k0 :: _ =>
              if String.eqb k0 "-" then
                if (1 <? Z.of_nat (length keys)) then setName k0 info
                else setIgnore true info
              else setName k0 info
          | [] => info
          end in
        if (1 <? Z.of_nat (length keys)) then fold_left applyOption (tail keys) info
        else info
    | None => info
    end in
  match Tags info !! "name" with
  | Some val => setName val info
  | None => info
  end.

(** [MarshalName] has a pointer receiver: it returns the name and the
    receiver as the call leaves it. *)
Definition MarshalName (info : SStructFieldInfo) : string * SStructFieldInfo :=
  if (0 <? Z.of_nat (String.length (Name info))) then (Name info, info)
  else
    let info' := setName (CamelSplit (FieldName info) "_") info in
    (Name info', info').

End TagParser.

(** ** Walking an instance *)

Definition Fields : Type := list (StructField * Value).

(** Sizes: the walkers recurse into the fields of a composed struct, and,
    after [fv.Set(reflect.New(...))], into the zero value of the pointee
    type; [vsize] counts a nil pointer with the size of that zero value. *)
Fixpoint zsize (t : GoType) : nat :=
  match t with
  | TPtr e => S (zsize e)
  | TStruct _ fs => S (list_sum (map (fun sf => S (zsize (Typ sf))) fs))
  | _ => 1
  end.

Fixpoint vsize (v : Value) : nat :=
  match v with
  | VScalar _ _ => 1
  | VInterface _ None => 1
  | VInterface _ (Some d) => S (vsize d)
  | VPtr e None => S (zsize e)
  | VPtr _ (Some t) => S (vsize t)
  | VStruct _ fs => S (list_sum (map (fun p => S (vsize (snd p))) fs))
  end.

Definition fields_size (fs : Fields) : nat :=
  list_sum (map (fun p => S (vsize (snd p))) fs).

(** What a walker does with one exported anonymous field. *)
Inductive Visit : Type :=
| Panics
| Skips
| Descends (canSet : bool) (name : string) (fields : Fields) (plug : Value -> Value)
| Emits (fv : option Value) (field : Value).

(** The anonymous-field prelude of [fetchStructFieldInfos]: a nil pointer
    is set to a fresh pointee, a pointer and then an interface are
    dereferenced, and a struct other than [time.Time] is descended into.
    [plug] puts the walked struct back where [fv] points. *)
Definition visitInfos (canSet : bool) (sf : StructField) (fv : Value) : Visit :=
  let afterPtr : option (option Value * bool * (Value -> Value) * Value) :=
    match fv with
    | VPtr elem None =>
        if canSet
        then Some (Some (Zero elem), true, (fun s => VPtr elem (Some s)),
                   VPtr elem (Some (Zero elem)))
        else None
    | VPtr elem (Some t) => Some (Some t, true, (fun s => VPtr elem (Some s)), fv)
    | _ => Some (Some fv, canSet, (fun s => s), fv)
    end in
  match afterPtr with
  | None => Panics
  | Some (cur, canSet1, plug1, field) =>
      let '(cur, canSet2, plug2) :=
        match cur with
        | Some (VInterface ty dyn) =>
            (dyn, false, fun s => plug1 (VInterface ty (Some s)))
        | _ => (cur, canSet1, plug1)
        end in
      match cur with
      | Some (VStruct n fields) =>
          if negb (type_eqb (Typ sf) gotypes.TimeType)
          then Descends canSet2 n fields plug2
          else Emits cur field
      | _ => Emits cur field
      end
  end.

(** The anonymous-field prelude of both value walkers: on a nil pointer or
    interface, allocate (a pointer, when [allocatePtr]) or skip the field;
    dereference once; descend into a struct other than [time.Time]. *)
Definition visitValue (canSet allocatePtr : bool) (sf : StructField) (fv : Value) : Visit :=
  let deref : option (option (Value * bool * (Value -> Value))) :=
    match fv with
    | VPtr elem None =>
        if allocatePtr then
          if canSet then Some (Some (Zero elem, true, fun s => VPtr elem (Some s)))
          else None
        else Some None
    | VInterface _ None => Some None
    | VPtr elem (Some t) => Some (Some (t, true, fun s => VPtr elem (Some s)))
    | VInterface ty (Some d) => Some (Some (d, false, fun s => VInterface ty (Some s)))
    | _ => Some (Some (fv, canSet, fun s => s))
    end in
  match deref with
  | None => Panics
  | Some None => Skips
  | Some (Some (cur, canSet', plug)) =>
      match cur with
      | VStruct n fields =>
          if negb (type_eqb (Typ sf) gotypes.TimeType)
          then Descends canSet' n fields plug
          else Emits (Some cur) (plug cur)
      | _ => Emits (Some cur) (plug cur)
      end
  end.

(** The struct a walker descends into is smaller than the field it came
    from: the walkers terminate. *)
Lemma fields_size_cons sf fv (rest : Fields) :
  fields_size ((sf, fv) :: rest) = S (vsize fv + fields_size rest).
Proof. reflexivity. Qed.

Lemma vsize_Zero t : vsize (Zero t) = zsize t.
Proof.
  revert t. fix IH 1. intros [n|n|e|n fs]; simpl; try reflexivity.
  do 2 f_equal. induction fs as [|sf fs IHfs]; simpl; [reflexivity|].
  rewrite IH, IHfs. reflexivity.
Qed.

Lemma visitInfos_Descends_size canSet sf fv c n fields plug :
  visitInfos canSet sf fv = Descends c n fields plug ->
  (fields_size fields < vsize fv)%nat.
Proof.
  unfold visitInfos, fields_size.
  destruct fv as [ty p|ty [d|]|elem [t|]|m fs]; simpl.
  - discriminate.
  - destruct d; try discriminate.
    destruct (negb _); intros [= <- <- <- <-]. simpl. lia.
  - discriminate.
  - destruct t as [ty p|ty [d|]|e' t'|m fs]; try discriminate.
    + destruct d; try discriminate.
      destruct (negb _); intros [= <- <- <- <-]. simpl. lia.
    + destruct (negb _); intros [= <- <- <- <-]. simpl. lia.
  - destruct canSet; [|discriminate].
    pose proof (vsize_Zero elem) as Hz.
    destruct (Zero elem) as [ty p|ty [d|]|e' t'|m fs]; try discriminate.
    + destruct d; try discriminate.
      destruct (negb _); intros [= <- <- <- <-]. simpl in *. lia.
    + destruct (negb _); intros [= <- <- <- <-]. simpl in *. lia.
  - destruct (negb _); intros [= <- <- <- <-]. simpl. lia.
Qed.

Lemma visitValue_Descends_size canSet allocatePtr sf fv c n fields plug :
  visitValue canSet allocatePtr sf fv = Descends c n fields plug ->
  (fields_size fields < vsize fv)%nat.
Proof.
  unfold visitValue, fields_size.
  destruct fv as [ty p|ty [d|]|elem [t|]|m fs]; simpl.
  - discriminate.
  - destruct d; try discriminate.
    destruct (negb _); intros [= <- <- <- <-]. simpl. lia.
  - discriminate.
  - destruct t; try discriminate.
    destruct (negb _); intros [= <- <- <- <-]. simpl. lia.
  - destruct allocatePtr; [|discriminate].
    destruct canSet; [|discriminate].
    pose proof (vsize_Zero elem) as Hz.
    destruct (Zero elem); try discriminate.
    destruct (negb _); intros [= <- <- <- <-]. simpl in *. lia.
  - destruct (negb _); intros [= <- <- <- <-]. simpl. lia.
Qed.

(** Keeps the equation of a case analysis in view of the termination
    proofs. *)
Definition inspect {A : Type} (a : A) : {b : A | a = b} := exist _ a eq_refl.

(** The entries of the two sets.  A [reflect.Value] stored in an entry may
    be the zero [reflect.Value]: it is an [option Value]. *)

Record SStructFieldValue : Type := mkFieldValue {
  Info : SStructFieldInfo;
  Value_ : option Value
}.

Record SStructFieldValueV2 : Type := mkFieldValueV2 {
  ValueV2 : option Value;
  Index : Z
}.

Record SStructFieldValueSetV2 : Type := mkSetV2 {
  Infos : list SStructFieldInfo;
  Values : list SStructFieldValueV2
}.

Section Walkers.
Context `{Collaborators}.

(** The loop of [fetchStructFieldInfos] over the fields of [dataValue];
    the second component is the field list as the walk leaves it. *)
Equations? fetchStructFieldInfos_loop (canSet : bool) (fs : Fields)
  : option (list SStructFieldInfo * Fields) by wf (fields_size fs) lt :=
fetchStructFieldInfos_loop canSet [] := Some ([], []);
fetchStructFieldInfos_loop canSet ((sf, fv) :: rest)
  with IsFieldExportable (reflect.Name sf) := {
  | false :=
      '(infos, rest') ← fetchStructFieldInfos_loop canSet rest;
      Some (infos, (sf, fv) :: rest')
  | true with Anonymous sf := {
    | false :=
        '(infos, rest') ← fetchStructFieldInfos_loop canSet rest;
        Some (ParseStructFieldJsonInfo sf :: infos, (sf, fv) :: rest')
    | true with inspect (visitInfos canSet sf fv) := {
      | exist _ Panics _ := None
      | exist _ Skips _ :=
          '(infos, rest') ← fetchStructFieldInfos_loop canSet rest;
          Some (infos, (sf, fv) :: rest')
      | exist _ (Descends canSet' n fields plug) _ :=
          '(subInfo, fields') ← fetchStructFieldInfos_loop canSet' fields;
          '(infos, rest') ← fetchStructFieldInfos_loop canSet rest;
          Some (subInfo ++ infos, (sf, plug (VStruct n fields')) :: rest')
      | exist _ (Emits _ field) _ :=
          '(infos, rest') ← fetchStructFieldInfos_loop canSet rest;
          Some (ParseStructFieldJsonInfo sf :: infos, (sf, field) :: rest')
      }
    }
  }.
Proof.
  all: rewrite ?fields_size_cons; try lia.
  match goal with
  | e : visitInfos _ _ _ = Descends _ _ _ _ |- _ =>
      apply visitInfos_Descends_size in e; lia
  end.
Qed.

(** [fetchStructFieldInfos(dataValue)]; [NumField] panics on a value that
    is not a struct. *)
Definition fetchStructFieldInfos (canSet : bool) (dataValue : Value)
  : option (list SStructFieldInfo * Value) :=
  match dataValue with
  | VStruct n fields =>
      '(ret, fields') ← fetchStructFieldInfos_loop canSet fields;
      Some (ret, VStruct n fields')
  | _ => None
  end.

(** The loop of [fetchStructFieldValueV2s]: the entries, the schema-index
    counter after the walk, and the fields as the walk leaves them. *)
Equations? fetchStructFieldValueV2s_loop (canSet allocatePtr : bool)
  (fs : Fields) (index : Z)
  : option (list SStructFieldValueV2 * Z * Fields) by wf (fields_size fs) lt :=
fetchStructFieldValueV2s_loop canSet allocatePtr [] index := Some ([], index, []);
fetchStructFieldValueV2s_loop canSet allocatePtr ((sf, fv) :: rest) index
  with IsFieldExportable (reflect.Name sf) := {
  | false :=
      '(ret, index', rest') ← fetchStructFieldValueV2s_loop canSet allocatePtr rest index;
      Some (ret, index', (sf, fv) :: rest')
  | true with Anonymous sf := {
    | false :=
        '(ret, index', rest') ←
          fetchStructFieldValueV2s_loop canSet allocatePtr rest (index + 1);
        Some (mkFieldValueV2 (Some fv) index :: ret, index', (sf, fv) :: rest')
    | true with inspect (visitValue canSet allocatePtr sf fv) := {
      | exist _ Panics _ := None
      | exist _ Skips _ :=
          '(ret, index', rest') ←
            fetchStructFieldValueV2s_loop canSet allocatePtr rest (index + 1);
          Some (ret, index', (sf, fv) :: rest')
      | exist _ (Descends canSet' n fields plug) _ :=
          '(subValues, index1, fields') ←
            fetchStructFieldValueV2s_loop canSet' allocatePtr fields index;
          '(ret, index', rest') ←
            fetchStructFieldValueV2s_loop canSet allocatePtr rest index1;
          Some (subValues ++ ret, index', (sf, plug (VStruct n fields')) :: rest')
      | exist _ (Emits fv' field) _ :=
          '(ret, index', rest') ←
            fetchStructFieldValueV2s_loop canSet allocatePtr rest (index + 1);
          Some (mkFieldValueV2 fv' index :: ret, index', (sf, field) :: rest')
      }
    }
  }.
Proof.
  all: rewrite ?fields_size_cons; try lia.
  match goal with
  | e : visitValue _ _ _ _ = Descends _ _ _ _ |- _ =>
      apply visitValue_Descends_size in e; lia
  end.
Qed.

Definition fetchStructFieldValueV2s (canSet : bool) (dataValue : Value)
  (allocatePtr : bool) (index : Z)
  : option (list SStructFieldValueV2 * Z * Value) :=
  match dataValue with
  | VStruct n fields =>
      '(ret, index', fields') ←
        fetchStructFieldValueV2s_loop canSet allocatePtr fields index;
      Some (ret, index', VStruct n fields')
  | _ => None
  end.

(** The loop of [fetchStructFieldValueSet]. *)
Equations? fetchStructFieldValueSet_loop (canSet allocatePtr : bool) (fs : Fields)
  : option (list SStructFieldValue * Fields) by wf (fields_size fs) lt :=
fetchStructFieldValueSet_loop canSet allocatePtr [] := Some ([], []);
fetchStructFieldValueSet_loop canSet allocatePtr ((sf, fv) :: rest)
  with IsFieldExportable (reflect.Name sf) := {
  | false :=
      '(ret, rest') ← fetchStructFieldValueSet_loop canSet allocatePtr rest;
      Some (ret, (sf, fv) :: rest')
  | true with Anonymous sf := {
    | false :=
        '(ret, rest') ← fetchStructFieldValueSet_loop canSet allocatePtr rest;
        Some (mkFieldValue (ParseStructFieldJsonInfo sf) (Some fv) :: ret, (sf, fv) :: rest')
    | true with inspect (visitValue canSet allocatePtr sf fv) := {
      | exist _ Panics _ := None
      | exist _ Skips _ :=
          '(ret, rest') ← fetchStructFieldValueSet_loop canSet allocatePtr rest;
          Some (ret, (sf, fv) :: rest')
      | exist _ (Descends canSet' n fields plug) _ :=
          '(subfields, fields') ←
            fetchStructFieldValueSet_loop canSet' allocatePtr fields;
          '(ret, rest') ← fetchStructFieldValueSet_loop canSet allocatePtr rest;
          Some (subfields ++ ret, (sf, plug (VStruct n fields')) :: rest')
      | exist _ (Emits fv' field) _ :=
          '(ret, rest') ← fetchStructFieldValueSet_loop canSet allocatePtr rest;
          Some (mkFieldValue (ParseStructFieldJsonInfo sf) fv' :: ret, (sf, field) :: rest')
      }
    }
  }.
Proof.
  all: rewrite ?fields_size_cons; try lia.
  match goal with
  | e : visitValue _ _ _ _ = Descends _ _ _ _ |- _ =>
      apply visitValue_Descends_size in e; lia
  end.
Qed.

Definition fetchStructFieldValueSet (canSet : bool) (dataValue : Value)
  (allocatePtr : bool) : option (list SStructFieldValue * Value) :=
  match dataValue with
  | VStruct n fields =>
      '(ret, fields') ← fetchStructFieldValueSet_loop canSet allocatePtr fields;
      Some (ret, VStruct n fields')
  | _ => None
  end.

Definition FetchStructFieldValueSet (canSet : bool) (dataValue : Value) :=
  fetchStructFieldValueSet canSet dataValue false.

Definition FetchStructFieldValueSetForWrite (canSet : bool) (dataValue : Value) :=
  fetchStructFieldValueSet canSet dataValue true.

End Walkers.

(** ** Name resolution on the first-generation set *)

Module SStructFieldValueSet.
Section Methods.
Context `{Collaborators}.

(** The loop of [GetStructFieldIndex], from position [i]. *)
Fixpoint GetStructFieldIndex_from (set : list SStructFieldValue) (name : string)
  (i : Z) : Z :=
  match set with
  | [] => -1
  | e :: rest =>
      let jsonInfo := Info e in
      if String.eqb (fst (MarshalName jsonInfo)) name then i
      else if String.eqb (CamelSplit (FieldName jsonInfo) "_") (CamelSplit name "_") then i
      else if String.eqb (FieldName jsonInfo) name then i
      else if String.eqb (FieldName jsonInfo) (Capitalize name) then i
      else GetStructFieldIndex_from rest name (i + 1)
  end.

Definition GetStructFieldIndex (set : list SStructFieldValue) (name : string) : Z :=
  GetStructFieldIndex_from set name 0.

(** [set[idx]] panics out of range: [None]. *)
Definition GetValue (set : list SStructFieldValue) (name : string)
  : option (option Value * bool) :=
  let idx := GetStructFieldIndex set name in
  if idx <? 0 then Some (None, false)
  else e ← set !! Z.to_nat idx; Some (Value_ e, true).

(** [flagRO i] is the read-only bit of the [reflect.Value] stored at
    position [i] of the set; a value that [CanInterface] refuses is
    reported as not found. *)
Definition GetInterface (flagRO : nat -> bool) (set : list SStructFieldValue)
  (name : string) : option (option Value * bool) :=
  let idx := GetStructFieldIndex set name in
  if idx <? 0 then Some (None, false)
  else
    e ← set !! Z.to_nat idx;
    match CanInterface (flagRO (Z.to_nat idx)) (Value_ e) with
    | Some true => Some (Value_ e, true)
    | Some false => Some (None, false)
    | None => None
    end.

End Methods.
End SStructFieldValueSet.

(** ** The schema cache and the second-generation set *)

Definition Cache : Type := list (GoType * list SStructFieldInfo).

(** [sync.Map.Load] and [sync.Map.LoadOrStore], on one thread. *)
Definition Load (c : Cache) (k : GoType) : option (list SStructFieldInfo) :=
  snd <$> find (fun e => type_eqb (fst e) k) c.

Definition LoadOrStore (c : Cache) (k : GoType) (v : list SStructFieldInfo)
  : list SStructFieldInfo * Cache :=
  match Load c k with
  | Some r => (r, c)
  | None => (v, (k, v) :: c)
  end.

Section SchemaCache.
Context `{Collaborators}.

Definition cachefetchStructFieldInfos (structFieldInfoCache : Cache)
  (canSet : bool) (dataValue : Value)
  : option (list SStructFieldInfo * Cache * Value) :=
  let dataType := TypeOf dataValue in
  match Load structFieldInfoCache dataType with
  | Some r => Some (r, structFieldInfoCache, dataValue)
  | None =>
      '(infos, dataValue') ← fetchStructFieldInfos canSet dataValue;
      let '(f, cache') := LoadOrStore structFieldInfoCache dataType infos in
      Some (f, cache', dataValue')
  end.

Definition FetchStructFieldValueSetV2 (structFieldInfoCache : Cache)
  (canSet : bool) (dataValue : Value)
  : option (SStructFieldValueSetV2 * Cache * Value) :=
  '(infos, cache', dataValue1) ←
    cachefetchStructFieldInfos structFieldInfoCache canSet dataValue;
  '(values, _, dataValue2) ← fetchStructFieldValueV2s canSet dataValue1 false 0;
  Some (mkSetV2 infos values, cache', dataValue2).

Definition FetchStructFieldValueSetForWriteV2 (structFieldInfoCache : Cache)
  (canSet : bool) (dataValue : Value)
  : option (SStructFieldValueSetV2 * Cache * Value) :=
  '(infos, cache', dataValue1) ←
    cachefetchStructFieldInfos structFieldInfoCache canSet dataValue;
  '(values, _, dataValue2) ← fetchStructFieldValueV2s canSet dataValue1 true 0;
  Some (mkSetV2 infos values, cache', dataValue2).

End SchemaCache.

Module SStructFieldValueSetV2.
Section Methods.
Context `{Collaborators}.

(** The first loop of [getStructFieldIndex]: the position in [set.Infos]
    of the first field that passes one of the four tests, or [-1]. *)
Fixpoint getStructFieldIndex_infos (infos : list SStructFieldInfo) (name : string)
  (i : Z) : Z :=
  match infos with
  | [] => -1
  | jsonInfo :: rest =>
      if String.eqb (fst (MarshalName jsonInfo)) name then i
      else if String.eqb (CamelSplit (FieldName jsonInfo) "_") (CamelSplit name "_") then i
      else if String.eqb (FieldName jsonInfo) name then i
      else if String.eqb (FieldName jsonInfo) (Capitalize name) then i
      else getStructFieldIndex_infos rest name (i + 1)
  end.

(** The second loop, [for i := index; i >= 0; i--], with [k = i + 1]
    iterations left; its fall-through returns [index]. *)
Fixpoint getStructFieldIndex_scan (values : list SStructFieldValueV2) (index : Z)
  (k : nat) : option Z :=
  match k with
  | O => Some index
  | S i =>
      e ← values !! i;
      if Index e =? index then Some (Z.of_nat i)
      else getStructFieldIndex_scan values index i
  end.

Definition getStructFieldIndex (set : SStructFieldValueSetV2) (name : string)
  : option Z :=
  let index := getStructFieldIndex_infos (Infos set) name 0 in
  if index <? 0 then Some index
  else
    let index :=
      if index >=? Z.of_nat (length (Values set))
      then Z.of_nat (length (Values set)) - 1 else index in
    getStructFieldIndex_scan (Values set) index (Z.to_nat (index + 1)).

Definition GetValue (set : SStructFieldValueSetV2) (name : string)
  : option (option Value * bool) :=
  idx ← getStructFieldIndex set name;
  if idx <? 0 then Some (None, false)
  else e ← Values set !! Z.to_nat idx; Some (ValueV2 e, true).

(** [flagRO i] is the read-only bit of the [reflect.Value] stored at
    position [i] of [set.Values]. *)
Definition GetInterface (flagRO : nat -> bool) (set : SStructFieldValueSetV2)
  (name : string) : option (option Value * bool) :=
  idx ← getStructFieldIndex set name;
  if idx <? 0 then Some (None, false)
  else
    e ← Values set !! Z.to_nat idx;
    match CanInterface (flagRO (Z.to_nat idx)) (ValueV2 e) with
    | Some true => Some (ValueV2 e, true)
    | Some false => Some (None, false)
    | None => None
    end.

End Methods.
End SStructFieldValueSetV2.

(** ** A concrete set of collaborators *)

Module model.

Definition isUpper (c : ascii) : bool :=
  (65 <=? nat_of_ascii c)%nat && (nat_of_ascii c <=? 90)%nat.
Definition isLower (c : ascii) : bool :=
  (97 <=? nat_of_ascii c)%nat && (nat_of_ascii c <=? 122)%nat.
Definition isDigit (c : ascii) : bool :=
  (48 <=? nat_of_ascii c)%nat && (nat_of_ascii c <=? 57)%nat.
Definition lowerChar (c : ascii) : ascii :=
  if isUpper c then ascii_of_nat (nat_of_ascii c + 32) else c.
Definition upperChar (c : ascii) : ascii :=
  if isLower c then ascii_of_nat (nat_of_ascii c - 32) else c.

(** [strings.ToLower] of the Go library, on ASCII letters. *)
Fixpoint ToLower (s : string) : string :=
  match s with
  | EmptyString => EmptyString
  | String c r => String (lowerChar c) (ToLower r)
  end.

(** Modelled from the spec: [utils.Capitalize] is missing; the
    capitalization helper upper-cases the first letter. *)
Definition Capitalize (s : string) : string :=
  match s with
  | EmptyString => EmptyString
  | String c r => String (upperChar c) r
  end.

(** Modelled from the spec: [gotypes.IsFieldExportable] is missing; the
    exported-identifier predicate holds of names that start with an
    upper-case letter. *)
Definition IsFieldExportable (s : string) : bool :=
  match s with
  | EmptyString => false
  | String c _ => isUpper c
  end.

Fixpoint camel (afterLower : bool) (s sep : string) : string :=
  match s with
  | EmptyString => EmptyString
  | String c r =>
      if isUpper c then
        if afterLower then (sep ++ String (lowerChar c) (camel false r sep))%string
        else String (lowerChar c) (camel false r sep)
      else String c (camel (isLower c || isDigit c) r sep)
  end.

(** Modelled from the spec: [utils.CamelSplit] is missing; snake-case
    splitting lower-cases the name and starts a new word at an upper-case
    letter that follows a lower-case letter or a digit ([UserID] gives
    [user_id]). *)
Definition CamelSplit (s sep : string) : string := camel false s sep.

Definition dquote : ascii := "034"%char.

Inductive tagState : Type :=
| InKey (key : string)
| InValue (key value : string).

Fixpoint tagPairs (s : string) (st : tagState) (m : gmap string string)
  : gmap string string :=
  match s with
  | EmptyString => m
  | String c r =>
      match st with
      | InKey key =>
          if Ascii.eqb c " "%char then tagPairs r (InKey EmptyString) m
          else if Ascii.eqb c ":"%char then
            match r with
            | String q r' =>
                if Ascii.eqb q dquote then tagPairs r' (InValue key EmptyString) m
                else tagPairs r' (InKey EmptyString) m
            | EmptyString => m
            end
          else tagPairs r (InKey (key ++ String c EmptyString)%string) m
      | InValue key value =>
          if Ascii.eqb c dquote then tagPairs r (InKey EmptyString) (<[key := value]> m)
          else tagPairs r (InValue key (value ++ String c EmptyString)%string) m
      end
  end.

(** Modelled from the spec: [utils.TagMap] is missing; the tag tokenizer
    reads the space-separated [key:"value"] pairs of a struct tag. *)
Definition TagMap (tag : string) : gmap string string :=
  tagPairs tag (InKey EmptyString) ∅.

#[export] Instance collaborators : Collaborators :=
  Build_Collaborators TagMap CamelSplit Capitalize IsFieldExportable ToLower.

(** The tag [key:"value"]. *)
Definition tag (key value : string) : string :=
  (key ++ ":" ++ String dquote value ++ String dquote EmptyString)%string.

End model.

(** ** Specification-side definitions *)

Section SpecDefs.
Context `{Collaborators}.

(** The value a flag pair [on]/[off] gets from a list of option tokens: the
    last token that is one of the pair decides, [None] when there is none. *)
Definition lastToken (on off : string) (opts : list string) : option bool :=
  (fun k => String.eqb (ToLower k) on) <$>
  find (fun k => String.eqb (ToLower k) on || String.eqb (ToLower k) off)
       (rev opts).

(** The four tests of name resolution, as one disjunction. *)
Definition fieldMatches (jsonInfo : SStructFieldInfo) (name : string) : bool :=
  String.eqb (fst (MarshalName jsonInfo)) name
  || String.eqb (CamelSplit (FieldName jsonInfo) "_") (CamelSplit name "_")
  || String.eqb (FieldName jsonInfo) name
  || String.eqb (FieldName jsonInfo) (Capitalize name).

(** The position of the first field that passes one of the tests, [-1]
    when no field does. *)
Fixpoint firstMatch (infos : list SStructFieldInfo) (name : string) : Z :=
  match infos with
  | [] => -1
  | jsonInfo :: rest =>
      if fieldMatches jsonInfo name then 0
      else let r := firstMatch rest name in if r <? 0 then -1 else r + 1
  end.

End SpecDefs.

(** ** Typing of instances and the schema of a type *)

(** A value is well typed when every struct field holds a value of its
    declared type and every pointer points to a value of its element
    type. *)
Fixpoint wellTyped (v : Value) : bool :=
  match v with
  | VScalar _ _ => true
  | VInterface _ None => true
  | VInterface _ (Some d) => wellTyped d
  | VPtr _ None => true
  | VPtr e (Some t) => type_eqb (TypeOf t) e && wellTyped t
  | VStruct _ fs =>
      forallb (fun p => type_eqb (TypeOf (snd p)) (Typ (fst p)) && wellTyped (snd p)) fs
  end.

Definition wellTypedFields (fs : Fields) : bool :=
  forallb (fun p => type_eqb (TypeOf (snd p)) (Typ (fst p)) && wellTyped (snd p)) fs.

Section TypeLevel.
Context `{Collaborators}.

(** No interface where the walkers look: the exported anonymous fields of
    the type, and of the structs these embed directly or by pointer, are
    not of interface type. *)
Fixpoint ifaceFree (t : GoType) : bool :=
  match t with
  | TScalar _ => true
  | TInterface _ => false
  | TPtr e => ifaceFree e
  | TStruct _ sfs =>
      forallb (fun sf =>
                 if IsFieldExportable (reflect.Name sf) && Anonymous sf
                 then ifaceFree (Typ sf) else true) sfs
  end.

(** The flattened schema as a function of the type alone: exported fields
    in declaration order, an anonymous struct or pointer-to-struct field
    replaced by the schema of the struct, [time.Time] kept opaque. *)
Fixpoint typeInfos (t : GoType) : list SStructFieldInfo :=
  match t with
  | TStruct _ sfs =>
      flat_map
        (fun sf =>
           if IsFieldExportable (reflect.Name sf) then
             if Anonymous sf then
               match Typ sf with
               | TStruct _ _ =>
                   if type_eqb (Typ sf) gotypes.TimeType
                   then [ParseStructFieldJsonInfo sf]
                   else typeInfos (Typ sf)
               | TPtr e =>
                   match e with
                   | TStruct _ _ => typeInfos e
                   | _ => [ParseStructFieldJsonInfo sf]
                   end
               | _ => [ParseStructFieldJsonInfo sf]
               end
             else [ParseStructFieldJsonInfo sf]
           else []) sfs
  | _ => []
  end.

(** Every schema in the cache was computed from a well-typed instance of
    its key; [cachefetchStructFieldInfos] keeps this. *)
Definition cacheSound (c : Cache) : Prop :=
  forall t infos,
    Load c t = Some infos ->
    exists canSet dataValue dataValue',
      wellTyped dataValue = true /\ TypeOf dataValue = t
      /\ fetchStructFieldInfos canSet dataValue = Some (infos, dataValue').

End TypeLevel.

(** The indices [index, index + 1, ...] of [n] consecutive entries. *)
Fixpoint consecutive (index : Z) (n : nat) : list Z :=
  match n with
  | O => []
  | S n' => index :: consecutive (index + 1) n'
  end.

(** The entries carry strictly increasing indices, all of them values the
    counter took between [lo] and [hi]. *)
Definition increasingWithin (lo hi : Z) (values : list SStructFieldValueV2) : Prop :=
  StronglySorted Z.lt (map Index values)
  /\ Forall (fun e => lo <= Index e < hi) values.

(** ** Example types and instances *)

Module examples.

Definition Inner : GoType :=
  TStruct "Inner"
    [ mkStructField "X" EmptyString false (TScalar "int");
      mkStructField "Y" EmptyString false (TScalar "int") ].

Definition fieldA : StructField := mkStructField "A" EmptyString false (TScalar "int").
Definition fieldB : StructField := mkStructField "B" EmptyString false (TScalar "int").
Definition fieldInner : StructField := mkStructField "Inner" EmptyString true (TPtr Inner).

(** [struct { A int; *Inner; B int }] *)
Definition Outer : GoType := TStruct "Outer" [fieldA; fieldInner; fieldB].

(** [Outer{A: 1, Inner: nil, B: 2}] *)
Definition outerAbsent : Value :=
  VStruct "Outer"
    [ (fieldA, VScalar "int" 1); (fieldInner, VPtr Inner None);
      (fieldB, VScalar "int" 2) ].

(** [Secret string `json:"-"`] *)
Definition fieldSecret : StructField :=
  mkStructField "Secret" (model.tag "json" "-") false (TScalar "string").

(** [struct { ID int; Secret string `json:"-"` }] *)
Definition Account : GoType :=
  TStruct "Account"
    [ mkStructField "ID" EmptyString false (TScalar "int"); fieldSecret ].

(** [Dash int `json:"-,string" name:"id"`] *)
Definition fieldDash : StructField :=
  mkStructField "Dash"
    (model.tag "json" "-,string" ++ " " ++ model.tag "name" "id")%string
    false (TScalar "int").

(** [type Shape interface{ ... }] embedded in [struct { Shape; A int }] *)
Definition fieldShape : StructField :=
  mkStructField "Shape" EmptyString true (TInterface "Shape").

Definition Circle : GoType :=
  TStruct "Circle" [ mkStructField "R" EmptyString false (TScalar "int") ].

(** [Holder{Shape: nil, A: 7}] *)
Definition holderNil : Value :=
  VStruct "Holder"
    [ (fieldShape, VInterface "Shape" None); (fieldA, VScalar "int" 7) ].

(** [Holder{Shape: Circle{R: 3}, A: 7}] *)
Definition holderCircle : Value :=
  VStruct "Holder"
    [ (fieldShape,
       VInterface "Shape"
         (Some (VStruct "Circle"
                  [(mkStructField "R" EmptyString false (TScalar "int"),
                    VScalar "int" 3)])));
      (fieldA, VScalar "int" 7) ].

(** [struct { *Empty; A int }] with [type Empty struct{}], the pointer nil *)
Definition fieldEmpty : StructField :=
  mkStructField "Empty" EmptyString true (TPtr (TStruct "Empty" [])).

Definition wrapperNil : Value :=
  VStruct "Wrapper"
    [ (fieldEmpty, VPtr (TStruct "Empty" []) None);
      (fieldA, VScalar "int" 7) ].

(** [Disk{Circle: Circle{R: 3}, A: 7}] of
    [struct { Circle `json:"-"`; A int }] *)
Definition fieldHidden : StructField :=
  mkStructField "Circle" (model.tag "json" "-") true Circle.

Definition diskValue : Value :=
  VStruct "Disk"
    [ (fieldHidden,
       VStruct "Circle"
         [(mkStructField "R" EmptyString false (TScalar "int"), VScalar "int" 3)]);
      (fieldA, VScalar "int" 7) ].

(** [Host{A: 1, inner: nil}] of [struct { A int; *inner }] with the
    unexported [type inner struct { X int }] *)
Definition inner : GoType :=
  TStruct "inner" [ mkStructField "X" EmptyString false (TScalar "int") ].

Definition fieldLower : StructField :=
  mkStructField "inner" EmptyString true (TPtr inner).

Definition hostNil : Value :=
  VStruct "Host" [ (fieldA, VScalar "int" 1); (fieldLower, VPtr inner None) ].

(** [Login{UserID: 1, Legacy: 2}] of
    [struct { UserID int; Legacy int `json:"UserID"` }] *)
Definition fieldUserID : StructField :=
  mkStructField "UserID" EmptyString false (TScalar "int").

Definition fieldLegacy : StructField :=
  mkStructField "Legacy" (model.tag "json" "UserID") false (TScalar "int").

Definition loginValue : Value :=
  VStruct "Login" [ (fieldUserID, VScalar "int" 1); (fieldLegacy, VScalar "int" 2) ].

(** [struct { *Circle; A int; B int }], the pointer nil *)
Definition fieldCircle : StructField :=
  mkStructField "Circle" EmptyString true (TPtr Circle).

Definition badgeNil : Value :=
  VStruct "Badge"
    [ (fieldCircle, VPtr Circle None); (fieldA, VScalar "int" 7);
      (fieldB, VScalar "int" 8) ].

(** [Outer{A: 5, Inner: &Inner{X: 8, Y: 9}, B: 6}] *)
Definition outerPresent : Value :=
  VStruct "Outer"
    [ (fieldA, VScalar "int" 5);
      (fieldInner,
       VPtr Inner
         (Some (VStruct "Inner"
                  [ (mkStructField "X" EmptyString false (TScalar "int"), VScalar "int" 8);
                    (mkStructField "Y" EmptyString false (TScalar "int"), VScalar "int" 9) ])));
      (fieldB, VScalar "int" 6) ].

End examples.
Import examples.

(** * Verification *)

(** ** The tag parser *)

Section ParserFacts.
Context `{Collaborators}.

Lemma applyOption_OmitEmpty info k :
  OmitEmpty (applyOption info k) =
    if String.eqb (ToLower k) "omitempty" then true
    else if String.eqb (ToLower k) "allowempty" then false
    else OmitEmpty info.
Proof.
  unfold applyOption.
  destruct (String.eqb_spec (ToLower k) "omitempty"); [reflexivity|].
  destruct (String.eqb_spec (ToLower k) "allowempty"); [reflexivity|].
  repeat (destruct (String.eqb _ _); [reflexivity|]). reflexivity.
Qed.

Lemma applyOption_OmitZero info k :
  OmitZero (applyOption info k) =
    if String.eqb (ToLower k) "omitzero" then true
    else if String.eqb (ToLower k) "allowzero" then false
    else OmitZero info.
Proof.
  unfold applyOption.
  destruct (String.eqb_spec (ToLower k) "omitzero") as [->|]; [reflexivity|].
  destruct (String.eqb_spec (ToLower k) "allowzero") as [->|]; [reflexivity|].
  repeat (destruct (String.eqb _ _); [reflexivity|]). reflexivity.
Qed.

Lemma applyOption_OmitFalse info k :
  OmitFalse (applyOption info k) =
    if String.eqb (ToLower k) "omitfalse" then true
    else if String.eqb (ToLower k) "allowfalse" then false
    else OmitFalse info.
Proof.
  unfold applyOption.
  destruct (String.eqb_spec (ToLower k) "omitfalse") as [->|]; [reflexivity|].
  destruct (String.eqb_spec (ToLower k) "allowfalse") as [->|]; [reflexivity|].
  repeat (destruct (String.eqb _ _); [reflexivity|]). reflexivity.
Qed.

Lemma applyOption_Name info k : Name (applyOption info k) = Name info.
Proof. unfold applyOption. repeat (destruct (String.eqb _ _); [reflexivity|]). reflexivity. Qed.

Lemma applyOption_Ignore info k : Ignore (applyOption info k) = Ignore info.
Proof. unfold applyOption. repeat (destruct (String.eqb _ _); [reflexivity|]). reflexivity. Qed.

Lemma fold_applyOption_keeps {A : Type} (proj : SStructFieldInfo -> A) :
  (forall info k, proj (applyOption info k) = proj info) ->
  forall opts info, proj (fold_left applyOption opts info) = proj info.
Proof.
  intros Hstep opts. induction opts as [|k rest IH]; intros info; simpl; [reflexivity|].
  rewrite IH. apply Hstep.
Qed.

Lemma fold_applyOption_flag (flag : SStructFieldInfo -> bool) (on off : string) :
  (forall info k, flag (applyOption info k) =
     if String.eqb (ToLower k) on then true
     else if String.eqb (ToLower k) off then false else flag info) ->
  forall opts info,
    flag (fold_left applyOption opts info) =
      default (flag info) (lastToken on off opts).
Proof.
  intros Hstep opts. induction opts as [|k rest IH] using rev_ind; intros info.
  - reflexivity.
  - rewrite fold_left_app. simpl. rewrite Hstep, IH.
    unfold lastToken. rewrite rev_unit. simpl.
    destruct (String.eqb (ToLower k) on) eqn:Eon; simpl; [rewrite Eon; reflexivity|].
    destruct (String.eqb (ToLower k) off) eqn:Eoff; simpl; [rewrite Eon|]; reflexivity.
Qed.

Lemma SplitComma_length val : (1 <= length (gostrings.SplitComma val))%nat.
Proof.
  induction val as [|c r IH]; simpl; [lia|].
  destruct (Ascii.eqb c ","); simpl; [lia|].
  destruct (gostrings.SplitComma r); simpl in *; lia.
Qed.

(** The flags of [ParseStructFieldJsonInfo] *)
Lemma Parse_flag (flag : SStructFieldInfo -> bool) (on off : string) (d : bool) :
  (forall info k, flag (applyOption info k) =
     if String.eqb (ToLower k) on then true
     else if String.eqb (ToLower k) off then false else flag info) ->
  (forall b i, flag (setIgnore b i) = flag i) ->
  (forall s i, flag (setName s i) = flag i) ->
  forall sf,
  flag (mkInfo false true false false EmptyString (reflect.Name sf) false (TagMap (Tag sf))) = d ->
  flag (ParseStructFieldJsonInfo sf) =
    match TagMap (Tag sf) !! "json" with
    | None => d
    | Some val => default d (lastToken on off (tail (gostrings.SplitComma val)))
    end.
Proof.
  intros Hstep Hign Hname sf Hd. unfold ParseStructFieldJsonInfo. cbn [Tags].
  set (info0 := mkInfo _ _ _ _ _ _ _ _) in *.
  assert (Hjson :
    flag (match TagMap (Tag sf) !! "json" with
     | Some val =>
         let keys := gostrings.SplitComma val in
         let info := match keys with
           | k0 :: _ =>
               if String.eqb k0 "-" then
                 if 1 <? Z.of_nat (length keys) then setName k0 info0 else setIgnore true info0
               else setName k0 info0
           | [] => info0 end in
         if 1 <? Z.of_nat (length keys) then fold_left applyOption (tail keys) info else info
     | None => info0 end) =
    match TagMap (Tag sf) !! "json" with
    | None => d
    | Some val => default d (lastToken on off (tail (gostrings.SplitComma val)))
    end).
  { destruct (TagMap (Tag sf) !! "json") as [val|]; [|exact Hd].
    cbv zeta. pose proof (SplitComma_length val) as Hlen.
    destruct (gostrings.SplitComma val) as [|k0 ks]; [simpl in Hlen; lia|].
    cbn [tail length].
    set (info1 := if String.eqb k0 "-" then _ else _).
    assert (Hinfo1 : flag info1 = d).
    { subst info1. destruct (String.eqb k0 "-"); [destruct (1 <? _)|];
        rewrite ?Hname, ?Hign; exact Hd. }
    destruct (Z.ltb_spec 1 (Z.of_nat (S (length ks)))) as [Hlt|Hge].
    - rewrite (fold_applyOption_flag flag on off Hstep), Hinfo1. reflexivity.
    - destruct ks; [|simpl in Hge; lia]. exact Hinfo1. }
  match goal with
  | |- flag (match ?m with Some v => setName v ?i | None => _ end) = _ =>
      destruct m; rewrite ?Hname; exact Hjson
  end.
Qed.

End ParserFacts.

Section ParserTheorems.
Context `{Collaborators}.

(** C6: [ParseStructFieldJsonInfo] leaves [OmitEmpty] true unless the
    option tokens of the json tag say otherwise, also when the field has no
    json tag at all; among the tokens [omitempty]/[allowempty] (compared
    after lower-casing) the last one decides, [allowempty] clearing the
    flag; the pairs [omitzero]/[allowzero] and [omitfalse]/[allowfalse]
    behave alike with default false.  The function is total: no tag makes
    it fail. *)
Theorem C6_omitempty_default_last_token_wins (sf : StructField) :
  OmitEmpty (ParseStructFieldJsonInfo sf) =
    match TagMap (Tag sf) !! "json" with
    | None => true
    | Some val =>
        default true
          (lastToken "omitempty" "allowempty" (tail (gostrings.SplitComma val)))
    end
  /\ OmitZero (ParseStructFieldJsonInfo sf) =
    match TagMap (Tag sf) !! "json" with
    | None => false
    | Some val =>
        default false
          (lastToken "omitzero" "allowzero" (tail (gostrings.SplitComma val)))
    end
  /\ OmitFalse (ParseStructFieldJsonInfo sf) =
    match TagMap (Tag sf) !! "json" with
    | None => false
    | Some val =>
        default false
          (lastToken "omitfalse" "allowfalse" (tail (gostrings.SplitComma val)))
    end.
Proof.
  repeat split.
  - apply (Parse_flag OmitEmpty); auto using applyOption_OmitEmpty.
  - apply (Parse_flag OmitZero); auto using applyOption_OmitZero.
  - apply (Parse_flag OmitFalse); auto using applyOption_OmitFalse.
Qed.

Lemma MarshalName_set info :
  Name info <> EmptyString -> MarshalName info = (Name info, info).
Proof.
  intros Hne. unfold MarshalName.
  destruct (Name info) as [|c r] eqn:E; [congruence|].
  simpl String.length. destruct (Z.ltb_spec 0 (Z.of_nat (S (String.length r)))); [|lia].
  reflexivity.
Qed.

Lemma MarshalName_unset info :
  Name info = EmptyString ->
  MarshalName info =
    (CamelSplit (FieldName info) "_", setName (CamelSplit (FieldName info) "_") info).
Proof. intros E. unfold MarshalName. rewrite E. reflexivity. Qed.

Lemma MarshalName_again info :
  MarshalName (snd (MarshalName info)) = MarshalName info.
Proof.
  destruct (string_dec (Name info) EmptyString) as [E|E].
  - rewrite (MarshalName_unset info E). cbn [snd].
    set (cs := CamelSplit (FieldName info) "_").
    destruct (string_dec cs EmptyString) as [Ecs|Ecs].
    + rewrite MarshalName_unset by exact Ecs. reflexivity.
    + rewrite MarshalName_set by exact Ecs. reflexivity.
  - rewrite (MarshalName_set info E). cbn [snd]. apply MarshalName_set, E.
Qed.

Lemma Parse_untagged sf :
  TagMap (Tag sf) !! "json" = None -> TagMap (Tag sf) !! "name" = None ->
  ParseStructFieldJsonInfo sf =
    mkInfo false true false false EmptyString (reflect.Name sf) false (TagMap (Tag sf)).
Proof.
  intros Hj Hn. unfold ParseStructFieldJsonInfo. cbn [Tags]. rewrite Hj.
  cbn [Tags]. rewrite Hn. reflexivity.
Qed.

(** C7: [MarshalName] returns a name that is already set and leaves the
    policy alone; with no name set it derives the name from the declared
    field name with [CamelSplit], stores it on the policy and returns it;
    calling it again on the policy it left returns the same name and the
    same policy.  When [CamelSplit] turns [UserID] into [user_id], an
    untagged field declared [UserID] gets the name [user_id]. *)
Theorem C7_MarshalName_lazy_memoized_idempotent (info : SStructFieldInfo) :
  MarshalName info =
    (if String.eqb (Name info) EmptyString
     then (CamelSplit (FieldName info) "_",
           setName (CamelSplit (FieldName info) "_") info)
     else (Name info, info))
  /\ MarshalName (snd (MarshalName info)) = MarshalName info
  /\ (forall sf : StructField,
      CamelSplit "UserID" "_" = "user_id" ->
      reflect.Name sf = "UserID" ->
      TagMap (Tag sf) !! "json" = None -> TagMap (Tag sf) !! "name" = None ->
      info = ParseStructFieldJsonInfo sf ->
      fst (MarshalName info) = "user_id"
      /\ Name (snd (MarshalName info)) = "user_id").
Proof.
  split.
  { destruct (String.eqb_spec (Name info) EmptyString) as [E|E].
    - apply MarshalName_unset, E.
    - apply MarshalName_set, E. }
  split; [apply MarshalName_again|].
  intros sf Hcs Hname Hj Hn ->.
  rewrite (Parse_untagged sf Hj Hn), MarshalName_unset by reflexivity.
  cbn. rewrite Hname, Hcs. split; reflexivity.
Qed.

End ParserTheorems.

(** ** The walkers: unfolding equations and induction *)

Section WalkerEquations.
Context `{Collaborators}.

Lemma fetchStructFieldInfos_loop_cons canSet sf fv rest :
  fetchStructFieldInfos_loop canSet ((sf, fv) :: rest) =
    if IsFieldExportable (reflect.Name sf) then
      if Anonymous sf then
        match visitInfos canSet sf fv with
        | Panics => None
        | Skips =>
            '(infos, rest') ← fetchStructFieldInfos_loop canSet rest;
            Some (infos, (sf, fv) :: rest')
        | Descends canSet' n fields plug =>
            '(subInfo, fields') ← fetchStructFieldInfos_loop canSet' fields;
            '(infos, rest') ← fetchStructFieldInfos_loop canSet rest;
            Some (subInfo ++ infos, (sf, plug (VStruct n fields')) :: rest')
        | Emits _ field =>
            '(infos, rest') ← fetchStructFieldInfos_loop canSet rest;
            Some (ParseStructFieldJsonInfo sf :: infos, (sf, field) :: rest')
        end
      else
        '(infos, rest') ← fetchStructFieldInfos_loop canSet rest;
        Some (ParseStructFieldJsonInfo sf :: infos, (sf, fv) :: rest')
    else
      '(infos, rest') ← fetchStructFieldInfos_loop canSet rest;
      Some (infos, (sf, fv) :: rest').
Proof.
  simp fetchStructFieldInfos_loop.
  destruct (IsFieldExportable (reflect.Name sf)); simpl; [|reflexivity].
  destruct (Anonymous sf); simpl; [|reflexivity].
  destruct (inspect (visitInfos canSet sf fv)) as [v e].
  destruct v; simp fetchStructFieldInfos_loop; rewrite e; reflexivity.
Qed.

Lemma fetchStructFieldValueV2s_loop_cons canSet allocatePtr sf fv rest index :
  fetchStructFieldValueV2s_loop canSet allocatePtr ((sf, fv) :: rest) index =
    if IsFieldExportable (reflect.Name sf) then
      if Anonymous sf then
        match visitValue canSet allocatePtr sf fv with
        | Panics => None
        | Skips =>
            '(ret, index', rest') ←
              fetchStructFieldValueV2s_loop canSet allocatePtr rest (index + 1);
            Some (ret, index', (sf, fv) :: rest')
        | Descends canSet' n fields plug =>
            '(subValues, index1, fields') ←
              fetchStructFieldValueV2s_loop canSet' allocatePtr fields index;
            '(ret, index', rest') ←
              fetchStructFieldValueV2s_loop canSet allocatePtr rest index1;
            Some (subValues ++ ret, index', (sf, plug (VStruct n fields')) :: rest')
        | Emits fv' field =>
            '(ret, index', rest') ←
              fetchStructFieldValueV2s_loop canSet allocatePtr rest (index + 1);
            Some (mkFieldValueV2 fv' index :: ret, index', (sf, field) :: rest')
        end
      else
        '(ret, index', rest') ←
          fetchStructFieldValueV2s_loop canSet allocatePtr rest (index + 1);
        Some (mkFieldValueV2 (Some fv) index :: ret, index', (sf, fv) :: rest')
    else
      '(ret, index', rest') ←
        fetchStructFieldValueV2s_loop canSet allocatePtr rest index;
      Some (ret, index', (sf, fv) :: rest').
Proof.
  simp fetchStructFieldValueV2s_loop.
  destruct (IsFieldExportable (reflect.Name sf)); simpl; [|reflexivity].
  destruct (Anonymous sf); simpl; [|reflexivity].
  destruct (inspect (visitValue canSet allocatePtr sf fv)) as [v e].
  destruct v; simp fetchStructFieldValueV2s_loop; rewrite e; reflexivity.
Qed.

Lemma fetchStructFieldValueSet_loop_cons canSet allocatePtr sf fv rest :
  fetchStructFieldValueSet_loop canSet allocatePtr ((sf, fv) :: rest) =
    if IsFieldExportable (reflect.Name sf) then
      if Anonymous sf then
        match visitValue canSet allocatePtr sf fv with
        | Panics => None
        | Skips =>
            '(ret, rest') ← fetchStructFieldValueSet_loop canSet allocatePtr rest;
            Some (ret, (sf, fv) :: rest')
        | Descends canSet' n fields plug =>
            '(subfields, fields') ←
              fetchStructFieldValueSet_loop canSet' allocatePtr fields;
            '(ret, rest') ← fetchStructFieldValueSet_loop canSet allocatePtr rest;
            Some (subfields ++ ret, (sf, plug (VStruct n fields')) :: rest')
        | Emits fv' field =>
            '(ret, rest') ← fetchStructFieldValueSet_loop canSet allocatePtr rest;
            Some (mkFieldValue (ParseStructFieldJsonInfo sf) fv' :: ret,
                  (sf, field) :: rest')
        end
      else
        '(ret, rest') ← fetchStructFieldValueSet_loop canSet allocatePtr rest;
        Some (mkFieldValue (ParseStructFieldJsonInfo sf) (Some fv) :: ret,
              (sf, fv) :: rest')
    else
      '(ret, rest') ← fetchStructFieldValueSet_loop canSet allocatePtr rest;
      Some (ret, (sf, fv) :: rest').
Proof.
  simp fetchStructFieldValueSet_loop.
  destruct (IsFieldExportable (reflect.Name sf)); simpl; [|reflexivity].
  destruct (Anonymous sf); simpl; [|reflexivity].
  destruct (inspect (visitValue canSet allocatePtr sf fv)) as [v e].
  destruct v; simp fetchStructFieldValueSet_loop; rewrite e; reflexivity.
Qed.

End WalkerEquations.

(** Induction along the walkers: the tail of the loop, and any field list
    smaller than the field at hand (the struct a walker descends into). *)
Lemma Fields_walk_ind (P : Fields -> Prop) :
  P [] ->
  (forall sf fv rest,
     P rest ->
     (forall fields, (fields_size fields < vsize fv)%nat -> P fields) ->
     P ((sf, fv) :: rest)) ->
  forall fs, P fs.
Proof.
  intros Hnil Hcons fs.
  remember (fields_size fs) as m eqn:Hm.
  revert fs Hm. induction m as [m IH] using lt_wf_ind. intros fs ->.
  destruct fs as [|[sf fv] rest]; [exact Hnil|].
  rewrite fields_size_cons in IH.
  apply Hcons.
  - apply (IH (fields_size rest)); [lia|reflexivity].
  - intros fields Hlt. apply (IH (fields_size fields)); [lia|reflexivity].
Qed.

(** ** Read mode *)

Section ReadMode.
Context `{Collaborators}.

Lemma visitValue_read canSet sf fv :
  match visitValue canSet false sf fv with
  | Panics => False
  | Skips => True
  | Descends _ n fields plug => plug (VStruct n fields) = fv
  | Emits _ field => field = fv
  end.
Proof.
  unfold visitValue.
  destruct fv as [ty p|ty [d|]|elem [t|]|m fs]; simpl; try exact I; try reflexivity.
  - destruct d; try reflexivity. destruct (negb _); reflexivity.
  - destruct t; try reflexivity. destruct (negb _); reflexivity.
  - destruct (negb _); reflexivity.
Qed.

Lemma fetchStructFieldValueV2s_loop_read fs :
  forall canSet index, exists ret index',
    fetchStructFieldValueV2s_loop canSet false fs index = Some (ret, index', fs).
Proof.
  induction fs as [|sf fv rest IHrest IHsub] using Fields_walk_ind; intros canSet index.
  - simp fetchStructFieldValueV2s_loop. eauto.
  - rewrite fetchStructFieldValueV2s_loop_cons.
    destruct (IsFieldExportable (reflect.Name sf)).
    2:{ destruct (IHrest canSet index) as (ret & index' & ->). simpl. eauto. }
    destruct (Anonymous sf).
    2:{ destruct (IHrest canSet (index + 1)) as (ret & index' & ->). simpl. eauto. }
    pose proof (visitValue_read canSet sf fv) as Hread.
    destruct (visitValue canSet false sf fv) as [| |c n fields plug|fv' field] eqn:E.
    + contradiction.
    + destruct (IHrest canSet (index + 1)) as (ret & index' & ->). simpl. eauto.
    + apply visitValue_Descends_size in E.
      destruct (IHsub fields E c index) as (sub & index1 & ->). simpl.
      destruct (IHrest canSet index1) as (ret & index' & ->). simpl.
      rewrite Hread. eauto.
    + destruct (IHrest canSet (index + 1)) as (ret & index' & ->). simpl.
      rewrite Hread. eauto.
Qed.

Lemma fetchStructFieldValueSet_loop_read fs :
  forall canSet, exists ret,
    fetchStructFieldValueSet_loop canSet false fs = Some (ret, fs).
Proof.
  induction fs as [|sf fv rest IHrest IHsub] using Fields_walk_ind; intros canSet.
  - simp fetchStructFieldValueSet_loop. eauto.
  - rewrite fetchStructFieldValueSet_loop_cons.
    destruct (IsFieldExportable (reflect.Name sf)).
    2:{ destruct (IHrest canSet) as (ret & ->). simpl. eauto. }
    destruct (Anonymous sf).
    2:{ destruct (IHrest canSet) as (ret & ->). simpl. eauto. }
    pose proof (visitValue_read canSet sf fv) as Hread.
    destruct (visitValue canSet false sf fv) as [| |c n fields plug|fv' field] eqn:E.
    + contradiction.
    + destruct (IHrest canSet) as (ret & ->). simpl. eauto.
    + apply visitValue_Descends_size in E.
      destruct (IHsub fields E c) as (sub & ->). simpl.
      destruct (IHrest canSet) as (ret & ->). simpl.
      rewrite Hread. eauto.
    + destruct (IHrest canSet) as (ret & ->). simpl.
      rewrite Hread. eauto.
Qed.

(** C10: walking an instance in read mode writes nothing.  For every struct
    instance, addressable or not, [FetchStructFieldValueSet]
    ([fetchStructFieldValueSet] with [allocatePtr = false]) and
    [fetchStructFieldValueV2s] with [allocatePtr = false] return (they do
    not panic) and the instance they leave is the instance they were given:
    every field is unchanged, nil composed pointers and interfaces
    included. *)
Theorem C10_read_mode_leaves_instance_unchanged
  (canSet : bool) (n : string) (fields : Fields) (index : Z) :
  (exists ret, FetchStructFieldValueSet canSet (VStruct n fields)
               = Some (ret, VStruct n fields))
  /\ (exists ret index',
        fetchStructFieldValueV2s canSet (VStruct n fields) false index
        = Some (ret, index', VStruct n fields)).
Proof.
  split.
  - unfold FetchStructFieldValueSet, fetchStructFieldValueSet.
    destruct (fetchStructFieldValueSet_loop_read fields canSet) as (ret & ->).
    simpl. eauto.
  - unfold fetchStructFieldValueV2s.
    destruct (fetchStructFieldValueV2s_loop_read fields canSet index)
      as (ret & index' & ->).
    simpl. eauto.
Qed.

End ReadMode.

(** ** The loops distribute over a split of the field list *)

Section LoopSplit.
Context `{Collaborators}.

Lemma fetchStructFieldValueV2s_loop_app canSet allocatePtr fs1 fs2 :
  forall index,
  fetchStructFieldValueV2s_loop canSet allocatePtr (fs1 ++ fs2) index =
    '(ret1, index1, fs1') ← fetchStructFieldValueV2s_loop canSet allocatePtr fs1 index;
    '(ret2, index2, fs2') ← fetchStructFieldValueV2s_loop canSet allocatePtr fs2 index1;
    Some (ret1 ++ ret2, index2, fs1' ++ fs2').
Proof.
  induction fs1 as [|[sf fv] rest IH]; intros index.
  - simp fetchStructFieldValueV2s_loop. simpl.
    destruct (fetchStructFieldValueV2s_loop _ _ fs2 index) as [[[? ?] ?]|]; reflexivity.
  - rewrite <- app_comm_cons, !fetchStructFieldValueV2s_loop_cons.
    destruct (IsFieldExportable _).
    2:{ rewrite IH.
        destruct (fetchStructFieldValueV2s_loop _ _ rest index) as [[[r1 i1] f1]|];
          simpl; [|reflexivity].
        destruct (fetchStructFieldValueV2s_loop _ _ fs2 i1) as [[[? ?] ?]|]; reflexivity. }
    destruct (Anonymous sf).
    2:{ rewrite IH.
        destruct (fetchStructFieldValueV2s_loop _ _ rest (index + 1)) as [[[r1 i1] f1]|];
          simpl; [|reflexivity].
        destruct (fetchStructFieldValueV2s_loop _ _ fs2 i1) as [[[? ?] ?]|]; reflexivity. }
    destruct (visitValue canSet allocatePtr sf fv) as [| |c n fields plug|fv' field].
    + reflexivity.
    + rewrite IH.
      destruct (fetchStructFieldValueV2s_loop _ _ rest (index + 1)) as [[[r1 i1] f1]|];
        simpl; [|reflexivity].
      destruct (fetchStructFieldValueV2s_loop _ _ fs2 i1) as [[[? ?] ?]|]; reflexivity.
    + destruct (fetchStructFieldValueV2s_loop c _ fields index) as [[[sub i0] f0]|];
        simpl; [|reflexivity].
      rewrite IH.
      destruct (fetchStructFieldValueV2s_loop _ _ rest i0) as [[[r1 i1] f1]|];
        simpl; [|reflexivity].
      destruct (fetchStructFieldValueV2s_loop _ _ fs2 i1) as [[[? ?] ?]|]; simpl;
        [|reflexivity].
      rewrite app_assoc. reflexivity.
    + rewrite IH.
      destruct (fetchStructFieldValueV2s_loop _ _ rest (index + 1)) as [[[r1 i1] f1]|];
        simpl; [|reflexivity].
      destruct (fetchStructFieldValueV2s_loop _ _ fs2 i1) as [[[? ?] ?]|]; reflexivity.
Qed.

Lemma fetchStructFieldInfos_loop_app canSet fs1 fs2 :
  fetchStructFieldInfos_loop canSet (fs1 ++ fs2) =
    '(infos1, fs1') ← fetchStructFieldInfos_loop canSet fs1;
    '(infos2, fs2') ← fetchStructFieldInfos_loop canSet fs2;
    Some (infos1 ++ infos2, fs1' ++ fs2').
Proof.
  induction fs1 as [|[sf fv] rest IH].
  - simp fetchStructFieldInfos_loop. simpl.
    destruct (fetchStructFieldInfos_loop _ fs2) as [[? ?]|]; reflexivity.
  - rewrite <- app_comm_cons, !fetchStructFieldInfos_loop_cons.
    destruct (IsFieldExportable _).
    2:{ rewrite IH.
        destruct (fetchStructFieldInfos_loop _ rest) as [[r1 f1]|]; simpl; [|reflexivity].
        destruct (fetchStructFieldInfos_loop _ fs2) as [[? ?]|]; reflexivity. }
    destruct (Anonymous sf).
    2:{ rewrite IH.
        destruct (fetchStructFieldInfos_loop _ rest) as [[r1 f1]|]; simpl; [|reflexivity].
        destruct (fetchStructFieldInfos_loop _ fs2) as [[? ?]|]; reflexivity. }
    destruct (visitInfos canSet sf fv) as [| |c n fields plug|fv' field].
    + reflexivity.
    + rewrite IH.
      destruct (fetchStructFieldInfos_loop _ rest) as [[r1 f1]|]; simpl; [|reflexivity].
      destruct (fetchStructFieldInfos_loop _ fs2) as [[? ?]|]; reflexivity.
    + destruct (fetchStructFieldInfos_loop c fields) as [[sub f0]|]; simpl; [|reflexivity].
      rewrite IH.
      destruct (fetchStructFieldInfos_loop _ rest) as [[r1 f1]|]; simpl; [|reflexivity].
      destruct (fetchStructFieldInfos_loop _ fs2) as [[? ?]|]; simpl; [|reflexivity].
      rewrite app_assoc. reflexivity.
    + rewrite IH.
      destruct (fetchStructFieldInfos_loop _ rest) as [[r1 f1]|]; simpl; [|reflexivity].
      destruct (fetchStructFieldInfos_loop _ fs2) as [[? ?]|]; reflexivity.
Qed.

Lemma visitValue_nil_read canSet sf fv :
  IsNil fv = true -> visitValue canSet false sf fv = Skips.
Proof.
  destruct fv as [ty p|ty [d|]|elem [t|]|m fs]; simpl; try discriminate; reflexivity.
Qed.

(** C5: in read mode ([allocatePtr = false]) an exported anonymous field
    that holds a nil pointer or a nil interface advances the schema-index
    counter by exactly one and contributes no entry, whatever the type it
    would point to declares: the walk of [pre ++ field :: post] from
    [index] is the walk of [pre] from [index] followed by the walk of
    [post] from one past the counter [pre] left, and the field itself is
    left as it was. *)
Theorem C5_absent_composed_field_reserves_one_slot
  (canSet : bool) (pre post : Fields) (sf : StructField) (fv : Value) (index : Z) :
  IsFieldExportable (reflect.Name sf) = true ->
  Anonymous sf = true ->
  IsNil fv = true ->
  fetchStructFieldValueV2s_loop canSet false (pre ++ (sf, fv) :: post) index =
    '(ret1, index1, pre') ← fetchStructFieldValueV2s_loop canSet false pre index;
    '(ret2, index2, post') ← fetchStructFieldValueV2s_loop canSet false post (index1 + 1);
    Some (ret1 ++ ret2, index2, pre' ++ (sf, fv) :: post').
Proof.
  intros Hexp Hanon Hnil.
  rewrite fetchStructFieldValueV2s_loop_app.
  destruct (fetchStructFieldValueV2s_loop canSet false pre index) as [[[r1 i1] f1]|];
    simpl; [|reflexivity].
  rewrite fetchStructFieldValueV2s_loop_cons, Hexp, Hanon,
    (visitValue_nil_read canSet sf fv Hnil).
  destruct (fetchStructFieldValueV2s_loop canSet false post (i1 + 1)) as [[[r2 i2] f2]|];
    reflexivity.
Qed.

End LoopSplit.

(** ** Name resolution *)

Section Resolution.
Context `{Collaborators}.

Lemma fieldMatches_chain {A : Type} (jsonInfo : SStructFieldInfo) (name : string) (a b : A) :
  (if String.eqb (fst (MarshalName jsonInfo)) name then a
   else if String.eqb (CamelSplit (FieldName jsonInfo) "_") (CamelSplit name "_") then a
   else if String.eqb (FieldName jsonInfo) name then a
   else if String.eqb (FieldName jsonInfo) (Capitalize name) then a
   else b) = if fieldMatches jsonInfo name then a else b.
Proof.
  unfold fieldMatches.
  repeat (destruct (String.eqb _ _); [reflexivity|]). reflexivity.
Qed.

Lemma fieldMatches_rules jsonInfo name :
  fieldMatches jsonInfo name = true <->
    fst (MarshalName jsonInfo) = name
    \/ CamelSplit (FieldName jsonInfo) "_" = CamelSplit name "_"
    \/ FieldName jsonInfo = name
    \/ FieldName jsonInfo = Capitalize name.
Proof.
  unfold fieldMatches. rewrite !orb_true_iff, !String.eqb_eq. tauto.
Qed.

Lemma firstMatch_bounds infos name :
  -1 <= firstMatch infos name < Z.of_nat (length infos).
Proof.
  induction infos as [|info rest IH]; simpl; [lia|].
  destruct (fieldMatches info name); [lia|].
  destruct (Z.ltb_spec (firstMatch rest name) 0); lia.
Qed.

Lemma firstMatch_none infos name :
  firstMatch infos name = -1 <->
  Forall (fun jsonInfo => fieldMatches jsonInfo name = false) infos.
Proof.
  induction infos as [|info rest IH]; simpl.
  - split; [constructor|reflexivity].
  - pose proof (firstMatch_bounds rest name) as Hb.
    destruct (fieldMatches info name) eqn:E.
    + split; [lia|]. intros Hall. inversion Hall; congruence.
    + destruct (Z.ltb_spec (firstMatch rest name) 0) as [Hlt|Hge].
      * split; [|reflexivity]. intros _. constructor; [exact E|]. apply IH. lia.
      * split; [lia|]. intros Hall. inversion Hall as [|? ? _ Hrest]; subst.
        apply IH in Hrest. lia.
Qed.

Lemma firstMatch_some infos name (i : nat) :
  firstMatch infos name = Z.of_nat i <->
  exists jsonInfo,
    infos !! i = Some jsonInfo /\ fieldMatches jsonInfo name = true
    /\ forall (j : nat) other,
         (j < i)%nat -> infos !! j = Some other -> fieldMatches other name = false.
Proof.
  revert i. induction infos as [|info rest IH]; intros i; simpl.
  - split; [lia|]. intros (? & Hl & _). discriminate.
  - pose proof (firstMatch_bounds rest name) as Hb.
    destruct (fieldMatches info name) eqn:E.
    + split.
      * intros Hi. assert (i = 0%nat) as -> by lia.
        exists info. repeat split; [exact E|]. intros j other Hj. lia.
      * intros (jsonInfo & Hl & Hm & Hfirst).
        destruct i as [|i]; [reflexivity|].
        specialize (Hfirst 0%nat info ltac:(lia) eq_refl). congruence.
    + destruct (Z.ltb_spec (firstMatch rest name) 0) as [Hlt|Hge].
      * split; [lia|]. intros (jsonInfo & Hl & Hm & Hfirst).
        destruct i as [|i]; [simpl in Hl; congruence|]. simpl in Hl.
        assert (Hex : firstMatch rest name = Z.of_nat i).
        { apply IH. exists jsonInfo. repeat split; try assumption.
          intros j other Hj Hlj. apply (Hfirst (S j)); [lia|exact Hlj]. }
        lia.
      * split.
        -- intros Hi. destruct i as [|i]; [lia|].
           assert (Hex : firstMatch rest name = Z.of_nat i) by lia.
           apply IH in Hex as (jsonInfo & Hl & Hm & Hfirst).
           exists jsonInfo. repeat split; try assumption.
           intros [|j] other Hj Hlj; simpl in Hlj.
           ++ congruence.
           ++ apply (Hfirst j); [lia|exact Hlj].
        -- intros (jsonInfo & Hl & Hm & Hfirst).
           destruct i as [|i]; [simpl in Hl; congruence|]. simpl in Hl.
           assert (Hex : firstMatch rest name = Z.of_nat i).
           { apply IH. exists jsonInfo. repeat split; try assumption.
             intros j other Hj Hlj. apply (Hfirst (S j)); [lia|exact Hlj]. }
           lia.
Qed.

Lemma firstMatch_app_hit pre info post name :
  Forall (fun jsonInfo => fieldMatches jsonInfo name = false) pre ->
  fieldMatches info name = true ->
  firstMatch (pre ++ info :: post) name = Z.of_nat (length pre).
Proof.
  intros Hpre Hhit. induction Hpre as [|p pre Hp _ IH]; simpl.
  - rewrite Hhit. reflexivity.
  - rewrite Hp, IH. destruct (Z.ltb_spec (Z.of_nat (length pre)) 0); lia.
Qed.

Lemma GetStructFieldIndex_from_firstMatch set name i :
  SStructFieldValueSet.GetStructFieldIndex_from set name i =
    let r := firstMatch (map Info set) name in
    if r <? 0 then -1 else i + r.
Proof.
  revert i. induction set as [|e rest IH]; intros i; simpl; [reflexivity|].
  rewrite fieldMatches_chain.
  destruct (fieldMatches (Info e) name); [simpl; lia|].
  rewrite IH. cbv zeta.
  destruct (Z.ltb_spec (firstMatch (map Info rest) name) 0) as [Hlt|Hge]; simpl; [reflexivity|].
  destruct (Z.ltb_spec (firstMatch (map Info rest) name + 1) 0); lia.
Qed.

Lemma getStructFieldIndex_infos_firstMatch infos name i :
  SStructFieldValueSetV2.getStructFieldIndex_infos infos name i =
    let r := firstMatch infos name in
    if r <? 0 then -1 else i + r.
Proof.
  revert i. induction infos as [|info rest IH]; intros i; simpl; [reflexivity|].
  rewrite fieldMatches_chain.
  destruct (fieldMatches info name); [simpl; lia|].
  rewrite IH. cbv zeta.
  destruct (Z.ltb_spec (firstMatch rest name) 0) as [Hlt|Hge]; simpl; [reflexivity|].
  destruct (Z.ltb_spec (firstMatch rest name + 1) 0); lia.
Qed.

Lemma getStructFieldIndex_infos_0 infos name :
  SStructFieldValueSetV2.getStructFieldIndex_infos infos name 0 = firstMatch infos name.
Proof.
  rewrite getStructFieldIndex_infos_firstMatch. cbv zeta.
  pose proof (firstMatch_bounds infos name).
  destruct (Z.ltb_spec (firstMatch infos name) 0); lia.
Qed.

End Resolution.

(** ** The tag ["-"] *)

Section DashTag.
Context `{Collaborators}.

Lemma Parse_Ignore_Name sf :
  (Ignore (ParseStructFieldJsonInfo sf) =
    match TagMap (Tag sf) !! "json" with
    | Some val =>
        match gostrings.SplitComma val with
        | [k0] => String.eqb k0 "-"
        | _ => false
        end
    | None => false
    end)
  /\ Name (ParseStructFieldJsonInfo sf) =
    match TagMap (Tag sf) !! "name" with
    | Some val => val
    | None =>
        match TagMap (Tag sf) !! "json" with
        | Some val =>
            match gostrings.SplitComma val with
            | [k0] => if String.eqb k0 "-" then EmptyString else k0
            | k0 :: _ => k0
            | [] => EmptyString
            end
        | None => EmptyString
        end
    end.
Proof.
  unfold ParseStructFieldJsonInfo. cbn [Tags].
  set (info0 := mkInfo _ _ _ _ _ _ _ _).
  set (info1 := match TagMap (Tag sf) !! "json" with Some _ => _ | None => _ end).
  assert (Htags : Tags info1 = TagMap (Tag sf)).
  { assert (Hkeep : forall opts info, Tags (fold_left applyOption opts info) = Tags info).
    { apply (fold_applyOption_keeps Tags). intros info k. unfold applyOption.
      repeat (destruct (String.eqb _ _); [reflexivity|]). reflexivity. }
    subst info1. destruct (TagMap (Tag sf) !! "json") as [val|]; [|reflexivity].
    cbv zeta. destruct (gostrings.SplitComma val) as [|k0 ks].
    - destruct (Z.ltb _ _); rewrite ?Hkeep; reflexivity.
    - destruct (String.eqb k0 "-"); destruct (Z.ltb _ _); rewrite ?Hkeep; reflexivity. }
  rewrite Htags.
  assert (Hinfo1 :
    (Ignore info1 =
      match TagMap (Tag sf) !! "json" with
      | Some val =>
          match gostrings.SplitComma val with
          | [k0] => String.eqb k0 "-"
          | _ => false
          end
      | None => false
      end)
    /\ Name info1 =
      match TagMap (Tag sf) !! "json" with
      | Some val =>
          match gostrings.SplitComma val with
          | [k0] => if String.eqb k0 "-" then EmptyString else k0
          | k0 :: _ => k0
          | [] => EmptyString
          end
      | None => EmptyString
      end).
  { subst info1. destruct (TagMap (Tag sf) !! "json") as [val|]; [|split; reflexivity].
    cbv zeta. destruct (gostrings.SplitComma val) as [|k0 [|k1 ks]].
    - split; reflexivity.
    - simpl. destruct (String.eqb k0 "-"); split; reflexivity.
    - assert (Hlt : (1 <? Z.of_nat (length (k0 :: k1 :: ks))) = true)
        by (apply Z.ltb_lt; simpl; lia).
      rewrite Hlt.
      rewrite (fold_applyOption_keeps Ignore applyOption_Ignore),
        (fold_applyOption_keeps Name applyOption_Name).
      destruct (String.eqb_spec k0 "-"); subst; split; reflexivity. }
  destruct Hinfo1 as [Hi Hn].
  destruct (TagMap (Tag sf) !! "name"); cbn [Ignore Name setName];
    split; first [assumption | reflexivity].
Qed.

Lemma fetchStructFieldInfos_loop_keeps_named canSet fs infos fs' sf fv :
  fetchStructFieldInfos_loop canSet fs = Some (infos, fs') ->
  In (sf, fv) fs ->
  IsFieldExportable (reflect.Name sf) = true -> Anonymous sf = false ->
  In (ParseStructFieldJsonInfo sf) infos.
Proof.
  intros Hloop Hin Hexp Hanon.
  apply in_split in Hin as (pre & post & ->).
  rewrite fetchStructFieldInfos_loop_app in Hloop.
  destruct (fetchStructFieldInfos_loop canSet pre) as [[i1 f1]|]; [|discriminate].
  simpl in Hloop.
  rewrite fetchStructFieldInfos_loop_cons, Hexp, Hanon in Hloop.
  destruct (fetchStructFieldInfos_loop canSet post) as [[i2 f2]|]; [|discriminate].
  simpl in Hloop. injection Hloop as <- <-.
  apply in_or_app. right. left. reflexivity.
Qed.

Lemma visitInfos_never_skips canSet sf fv : visitInfos canSet sf fv <> Skips.
Proof.
  unfold visitInfos.
  destruct fv as [ty p|ty [d|]|elem [t|]|m fs]; simpl.
  - discriminate.
  - destruct d; try discriminate. destruct (negb _); discriminate.
  - discriminate.
  - destruct t as [ty p|ty [d|]|e' t'|m fs]; try discriminate.
    + destruct d; try discriminate. destruct (negb _); discriminate.
    + destruct (negb _); discriminate.
  - destruct canSet; [|discriminate].
    destruct (Zero elem) as [ty p|ty [d|]|e' t'|m fs]; try discriminate.
    + destruct d; try discriminate. destruct (negb _); discriminate.
    + destruct (negb _); discriminate.
  - destruct (negb _); discriminate.
Qed.

(** What one field adds to the schema: nothing when its name is not
    exportable; its policy when it is not embedded, or is embedded and not
    descended into; the schema of the struct it embeds otherwise. *)
Lemma fetchStructFieldInfos_loop_field canSet pre sf fv post infos fs' :
  fetchStructFieldInfos_loop canSet (pre ++ (sf, fv) :: post) = Some (infos, fs') ->
  exists infos1 pre' infos2 post',
    fetchStructFieldInfos_loop canSet pre = Some (infos1, pre')
    /\ fetchStructFieldInfos_loop canSet post = Some (infos2, post')
    /\ if IsFieldExportable (reflect.Name sf) then
         if Anonymous sf then
           match visitInfos canSet sf fv with
           | Descends canSet' n fields _ =>
               exists subInfo fields',
                 fetchStructFieldInfos_loop canSet' fields = Some (subInfo, fields')
                 /\ infos = infos1 ++ subInfo ++ infos2
           | Emits _ _ => infos = infos1 ++ ParseStructFieldJsonInfo sf :: infos2
           | Panics | Skips => False
           end
         else infos = infos1 ++ ParseStructFieldJsonInfo sf :: infos2
       else infos = infos1 ++ infos2.
Proof.
  intros Hloop. rewrite fetchStructFieldInfos_loop_app in Hloop.
  destruct (fetchStructFieldInfos_loop canSet pre) as [[i1 f1]|]; [|discriminate].
  cbn [mbind option_bind] in Hloop.
  rewrite fetchStructFieldInfos_loop_cons in Hloop.
  pose proof (visitInfos_never_skips canSet sf fv) as Hns.
  destruct (IsFieldExportable (reflect.Name sf)).
  2:{ destruct (fetchStructFieldInfos_loop canSet post) as [[i2 f2]|]; [|discriminate].
      simpl in Hloop. injection Hloop as <- <-. eexists _, _, _, _. eauto. }
  destruct (Anonymous sf).
  2:{ destruct (fetchStructFieldInfos_loop canSet post) as [[i2 f2]|]; [|discriminate].
      simpl in Hloop. injection Hloop as <- <-. eexists _, _, _, _. eauto. }
  destruct (visitInfos canSet sf fv) as [| |c n fields plug|cur field].
  - discriminate.
  - congruence.
  - destruct (fetchStructFieldInfos_loop c fields) as [[sub f0]|]; [|discriminate].
    cbn [mbind option_bind] in Hloop.
    destruct (fetchStructFieldInfos_loop canSet post) as [[i2 f2]|]; [|discriminate].
    simpl in Hloop. injection Hloop as <- <-. eexists _, _, _, _.
    split; [reflexivity|]. split; [reflexivity|]. eauto.
  - destruct (fetchStructFieldInfos_loop canSet post) as [[i2 f2]|]; [|discriminate].
    simpl in Hloop. injection Hloop as <- <-. eexists _, _, _, _. eauto.
Qed.

(** C2, as the code has it: a field whose json tag value is exactly ["-"]
    is marked [Ignore] by [ParseStructFieldJsonInfo], and schema
    computation, which never reads [Ignore], treats it as any other field.
    In every schema computed for a struct with that field: when the field
    name is exportable and the field is not embedded, or is embedded and
    not descended into, its policy is an entry of the schema; when it is
    embedded and descended into (its value, once a pointer and an interface
    are dereferenced, is a struct, and its declared type is not
    [time.Time]), the schema of the embedded struct stands in its place;
    when its name is not exportable it adds nothing.
    A field whose json tag value is ["-"] followed by further tokens is not
    marked [Ignore], and its [Name] is ["-"] unless the tag has a [name]
    key, whose value then is the [Name]. *)
Theorem C2_dash_alone_marks_ignore_and_stays_in_schema
  (sf : StructField) (val : string) :
  TagMap (Tag sf) !! "json" = Some val ->
  (val = "-" ->
     Ignore (ParseStructFieldJsonInfo sf) = true
     /\ (forall canSet fs infos fs' fv,
          fetchStructFieldInfos_loop canSet fs = Some (infos, fs') ->
          In (sf, fv) fs ->
          IsFieldExportable (reflect.Name sf) = true -> Anonymous sf = false ->
          In (ParseStructFieldJsonInfo sf) infos)
     /\ (forall canSet pre post fv infos fs',
          fetchStructFieldInfos_loop canSet (pre ++ (sf, fv) :: post)
            = Some (infos, fs') ->
          exists infos1 pre' infos2 post',
            fetchStructFieldInfos_loop canSet pre = Some (infos1, pre')
            /\ fetchStructFieldInfos_loop canSet post = Some (infos2, post')
            /\ if IsFieldExportable (reflect.Name sf) then
                 if Anonymous sf then
                   match visitInfos canSet sf fv with
                   | Descends canSet' n fields _ =>
                       exists subInfo fields',
                         fetchStructFieldInfos_loop canSet' fields
                           = Some (subInfo, fields')
                         /\ infos = infos1 ++ subInfo ++ infos2
                   | Emits _ _ =>
                       infos = infos1 ++ ParseStructFieldJsonInfo sf :: infos2
                   | Panics | Skips => False
                   end
                 else infos = infos1 ++ ParseStructFieldJsonInfo sf :: infos2
               else infos = infos1 ++ infos2))
  /\ (forall k ks,
     gostrings.SplitComma val = "-" :: k :: ks ->
     Ignore (ParseStructFieldJsonInfo sf) = false
     /\ Name (ParseStructFieldJsonInfo sf) = default "-" (TagMap (Tag sf) !! "name")).
Proof.
  intros Hjson. destruct (Parse_Ignore_Name sf) as [Hi Hn].
  rewrite Hjson in Hi, Hn. split.
  - intros ->. split; [exact Hi|]. split.
    + intros canSet fs infos fs' fv. apply fetchStructFieldInfos_loop_keeps_named.
    + intros canSet pre post fv infos fs'. apply fetchStructFieldInfos_loop_field.
  - intros k ks Hsplit. rewrite Hsplit in Hi, Hn. split; [exact Hi|].
    rewrite Hn. destruct (TagMap (Tag sf) !! "name"); reflexivity.
Qed.

End DashTag.

(** ** Types and typing *)

Lemma GoType_nested_ind (P : GoType -> Prop) :
  (forall n, P (TScalar n)) ->
  (forall n, P (TInterface n)) ->
  (forall e, P e -> P (TPtr e)) ->
  (forall n sfs, Forall (fun sf => P (Typ sf)) sfs -> P (TStruct n sfs)) ->
  forall t, P t.
Proof.
  intros Hs Hi Hp Hst. fix IH 1. intros [n|n|e|n sfs].
  - apply Hs.
  - apply Hi.
  - apply Hp, IH.
  - apply Hst. induction sfs as [|sf sfs IHsfs]; constructor; [apply IH|exact IHsfs].
Qed.

Lemma type_eqb_eq a b : type_eqb a b = true <-> a = b.
Proof.
  revert b. induction a as [n|n|e IHe|n sfs IHsfs] using GoType_nested_ind;
    intros [m|m|e'|m sfs']; simpl; try (split; [discriminate|congruence]).
  - rewrite String.eqb_eq. split; congruence.
  - rewrite String.eqb_eq. split; congruence.
  - rewrite IHe. split; congruence.
  - rewrite andb_true_iff, String.eqb_eq.
    enough (Hfields :
      (fix fields_eqb (fs gs : list (StructFieldOf GoType)) {struct fs} : bool :=
         match fs, gs with
         | [], [] => true
         | f :: fs', g :: gs' =>
             String.eqb (reflect.Name f) (reflect.Name g) && String.eqb (Tag f) (Tag g)
             && Bool.eqb (Anonymous f) (Anonymous g)
             && type_eqb (Typ f) (Typ g) && fields_eqb fs' gs'
         | _, _ => false
         end) sfs sfs' = true <-> sfs = sfs').
    { rewrite Hfields. split; [intros [-> ->]; reflexivity|intros [= -> ->]; auto]. }
    revert sfs'. induction IHsfs as [|sf sfs Hsf _ IH]; intros [|sf' sfs'];
      try (split; [discriminate|congruence]); [split; reflexivity|].
    rewrite !andb_true_iff, !String.eqb_eq, Bool.eqb_true_iff, Hsf, IH.
    destruct sf, sf'; simpl. split.
    + intros [[[[-> ->] ->] ->] ->]. reflexivity.
    + intros [= -> -> -> -> ->]. auto.
Qed.

Lemma type_eqb_refl t : type_eqb t t = true.
Proof. apply type_eqb_eq. reflexivity. Qed.

Lemma TypeOf_Zero t : TypeOf (Zero t) = t.
Proof.
  destruct t as [n|n|e|n sfs]; simpl; try reflexivity.
  f_equal. rewrite map_map. simpl. apply map_id.
Qed.

Lemma wellTyped_Zero t : wellTyped (Zero t) = true.
Proof.
  induction t as [n|n|e IHe|n sfs IHsfs] using GoType_nested_ind; simpl; try reflexivity.
  induction IHsfs as [|sf sfs Hsf _ IH]; simpl; [reflexivity|].
  rewrite TypeOf_Zero, type_eqb_refl, Hsf, IH. reflexivity.
Qed.

Lemma wellTypedFields_cons sf fv rest :
  wellTypedFields ((sf, fv) :: rest) = true <->
  TypeOf fv = Typ sf /\ wellTyped fv = true /\ wellTypedFields rest = true.
Proof.
  unfold wellTypedFields. simpl. rewrite !andb_true_iff, type_eqb_eq. tauto.
Qed.

Lemma consecutive_length index n : length (consecutive index n) = n.
Proof. revert index. induction n as [|n IH]; intros index; simpl; [|rewrite IH]; reflexivity. Qed.

Lemma consecutive_app index n m :
  consecutive index (n + m) = consecutive index n ++ consecutive (index + Z.of_nat n) m.
Proof.
  revert index. induction n as [|n IH]; intros index.
  - simpl. f_equal. lia.
  - cbn [Nat.add consecutive app]. rewrite IH. do 3 f_equal. lia.
Qed.

(** ** The schema is a function of the type, for interface-free types *)

#[local] Arguments type_eqb : simpl never.

Section TypedWalk.
Context `{Collaborators}.

Lemma typeInfos_cons n m sf sfs :
  typeInfos (TStruct n (sf :: sfs)) =
    typeInfos (TStruct m [sf]) ++ typeInfos (TStruct n sfs).
Proof. simpl. rewrite app_nil_r. reflexivity. Qed.

Lemma typeInfos_name n m sfs : typeInfos (TStruct n sfs) = typeInfos (TStruct m sfs).
Proof. reflexivity. Qed.

Lemma ifaceFree_cons n sf sfs :
  ifaceFree (TStruct n (sf :: sfs)) = true <->
  (IsFieldExportable (reflect.Name sf) = true -> Anonymous sf = true ->
   ifaceFree (Typ sf) = true)
  /\ ifaceFree (TStruct n sfs) = true.
Proof.
  simpl. rewrite andb_true_iff.
  destruct (IsFieldExportable (reflect.Name sf)), (Anonymous sf); simpl;
    intuition congruence.
Qed.

Ltac typed_fin :=
  repeat split; intros; simpl; rewrite ?map_map; simpl; rewrite ?map_id;
  try assumption; try reflexivity;
  repeat match goal with Hfst : map fst _ = _ |- _ => rewrite Hfst end;
  rewrite ?map_map; simpl; rewrite ?map_id, ?type_eqb_refl; simpl;
  try assumption; try reflexivity.

Lemma visitInfos_typed canSet m sf fv :
  IsFieldExportable (reflect.Name sf) = true -> Anonymous sf = true ->
  TypeOf fv = Typ sf -> wellTyped fv = true -> ifaceFree (Typ sf) = true ->
  match visitInfos canSet sf fv with
  | Panics => canSet = false
  | Skips => False
  | Descends c n fields plug =>
      typeInfos (TStruct m [sf]) = typeInfos (TStruct n (map fst fields))
      /\ wellTypedFields fields = true
      /\ ifaceFree (TStruct n (map fst fields)) = true
      /\ (canSet = true -> c = true)
      /\ (forall fields',
            map fst fields' = map fst fields -> wellTypedFields fields' = true ->
            TypeOf (plug (VStruct n fields')) = Typ sf
            /\ wellTyped (plug (VStruct n fields')) = true)
  | Emits _ field =>
      typeInfos (TStruct m [sf]) = [ParseStructFieldJsonInfo sf]
      /\ TypeOf field = Typ sf /\ wellTyped field = true
  end.
Proof.
  intros Hexp Hanon Hty Hwt Hif.
  assert (Hsingle : typeInfos (TStruct m [sf]) =
    match Typ sf with
    | TStruct _ _ =>
        if type_eqb (Typ sf) gotypes.TimeType
        then [ParseStructFieldJsonInfo sf] else typeInfos (Typ sf)
    | TPtr e =>
        match e with
        | TStruct _ _ => typeInfos e
        | _ => [ParseStructFieldJsonInfo sf]
        end
    | _ => [ParseStructFieldJsonInfo sf]
    end).
  { simpl. rewrite Hexp, Hanon, app_nil_r. reflexivity. }
  rewrite Hsingle. clear Hsingle. unfold visitInfos.
  destruct fv as [ty p|ty [d|]|elem [t|]|s fs]; simpl in Hty;
    rewrite <- Hty in *; simpl in Hif; try discriminate.
  - typed_fin.
  - (* pointer to a value *)
    pose proof Hwt as Hwt0.
    simpl in Hwt. apply andb_true_iff in Hwt as [Helem Hwt].
    apply type_eqb_eq in Helem. subst elem.
    destruct t as [ty p|ty [d|]|e' t'|s fs]; simpl in Hif; try discriminate;
      typed_fin.

  - (* nil pointer *)
    destruct canSet; [|reflexivity].
    destruct elem as [ty|ty|e'|s sfs]; simpl in Hif; try discriminate;
      [typed_fin..|].
    simpl. rewrite map_map. simpl. rewrite map_id.
    split; [reflexivity|]. split; [exact (wellTyped_Zero (TStruct s sfs))|].
    typed_fin.
  - (* struct by value *)
    simpl.
    destruct (type_eqb (TStruct s (map fst fs)) gotypes.TimeType) eqn:Etime;
      typed_fin.
Qed.

Lemma visitValue_write_typed canSet sf fv :
  TypeOf fv = Typ sf -> wellTyped fv = true -> ifaceFree (Typ sf) = true ->
  visitValue canSet true sf fv = visitInfos canSet sf fv.
Proof.
  intros Hty Hwt Hif. unfold visitValue, visitInfos.
  destruct fv as [ty p|ty [d|]|elem [t|]|s fs]; simpl in Hty;
    rewrite <- Hty in *; simpl in Hif; try discriminate; try reflexivity.
  - simpl in Hwt. apply andb_true_iff in Hwt as [Helem Hwt].
    apply type_eqb_eq in Helem. subst elem.
    destruct t as [ty p|ty [d|]|e' t'|s fs]; simpl in Hif; try discriminate;
      reflexivity.
  - destruct canSet; [|reflexivity].
    destruct elem as [ty|ty|e'|s sfs]; simpl in Hif; try discriminate; reflexivity.
Qed.

Lemma fetchStructFieldInfos_loop_typed fs :
  forall n canSet infos fs',
    wellTypedFields fs = true -> ifaceFree (TStruct n (map fst fs)) = true ->
    fetchStructFieldInfos_loop canSet fs = Some (infos, fs') ->
    infos = typeInfos (TStruct n (map fst fs))
    /\ map fst fs' = map fst fs /\ wellTypedFields fs' = true.
Proof.
  induction fs as [|sf fv rest IHrest IHsub] using Fields_walk_ind;
    intros n canSet infos fs' Hwt Hif Hloop.
  - simp fetchStructFieldInfos_loop in Hloop. injection Hloop as <- <-.
    repeat split.
  - apply wellTypedFields_cons in Hwt as (Hty & Hwtv & Hwtrest).
    cbn [map fst] in Hif |- *. apply ifaceFree_cons in Hif as [Hifsf Hifrest].
    rewrite (typeInfos_cons n n).
    rewrite fetchStructFieldInfos_loop_cons in Hloop.
    destruct (IsFieldExportable (reflect.Name sf)) eqn:Hexp.
    2:{ destruct (fetchStructFieldInfos_loop canSet rest) as [[i r]|] eqn:Er;
          [|discriminate].
        simpl in Hloop. injection Hloop as <- <-.
        destruct (IHrest n canSet i r Hwtrest Hifrest Er) as (-> & Hfst & Hwt').
        simpl. rewrite Hexp. cbn [map fst]. rewrite Hfst.
        repeat split. apply wellTypedFields_cons. auto. }
    destruct (Anonymous sf) eqn:Hanon.
    2:{ destruct (fetchStructFieldInfos_loop canSet rest) as [[i r]|] eqn:Er;
          [|discriminate].
        simpl in Hloop. injection Hloop as <- <-.
        destruct (IHrest n canSet i r Hwtrest Hifrest Er) as (-> & Hfst & Hwt').
        simpl. rewrite Hexp, Hanon. cbn [map fst]. rewrite Hfst.
        repeat split. apply wellTypedFields_cons. auto. }
    specialize (Hifsf eq_refl eq_refl).
    pose proof (visitInfos_typed canSet n sf fv Hexp Hanon Hty Hwtv Hifsf) as Hvisit.
    destruct (visitInfos canSet sf fv) as [| |c s fields plug|fv' field] eqn:Ev.
    + discriminate.
    + contradiction.
    + destruct Hvisit as (Hinfos & Hwtf & Hiff & _ & Hplug).
      apply visitInfos_Descends_size in Ev.
      destruct (fetchStructFieldInfos_loop c fields) as [[sub f']|] eqn:Es;
        [|discriminate].
      simpl in Hloop.
      destruct (fetchStructFieldInfos_loop canSet rest) as [[i r]|] eqn:Er;
        [|discriminate].
      simpl in Hloop. injection Hloop as <- <-.
      destruct (IHsub fields Ev s c sub f' Hwtf Hiff Es) as (-> & Hfst' & Hwt'').
      destruct (IHrest n canSet i r Hwtrest Hifrest Er) as (-> & Hfst & Hwt').
      destruct (Hplug f' Hfst' Hwt'') as [Hty' Hwtp].
      rewrite Hinfos. cbn [map fst]. rewrite Hfst.
      repeat split. apply wellTypedFields_cons. auto.
    + destruct Hvisit as (Hinfos & Hty' & Hwtp).
      destruct (fetchStructFieldInfos_loop canSet rest) as [[i r]|] eqn:Er;
        [|discriminate].
      simpl in Hloop. injection Hloop as <- <-.
      destruct (IHrest n canSet i r Hwtrest Hifrest Er) as (-> & Hfst & Hwt').
      rewrite Hinfos. cbn [map fst]. rewrite Hfst.
      repeat split. apply wellTypedFields_cons. auto.
Qed.

Lemma write_walk_typed fs :
  forall n,
    wellTypedFields fs = true -> ifaceFree (TStruct n (map fst fs)) = true ->
    exists fs',
      fetchStructFieldInfos_loop true fs
        = Some (typeInfos (TStruct n (map fst fs)), fs')
      /\ forall index, exists values,
           fetchStructFieldValueV2s_loop true true fs index
             = Some (values,
                     index + Z.of_nat (length (typeInfos (TStruct n (map fst fs)))),
                     fs')
           /\ map Index values
              = consecutive index (length (typeInfos (TStruct n (map fst fs)))).
Proof.
  induction fs as [|sf fv rest IHrest IHsub] using Fields_walk_ind;
    intros n Hwt Hif.
  - exists []. simp fetchStructFieldInfos_loop. split; [reflexivity|].
    intros index. exists []. simp fetchStructFieldValueV2s_loop. simpl.
    split; [do 3 f_equal; lia|reflexivity].
  - apply wellTypedFields_cons in Hwt as (Hty & Hwtv & Hwtrest).
    cbn [map fst] in Hif |- *. apply ifaceFree_cons in Hif as [Hifsf Hifrest].
    rewrite (typeInfos_cons n n).
    destruct (IHrest n Hwtrest Hifrest) as (rest' & Hri & Hrv).
    rewrite fetchStructFieldInfos_loop_cons.
    setoid_rewrite fetchStructFieldValueV2s_loop_cons.
    destruct (IsFieldExportable (reflect.Name sf)) eqn:Hexp.
    2:{ exists ((sf, fv) :: rest'). rewrite Hri. simpl. rewrite Hexp. simpl.
        split; [reflexivity|]. intros index.
        destruct (Hrv index) as (values & -> & Hidx). simpl.
        exists values. split; [reflexivity|exact Hidx]. }
    destruct (Anonymous sf) eqn:Hanon.
    2:{ exists ((sf, fv) :: rest'). rewrite Hri. simpl. rewrite Hexp, Hanon. simpl.
        split; [reflexivity|]. intros index.
        destruct (Hrv (index + 1)) as (values & -> & Hidx). simpl.
        eexists. split; [do 3 f_equal; lia|].
        simpl. rewrite Hidx. reflexivity. }
    specialize (Hifsf eq_refl eq_refl).
    pose proof (visitInfos_typed true n sf fv Hexp Hanon Hty Hwtv Hifsf) as Hvisit.
    rewrite (visitValue_write_typed true sf fv Hty Hwtv Hifsf).
    destruct (visitInfos true sf fv) as [| |c s fields plug|fv' field] eqn:Ev.
    + discriminate.
    + contradiction.
    + destruct Hvisit as (Hinfos & Hwtf & Hiff & Hc & Hplug).
      rewrite (Hc eq_refl) in *. clear Hc.
      apply visitInfos_Descends_size in Ev.
      destruct (IHsub fields Ev s Hwtf Hiff) as (fields' & Hsi & Hsv).
      exists ((sf, plug (VStruct s fields')) :: rest').
      rewrite Hinfos, Hsi. cbn [mbind option_bind]. rewrite Hri. cbn [mbind option_bind].
      split; [reflexivity|]. intros index.
      destruct (Hsv index) as (sub & -> & Hsidx). cbn [mbind option_bind].
      destruct (Hrv (index + Z.of_nat (length (typeInfos (TStruct s (map fst fields))))))
        as (values & -> & Hidx). cbn [mbind option_bind].
      eexists. split.
      * rewrite length_app. do 3 f_equal. lia.
      * rewrite map_app, Hsidx, Hidx, length_app, consecutive_app. reflexivity.
    + destruct Hvisit as (Hinfos & Hty' & Hwtp).
      exists ((sf, field) :: rest'). rewrite Hinfos, Hri. simpl.
      split; [reflexivity|]. intros index.
      destruct (Hrv (index + 1)) as (values & -> & Hidx). simpl.
      eexists. split; [do 3 f_equal; lia|].
      simpl. rewrite Hidx. reflexivity.
Qed.

End TypedWalk.

(** ** The indices of the entries *)

Section Indices.
Context `{Collaborators}.

Lemma increasingWithin_nil lo hi : increasingWithin lo hi [].
Proof. split; constructor. Qed.

Lemma increasingWithin_weaken lo hi lo' hi' values :
  lo' <= lo -> hi <= hi' ->
  increasingWithin lo hi values -> increasingWithin lo' hi' values.
Proof.
  intros Hlo Hhi [Hs Hw]. split; [exact Hs|].
  eapply List.Forall_impl; [|exact Hw]. simpl. intros e He. lia.
Qed.

Lemma increasingWithin_cons lo hi e values :
  lo <= Index e -> Index e < hi ->
  increasingWithin (Index e + 1) hi values ->
  increasingWithin lo hi (e :: values).
Proof.
  intros Hlo Hhi [Hs Hw]. split.
  - simpl. constructor; [exact Hs|].
    apply List.Forall_map. eapply List.Forall_impl; [|exact Hw]. simpl. intros x Hx. lia.
  - constructor; [lia|]. eapply List.Forall_impl; [|exact Hw]. simpl. intros x Hx. lia.
Qed.

Lemma increasingWithin_app lo mid hi values1 values2 :
  lo <= mid -> mid <= hi ->
  increasingWithin lo mid values1 -> increasingWithin mid hi values2 ->
  increasingWithin lo hi (values1 ++ values2).
Proof.
  intros Hlo Hhi [Hs1 Hw1] [Hs2 Hw2]. split.
  - rewrite map_app. induction values1 as [|e values1 IH]; simpl; [exact Hs2|].
    inversion Hs1 as [|? ? Hs1' Hlt]; subst. inversion Hw1 as [|? ? He Hw1']; subst.
    constructor; [apply IH; assumption|].
    apply Forall_app. split; [exact Hlt|].
    apply List.Forall_map. eapply List.Forall_impl; [|exact Hw2]. simpl. intros x Hx. lia.
  - apply Forall_app. split.
    + eapply List.Forall_impl; [|exact Hw1]. simpl. intros x Hx. lia.
    + eapply List.Forall_impl; [|exact Hw2]. simpl. intros x Hx. lia.
Qed.

Lemma fetchStructFieldValueV2s_loop_increasing fs :
  forall canSet allocatePtr index ret index' fs',
    fetchStructFieldValueV2s_loop canSet allocatePtr fs index = Some (ret, index', fs') ->
    index <= index' /\ increasingWithin index index' ret.
Proof.
  induction fs as [|sf fv rest IHrest IHsub] using Fields_walk_ind;
    intros canSet allocatePtr index ret index' fs' Hloop.
  - simp fetchStructFieldValueV2s_loop in Hloop. injection Hloop as <- <- <-.
    split; [lia|apply increasingWithin_nil].
  - rewrite fetchStructFieldValueV2s_loop_cons in Hloop.
    destruct (IsFieldExportable (reflect.Name sf)).
    2:{ destruct (fetchStructFieldValueV2s_loop _ _ rest index) as [[[r i] f]|] eqn:Er;
          [|discriminate].
        simpl in Hloop. injection Hloop as <- <- <-. eapply IHrest, Er. }
    destruct (Anonymous sf).
    2:{ destruct (fetchStructFieldValueV2s_loop _ _ rest (index + 1))
          as [[[r i] f]|] eqn:Er; [|discriminate].
        simpl in Hloop. injection Hloop as <- <- <-.
        apply IHrest in Er as [Hle Hinc]. split; [lia|].
        apply increasingWithin_cons; simpl; try lia. exact Hinc. }
    destruct (visitValue canSet allocatePtr sf fv) as [| |c n fields plug|fv' field] eqn:Ev.
    + discriminate.
    + destruct (fetchStructFieldValueV2s_loop _ _ rest (index + 1))
        as [[[r i] f]|] eqn:Er; [|discriminate].
      simpl in Hloop. injection Hloop as <- <- <-.
      apply IHrest in Er as [Hle Hinc]. split; [lia|].
      eapply increasingWithin_weaken; [| |exact Hinc]; lia.
    + apply visitValue_Descends_size in Ev.
      destruct (fetchStructFieldValueV2s_loop c _ fields index)
        as [[[sub i1] f1]|] eqn:Es; [|discriminate].
      simpl in Hloop.
      destruct (fetchStructFieldValueV2s_loop _ _ rest i1)
        as [[[r i] f]|] eqn:Er; [|discriminate].
      simpl in Hloop. injection Hloop as <- <- <-.
      apply (IHsub fields Ev) in Es as [Hle1 Hinc1].
      apply IHrest in Er as [Hle2 Hinc2]. split; [lia|].
      eapply increasingWithin_app; eassumption.
    + destruct (fetchStructFieldValueV2s_loop _ _ rest (index + 1))
        as [[[r i] f]|] eqn:Er; [|discriminate].
      simpl in Hloop. injection Hloop as <- <- <-.
      apply IHrest in Er as [Hle Hinc]. split; [lia|].
      apply increasingWithin_cons; simpl; try lia. exact Hinc.
Qed.

(** C8, as the code has it.  For a record type with no interface among its
    composed fields (the exported anonymous fields the walkers follow), the
    flattened schema is the same whichever well-typed instance of the type
    computes it: it is [typeInfos] of the type.  For every instance, in
    either mode, the indices of the entries [fetchStructFieldValueV2s]
    returns are strictly increasing, and they lie between the counter the
    walk started from and the counter it ended with. *)
Theorem C8_schema_of_interface_free_type_and_increasing_indices :
  (forall canSet1 canSet2 dataValue1 dataValue2 infos1 infos2 left1 left2,
     wellTyped dataValue1 = true -> wellTyped dataValue2 = true ->
     TypeOf dataValue1 = TypeOf dataValue2 ->
     ifaceFree (TypeOf dataValue1) = true ->
     fetchStructFieldInfos canSet1 dataValue1 = Some (infos1, left1) ->
     fetchStructFieldInfos canSet2 dataValue2 = Some (infos2, left2) ->
     infos1 = typeInfos (TypeOf dataValue1) /\ infos2 = infos1)
  /\ (forall canSet dataValue allocatePtr index ret index' left,
     fetchStructFieldValueV2s canSet dataValue allocatePtr index
       = Some (ret, index', left) ->
     StronglySorted Z.lt (map Index ret)
     /\ Forall (fun e => index <= Index e < index') ret).
Proof.
  split.
  - intros canSet1 canSet2 v1 v2 infos1 infos2 left1 left2 Hwt1 Hwt2 Hty Hif H1 H2.
    assert (Hone : forall canSet v infos left,
      wellTyped v = true -> ifaceFree (TypeOf v) = true ->
      fetchStructFieldInfos canSet v = Some (infos, left) ->
      infos = typeInfos (TypeOf v)).
    { intros canSet v infos left Hwt Hifv Hf.
      destruct v as [| | |n fs]; try discriminate. simpl in Hf.
      destruct (fetchStructFieldInfos_loop canSet fs) as [[i f]|] eqn:E; [|discriminate].
      simpl in Hf. injection Hf as <- <-.
      apply (fetchStructFieldInfos_loop_typed fs n canSet i f Hwt Hifv E). }
    split; [eapply Hone; eassumption|].
    rewrite (Hone canSet1 v1 infos1 left1 Hwt1 Hif H1).
    rewrite Hty in Hif |- *. eapply Hone; eassumption.
  - intros canSet v allocatePtr index ret index' left Hf.
    destruct v as [| | |n fs]; try discriminate. unfold fetchStructFieldValueV2s in Hf.
    destruct (fetchStructFieldValueV2s_loop canSet allocatePtr fs index)
      as [[[r i] f]|] eqn:E; [|discriminate].
    simpl in Hf. injection Hf as <- <- <-.
    apply fetchStructFieldValueV2s_loop_increasing in E as [_ Hinc]. exact Hinc.
Qed.

End Indices.

(** ** The cache, write mode and the seeding of the schema *)

Section CacheAndWrite.
Context `{Collaborators}.

Lemma Load_cons k v c t :
  Load ((k, v) :: c) t = if type_eqb k t then Some v else Load c t.
Proof. unfold Load. simpl. destruct (type_eqb k t); reflexivity. Qed.

Lemma cacheSound_nil : cacheSound [].
Proof. intros t infos Hload. discriminate. Qed.

Lemma cacheSound_store c canSet dataValue infos dataValue' :
  cacheSound c -> wellTyped dataValue = true ->
  fetchStructFieldInfos canSet dataValue = Some (infos, dataValue') ->
  cacheSound ((TypeOf dataValue, infos) :: c).
Proof.
  intros Hc Hwt Hf t infos' Hload. rewrite Load_cons in Hload.
  destruct (type_eqb (TypeOf dataValue) t) eqn:E.
  - apply type_eqb_eq in E. injection Hload as <-. subst t.
    exists canSet, dataValue, dataValue'. auto.
  - apply Hc, Hload.
Qed.

Lemma cacheSound_schema c n sfs infos :
  cacheSound c -> ifaceFree (TStruct n sfs) = true ->
  Load c (TStruct n sfs) = Some infos ->
  infos = typeInfos (TStruct n sfs).
Proof.
  intros Hc Hif Hload.
  destruct (Hc _ _ Hload) as (canSet & v & v' & Hwt & Hty & Hf).
  destruct v as [| | |n0 fs0]; try discriminate. simpl in Hty, Hf.
  injection Hty as -> Hfst.
  destruct (fetchStructFieldInfos_loop canSet fs0) as [[i f]|] eqn:E; [|discriminate].
  simpl in Hf. injection Hf as <- <-.
  rewrite <- Hfst in Hif |- *.
  apply (fetchStructFieldInfos_loop_typed fs0 n canSet i f Hwt Hif E).
Qed.

Lemma fetchStructFieldInfos_loop_fields canSet fs :
  forall infos fs',
    fetchStructFieldInfos_loop canSet fs = Some (infos, fs') ->
    map fst fs' = map fst fs.
Proof.
  induction fs as [|[sf fv] rest IH]; intros infos fs' Hloop.
  - simp fetchStructFieldInfos_loop in Hloop. injection Hloop as <- <-. reflexivity.
  - rewrite fetchStructFieldInfos_loop_cons in Hloop.
    assert (Hrest : forall (k : list SStructFieldInfo * Fields -> option (list SStructFieldInfo * Fields)),
      (forall i r, exists i' fv', k (i, r) = Some (i', (sf, fv') :: r)) ->
      (fetchStructFieldInfos_loop canSet rest ≫= k) = Some (infos, fs') ->
      map fst fs' = map fst ((sf, fv) :: rest)).
    { intros k Hk Hb.
      destruct (fetchStructFieldInfos_loop canSet rest) as [[i r]|] eqn:Er; [|discriminate].
      simpl in Hb. destruct (Hk i r) as (i' & fv' & Hki). rewrite Hki in Hb.
      injection Hb as <- <-. simpl. f_equal. eapply IH. reflexivity. }
    destruct (IsFieldExportable (reflect.Name sf)).
    2:{ eapply Hrest; [|exact Hloop]. intros i r. simpl. eauto. }
    destruct (Anonymous sf).
    2:{ eapply Hrest; [|exact Hloop]. intros i r. simpl. eauto. }
    destruct (visitInfos canSet sf fv) as [| |c n fields plug|fv' field].
    + discriminate.
    + eapply Hrest; [|exact Hloop]. intros i r. simpl. eauto.
    + destruct (fetchStructFieldInfos_loop c fields) as [[sub f1]|]; [|discriminate].
      simpl in Hloop. eapply Hrest; [|exact Hloop]. intros i r. simpl. eauto.
    + eapply Hrest; [|exact Hloop]. intros i r. simpl. eauto.
Qed.

Lemma fetchStructFieldValueV2s_loop_fields canSet allocatePtr fs :
  forall index ret index' fs',
    fetchStructFieldValueV2s_loop canSet allocatePtr fs index = Some (ret, index', fs') ->
    map fst fs' = map fst fs.
Proof.
  induction fs as [|[sf fv] rest IH]; intros index ret index' fs' Hloop.
  - simp fetchStructFieldValueV2s_loop in Hloop. injection Hloop as <- <- <-. reflexivity.
  - rewrite fetchStructFieldValueV2s_loop_cons in Hloop.
    assert (Hrest : forall idx
      (k : list SStructFieldValueV2 * Z * Fields -> option (list SStructFieldValueV2 * Z * Fields)),
      (forall i j r, exists i' j' fv', k (i, j, r) = Some (i', j', (sf, fv') :: r)) ->
      (fetchStructFieldValueV2s_loop canSet allocatePtr rest idx ≫= k) = Some (ret, index', fs') ->
      map fst fs' = map fst ((sf, fv) :: rest)).
    { intros idx k Hk Hb.
      destruct (fetchStructFieldValueV2s_loop canSet allocatePtr rest idx)
        as [[[i j] r]|] eqn:Er; [|discriminate].
      simpl in Hb. destruct (Hk i j r) as (i' & j' & fv' & Hki). rewrite Hki in Hb.
      injection Hb as <- <- <-. simpl. f_equal. eapply IH. exact Er. }
    destruct (IsFieldExportable (reflect.Name sf)).
    2:{ eapply Hrest; [|exact Hloop]. intros i j r. simpl. eauto. }
    destruct (Anonymous sf).
    2:{ eapply Hrest; [|exact Hloop]. intros i j r. simpl. eauto. }
    destruct (visitValue canSet allocatePtr sf fv) as [| |c n fields plug|fv' field].
    + discriminate.
    + eapply Hrest; [|exact Hloop]. intros i j r. simpl. eauto.
    + destruct (fetchStructFieldValueV2s_loop c _ fields index) as [[[sub i1] f1]|];
        [|discriminate].
      simpl in Hloop. eapply Hrest; [|exact Hloop]. intros i j r. simpl. eauto.
    + eapply Hrest; [|exact Hloop]. intros i j r. simpl. eauto.
Qed.

End CacheAndWrite.

(** ** Nil pointers under the allocating walks *)

Section Allocation.
Context `{Collaborators}.

Lemma visitInfos_nil_ptr sf elem :
  visitInfos true sf (VPtr elem None) = visitInfos true sf (VPtr elem (Some (Zero elem))).
Proof. reflexivity. Qed.

Lemma visitValue_nil_ptr sf elem :
  visitValue true true sf (VPtr elem None)
  = visitValue true true sf (VPtr elem (Some (Zero elem))).
Proof. reflexivity. Qed.

Lemma visitInfos_ptr_plug canSet sf elem t :
  match visitInfos canSet sf (VPtr elem (Some t)) with
  | Panics | Skips => False
  | Descends _ _ _ plug => forall s, exists t', plug s = VPtr elem (Some t')
  | Emits _ field => field = VPtr elem (Some t)
  end.
Proof.
  unfold visitInfos.
  destruct t as [ty p|ty [d|]|e' t'|s fs]; simpl; try reflexivity.
  - destruct d; try reflexivity. destruct (negb _); [|reflexivity]. eauto.
  - destruct (negb _); [|reflexivity]. eauto.
Qed.

Lemma visitValue_ptr_plug canSet allocatePtr sf elem t :
  match visitValue canSet allocatePtr sf (VPtr elem (Some t)) with
  | Panics | Skips => False
  | Descends _ _ _ plug => forall s, exists t', plug s = VPtr elem (Some t')
  | Emits _ field => field = VPtr elem (Some t)
  end.
Proof.
  unfold visitValue.
  destruct t as [ty p|ty [d|]|e' t'|s fs]; simpl; try reflexivity.
  destruct (negb _); [|reflexivity]. eauto.
Qed.

Lemma fetchStructFieldInfos_loop_head_ptr canSet sf elem t rest infos fs' :
  fetchStructFieldInfos_loop canSet ((sf, VPtr elem (Some t)) :: rest) = Some (infos, fs') ->
  exists t' rest', fs' = (sf, VPtr elem (Some t')) :: rest'.
Proof.
  rewrite fetchStructFieldInfos_loop_cons. intros Hloop.
  pose proof (visitInfos_ptr_plug canSet sf elem t) as Hplug.
  destruct (IsFieldExportable _); [destruct (Anonymous sf);
    [destruct (visitInfos canSet sf (VPtr elem (Some t))) as [| |c n fields plug|fv' field];
       [contradiction|contradiction| |]|]|].
  - destruct (fetchStructFieldInfos_loop c fields) as [[sub f1]|]; [|discriminate].
    simpl in Hloop.
    destruct (fetchStructFieldInfos_loop canSet rest) as [[i r]|]; [|discriminate].
    simpl in Hloop. injection Hloop as <- <-.
    destruct (Hplug (VStruct n f1)) as [t' ->]. eauto.
  - destruct (fetchStructFieldInfos_loop canSet rest) as [[i r]|]; [|discriminate].
    simpl in Hloop. injection Hloop as <- <-. subst field. eauto.
  - destruct (fetchStructFieldInfos_loop canSet rest) as [[i r]|]; [|discriminate].
    simpl in Hloop. injection Hloop as <- <-. eauto.
  - destruct (fetchStructFieldInfos_loop canSet rest) as [[i r]|]; [|discriminate].
    simpl in Hloop. injection Hloop as <- <-. eauto.
Qed.

Lemma fetchStructFieldValueV2s_loop_head_ptr canSet allocatePtr sf elem t rest index
  ret index' fs' :
  fetchStructFieldValueV2s_loop canSet allocatePtr ((sf, VPtr elem (Some t)) :: rest) index
    = Some (ret, index', fs') ->
  exists t' rest', fs' = (sf, VPtr elem (Some t')) :: rest'.
Proof.
  rewrite fetchStructFieldValueV2s_loop_cons. intros Hloop.
  pose proof (visitValue_ptr_plug canSet allocatePtr sf elem t) as Hplug.
  destruct (IsFieldExportable _); [destruct (Anonymous sf);
    [destruct (visitValue canSet allocatePtr sf (VPtr elem (Some t)))
       as [| |c n fields plug|fv' field];
       [contradiction|contradiction| |]|]|].
  - destruct (fetchStructFieldValueV2s_loop c _ fields index) as [[[sub i1] f1]|];
      [|discriminate].
    simpl in Hloop.
    destruct (fetchStructFieldValueV2s_loop canSet _ rest i1) as [[[r i] f]|];
      [|discriminate].
    simpl in Hloop. injection Hloop as <- <- <-.
    destruct (Hplug (VStruct n f1)) as [t' ->]. eauto.
  - destruct (fetchStructFieldValueV2s_loop canSet _ rest (index + 1)) as [[[r i] f]|];
      [|discriminate].
    simpl in Hloop. injection Hloop as <- <- <-. subst field. eauto.
  - destruct (fetchStructFieldValueV2s_loop canSet _ rest (index + 1)) as [[[r i] f]|];
      [|discriminate].
    simpl in Hloop. injection Hloop as <- <- <-. eauto.
  - destruct (fetchStructFieldValueV2s_loop canSet _ rest index) as [[[r i] f]|];
      [|discriminate].
    simpl in Hloop. injection Hloop as <- <- <-. eauto.
Qed.

(** Under an allocating walk of an addressable struct, an exported
    anonymous nil pointer is walked as the pointer to the zero value of its
    element type, and the walk leaves it pointing to a value. *)
Lemma fetchStructFieldInfos_loop_nil_ptr pre sf elem post :
  IsFieldExportable (reflect.Name sf) = true -> Anonymous sf = true ->
  fetchStructFieldInfos_loop true (pre ++ (sf, VPtr elem None) :: post)
  = fetchStructFieldInfos_loop true (pre ++ (sf, VPtr elem (Some (Zero elem))) :: post)
  /\ forall infos fs',
       fetchStructFieldInfos_loop true (pre ++ (sf, VPtr elem None) :: post)
         = Some (infos, fs') ->
       exists pre' t post',
         fs' = pre' ++ (sf, VPtr elem (Some t)) :: post' /\ length pre' = length pre.
Proof.
  intros Hexp Hanon.
  assert (Heq :
    fetchStructFieldInfos_loop true (pre ++ (sf, VPtr elem None) :: post)
    = fetchStructFieldInfos_loop true (pre ++ (sf, VPtr elem (Some (Zero elem))) :: post)).
  { rewrite !fetchStructFieldInfos_loop_app, !fetchStructFieldInfos_loop_cons,
      Hexp, Hanon, visitInfos_nil_ptr.
    pose proof (visitInfos_ptr_plug true sf elem (Zero elem)) as Hplug.
    destruct (visitInfos true sf (VPtr elem (Some (Zero elem))));
      try contradiction; reflexivity. }
  split; [exact Heq|]. rewrite Heq. clear Heq. intros infos fs' Hloop.
  rewrite fetchStructFieldInfos_loop_app in Hloop.
  destruct (fetchStructFieldInfos_loop true pre) as [[i1 pre']|] eqn:Epre; [|discriminate].
  simpl in Hloop.
  destruct (fetchStructFieldInfos_loop true (_ :: post)) as [[i2 tl]|] eqn:Etl;
    [|discriminate].
  simpl in Hloop. injection Hloop as <- <-.
  apply fetchStructFieldInfos_loop_head_ptr in Etl as (t' & post' & ->).
  apply fetchStructFieldInfos_loop_fields in Epre.
  exists pre', t', post'. split; [reflexivity|].
  apply (f_equal (@length _)) in Epre. rewrite !List.length_map in Epre. exact Epre.
Qed.

Lemma fetchStructFieldValueV2s_loop_nil_ptr pre sf elem post index :
  IsFieldExportable (reflect.Name sf) = true -> Anonymous sf = true ->
  fetchStructFieldValueV2s_loop true true (pre ++ (sf, VPtr elem None) :: post) index
  = fetchStructFieldValueV2s_loop true true
      (pre ++ (sf, VPtr elem (Some (Zero elem))) :: post) index
  /\ forall ret index' fs',
       fetchStructFieldValueV2s_loop true true (pre ++ (sf, VPtr elem None) :: post) index
         = Some (ret, index', fs') ->
       exists pre' t post',
         fs' = pre' ++ (sf, VPtr elem (Some t)) :: post' /\ length pre' = length pre.
Proof.
  intros Hexp Hanon.
  assert (Heq :
    fetchStructFieldValueV2s_loop true true (pre ++ (sf, VPtr elem None) :: post) index
    = fetchStructFieldValueV2s_loop true true
        (pre ++ (sf, VPtr elem (Some (Zero elem))) :: post) index).
  { rewrite !fetchStructFieldValueV2s_loop_app.
    destruct (fetchStructFieldValueV2s_loop true true pre index) as [[[r1 i1] f1]|];
      [|reflexivity].
    simpl. rewrite !fetchStructFieldValueV2s_loop_cons, Hexp, Hanon, visitValue_nil_ptr.
    pose proof (visitValue_ptr_plug true true sf elem (Zero elem)) as Hplug.
    destruct (visitValue true true sf (VPtr elem (Some (Zero elem))));
      try contradiction; reflexivity. }
  split; [exact Heq|]. rewrite Heq. clear Heq. intros ret index' fs' Hloop.
  rewrite fetchStructFieldValueV2s_loop_app in Hloop.
  destruct (fetchStructFieldValueV2s_loop true true pre index) as [[[r1 i1] pre']|] eqn:Epre;
    [|discriminate].
  simpl in Hloop.
  destruct (fetchStructFieldValueV2s_loop true true (_ :: post) i1) as [[[r2 i2] tl]|] eqn:Etl;
    [|discriminate].
  simpl in Hloop. injection Hloop as <- <- <-.
  apply fetchStructFieldValueV2s_loop_head_ptr in Etl as (t' & post' & ->).
  apply fetchStructFieldValueV2s_loop_fields in Epre.
  exists pre', t', post'. split; [reflexivity|].
  apply (f_equal (@length _)) in Epre. rewrite !List.length_map in Epre. exact Epre.
Qed.

End Allocation.

(** ** Write mode fills the schema; schema computation writes *)

Section WriteAndSeed.
Context `{Collaborators}.

Lemma FetchStructFieldValueSetForWriteV2_typed cache n fields :
  cacheSound cache ->
  wellTyped (VStruct n fields) = true ->
  ifaceFree (TypeOf (VStruct n fields)) = true ->
  exists set cache' left,
    FetchStructFieldValueSetForWriteV2 cache true (VStruct n fields)
      = Some (set, cache', left)
    /\ Infos set = typeInfos (TypeOf (VStruct n fields))
    /\ length (Values set) = length (Infos set)
    /\ map Index (Values set) = consecutive 0 (length (Infos set))
    /\ cacheSound cache'.
Proof.
  intros Hc Hwt Hif.
  assert (Hlen : forall (values : list SStructFieldValueV2) k,
            map Index values = consecutive 0 k -> length values = k).
  { intros values k Hm. apply (f_equal (@length _)) in Hm.
    rewrite List.length_map, consecutive_length in Hm. exact Hm. }
  unfold FetchStructFieldValueSetForWriteV2, cachefetchStructFieldInfos.
  cbn [TypeOf] in *.
  destruct (Load cache (TStruct n (map fst fields))) as [r|] eqn:El.
  - pose proof (cacheSound_schema cache n (map fst fields) r Hc Hif El) as ->.
    cbn [mbind option_bind]. unfold fetchStructFieldValueV2s.
    destruct (write_walk_typed fields n Hwt Hif) as (fs' & _ & Hv).
    destruct (Hv 0) as (values & -> & Hidx). cbn [mbind option_bind].
    eexists _, _, _. split; [reflexivity|]. cbn [Infos Values].
    repeat split; auto.
  - unfold fetchStructFieldInfos.
    destruct (write_walk_typed fields n Hwt Hif) as (fs' & Hi & _).
    rewrite Hi. cbn [mbind option_bind].
    unfold LoadOrStore. rewrite El.
    destruct (fetchStructFieldInfos_loop_typed fields n true _ fs' Hwt Hif Hi)
      as (_ & Hfst & Hwt').
    cbn [mbind option_bind]. unfold fetchStructFieldValueV2s.
    assert (Hif' : ifaceFree (TStruct n (map fst fs')) = true) by (rewrite Hfst; exact Hif).
    destruct (write_walk_typed fs' n Hwt' Hif') as (fs'' & _ & Hv).
    destruct (Hv 0) as (values & -> & Hidx). cbn [mbind option_bind].
    rewrite Hfst in Hidx.
    eexists _, _, _. split; [reflexivity|]. cbn [Infos Values].
    repeat split; auto.
    apply (cacheSound_store cache true (VStruct n fields) _ (VStruct n fs')); auto.
    unfold fetchStructFieldInfos. rewrite Hi. reflexivity.
Qed.

(** C3, as the code has it.  In write mode, on an addressable instance, an
    exported anonymous nil pointer is set to point to the zero value of its
    element type and walked as if it had held it, and it is left pointing
    to a value.  A nil anonymous interface is never allocated: in write
    mode too it is skipped with one reserved slot.  When the type of a
    well-typed instance has no interface among its composed fields,
    [FetchStructFieldValueSetForWriteV2] returns as many entries in
    [Values] as the schema [Infos] of the type has, the entry at position
    [i] carrying index [i]. *)
Theorem C3_write_mode_allocates_pointers_and_fills_schema :
  (forall pre sf elem post index,
     IsFieldExportable (reflect.Name sf) = true -> Anonymous sf = true ->
     fetchStructFieldValueV2s_loop true true (pre ++ (sf, VPtr elem None) :: post) index
     = fetchStructFieldValueV2s_loop true true
         (pre ++ (sf, VPtr elem (Some (Zero elem))) :: post) index
     /\ forall ret index' fs',
          fetchStructFieldValueV2s_loop true true
            (pre ++ (sf, VPtr elem None) :: post) index = Some (ret, index', fs') ->
          exists pre' t post',
            fs' = pre' ++ (sf, VPtr elem (Some t)) :: post'
            /\ length pre' = length pre)
  /\ (forall canSet sf ty rest index,
     IsFieldExportable (reflect.Name sf) = true -> Anonymous sf = true ->
     fetchStructFieldValueV2s_loop canSet true ((sf, VInterface ty None) :: rest) index
     = '(ret, index', rest') ←
         fetchStructFieldValueV2s_loop canSet true rest (index + 1);
       Some (ret, index', (sf, VInterface ty None) :: rest'))
  /\ (forall cache n fields,
     cacheSound cache ->
     wellTyped (VStruct n fields) = true ->
     ifaceFree (TypeOf (VStruct n fields)) = true ->
     exists set cache' left,
       FetchStructFieldValueSetForWriteV2 cache true (VStruct n fields)
         = Some (set, cache', left)
       /\ Infos set = typeInfos (TypeOf (VStruct n fields))
       /\ length (Values set) = length (Infos set)
       /\ map Index (Values set) = consecutive 0 (length (Infos set))
       /\ cacheSound cache').
Proof.
  split; [|split].
  - intros pre sf elem post index. apply fetchStructFieldValueV2s_loop_nil_ptr.
  - intros canSet sf ty rest index Hexp Hanon.
    rewrite fetchStructFieldValueV2s_loop_cons, Hexp, Hanon. reflexivity.
  - apply FetchStructFieldValueSetForWriteV2_typed.
Qed.

(** C9: computing the schema from an addressable instance sets every
    exported anonymous nil pointer it meets: the walk of
    [pre ++ field :: post] with the field nil is the walk with the field
    pointing to the zero value of its element type, and the instance it
    leaves has the field pointing to a value.  This reaches the caller
    through the read-mode entry point: on the first use of the type (no
    schema in the cache) [FetchStructFieldValueSetV2] leaves the instance
    with the field set, although it walks the values with
    [allocatePtr = false]; it returns whenever the instance is well typed
    and its type has no interface among its composed fields. *)
Theorem C9_schema_computation_sets_nil_pointers
  (n : string) (pre post : Fields) (sf : StructField) (elem : GoType) :
  IsFieldExportable (reflect.Name sf) = true ->
  Anonymous sf = true ->
  (fetchStructFieldInfos_loop true (pre ++ (sf, VPtr elem None) :: post)
   = fetchStructFieldInfos_loop true (pre ++ (sf, VPtr elem (Some (Zero elem))) :: post))
  /\ (forall infos left,
      fetchStructFieldInfos true (VStruct n (pre ++ (sf, VPtr elem None) :: post))
        = Some (infos, left) ->
      exists pre' t post',
        left = VStruct n (pre' ++ (sf, VPtr elem (Some t)) :: post')
        /\ length pre' = length pre)
  /\ (forall cache set cache' left,
      Load cache (TypeOf (VStruct n (pre ++ (sf, VPtr elem None) :: post))) = None ->
      FetchStructFieldValueSetV2 cache true
        (VStruct n (pre ++ (sf, VPtr elem None) :: post)) = Some (set, cache', left) ->
      exists pre' t post',
        left = VStruct n (pre' ++ (sf, VPtr elem (Some t)) :: post')
        /\ length pre' = length pre)
  /\ (forall cache,
      wellTyped (VStruct n (pre ++ (sf, VPtr elem None) :: post)) = true ->
      ifaceFree (TypeOf (VStruct n (pre ++ (sf, VPtr elem None) :: post))) = true ->
      exists set cache' left,
        FetchStructFieldValueSetV2 cache true
          (VStruct n (pre ++ (sf, VPtr elem None) :: post)) = Some (set, cache', left)).
Proof.
  intros Hexp Hanon.
  destruct (fetchStructFieldInfos_loop_nil_ptr pre sf elem post Hexp Hanon) as [Heq Hset].
  split; [exact Heq|]. split; [|split].
  - intros infos left Hf. unfold fetchStructFieldInfos in Hf.
    destruct (fetchStructFieldInfos_loop true _) as [[i f]|] eqn:E; [|discriminate].
    simpl in Hf. injection Hf as <- <-.
    destruct (Hset i f eq_refl) as (pre' & t & post' & -> & Hlen). eauto.
  - intros cache set cache' left Hload Hf.
    unfold FetchStructFieldValueSetV2, cachefetchStructFieldInfos in Hf.
    rewrite Hload in Hf. unfold fetchStructFieldInfos in Hf.
    destruct (fetchStructFieldInfos_loop true _) as [[i f]|] eqn:E; [|discriminate].
    cbn [mbind option_bind] in Hf.
    destruct (LoadOrStore cache _ i) as [r c']. cbn [mbind option_bind] in Hf.
    unfold fetchStructFieldValueV2s in Hf.
    destruct (fetchStructFieldValueV2s_loop_read f true 0) as (ret & index' & Hread).
    rewrite Hread in Hf. cbn [mbind option_bind] in Hf. injection Hf as <- <- <-.
    destruct (Hset i f eq_refl) as (pre' & t & post' & -> & Hlen). eauto.
  - intros cache Hwt Hif.
    unfold FetchStructFieldValueSetV2, cachefetchStructFieldInfos.
    destruct (Load cache _) as [r|].
    + cbn [mbind option_bind]. unfold fetchStructFieldValueV2s.
      destruct (fetchStructFieldValueV2s_loop_read
                  (pre ++ (sf, VPtr elem None) :: post) true 0)
        as (ret & index' & ->).
      cbn [mbind option_bind]. eauto.
    + unfold fetchStructFieldInfos.
      destruct (write_walk_typed _ n Hwt Hif) as (fs' & -> & _).
      cbn [mbind option_bind].
      destruct (LoadOrStore cache _ _) as [r c']. cbn [mbind option_bind].
      unfold fetchStructFieldValueV2s.
      destruct (fetchStructFieldValueV2s_loop_read fs' true 0) as (ret & index' & ->).
      cbn [mbind option_bind]. eauto.
Qed.

End WriteAndSeed.

(** ** Looking up a value whose schema index has no entry *)

Section SparseLookup.
Context `{Collaborators}.

Lemma getStructFieldIndex_scan_range values index (k : nat) :
  (k <= length values)%nat ->
  exists r, SStructFieldValueSetV2.getStructFieldIndex_scan values index k = Some r
            /\ (r = index \/ 0 <= r < Z.of_nat k).
Proof.
  induction k as [|k IH]; intros Hk; simpl.
  - eauto.
  - destruct (values !! k) as [e|] eqn:E.
    + simpl. destruct (Index e =? index).
      * eexists. split; [reflexivity|]. right. lia.
      * destruct (IH ltac:(lia)) as (r & -> & Hr). eexists. split; [reflexivity|]. lia.
    + apply lookup_ge_None in E. lia.
Qed.

(** Whenever the name resolves in the schema and [Values] is not empty,
    [getStructFieldIndex] returns a position of [Values] and [GetValue]
    reports the value there as found, whether or not an entry carries the
    schema index. *)
Lemma GetValue_found_when_name_resolves set name :
  0 <= firstMatch (Infos set) name -> Values set <> [] ->
  exists idx e,
    SStructFieldValueSetV2.getStructFieldIndex set name = Some idx
    /\ Values set !! Z.to_nat idx = Some e
    /\ SStructFieldValueSetV2.GetValue set name = Some (ValueV2 e, true).
Proof.
  intros Hres Hne.
  unfold SStructFieldValueSetV2.GetValue, SStructFieldValueSetV2.getStructFieldIndex.
  rewrite getStructFieldIndex_infos_0.
  destruct (Z.ltb_spec (firstMatch (Infos set) name) 0) as [Hlt|_]; [lia|].
  assert (Hlen : (0 < length (Values set))%nat).
  { destruct (Values set); [congruence|simpl; lia]. }
  set (index := if firstMatch (Infos set) name >=? Z.of_nat (length (Values set))
                then Z.of_nat (length (Values set)) - 1
                else firstMatch (Infos set) name).
  assert (Hidx : 0 <= index < Z.of_nat (length (Values set))).
  { subst index. destruct (Z.geb_spec (firstMatch (Infos set) name)
                             (Z.of_nat (length (Values set)))); lia. }
  destruct (getStructFieldIndex_scan_range (Values set) index (Z.to_nat (index + 1))
              ltac:(lia)) as (r & Hscan & Hr).
  rewrite Hscan. cbn [mbind option_bind].
  assert (Hr' : 0 <= r < Z.of_nat (length (Values set))) by lia.
  destruct (Z.ltb_spec r 0) as [Hneg|_]; [lia|].
  destruct (lookup_lt_is_Some_2 (Values set) (Z.to_nat r) ltac:(lia)) as [e He].
  exists r, e. rewrite He. auto.
Qed.

End SparseLookup.

(** * Further properties of the walkers *)

(** ** Walking again the instance a walk left *)

Section WalkAgain.
Context `{Collaborators}.

Lemma visitInfos_again canSet sf fv :
  match visitInfos canSet sf fv with
  | Panics => True
  | Skips => False
  | Descends _ n fields plug =>
      forall canSet' fields', exists c,
        visitInfos canSet' sf (plug (VStruct n fields')) = Descends c n fields' plug
  | Emits _ field =>
      forall canSet', exists cur, visitInfos canSet' sf field = Emits cur field
  end.
Proof.
  unfold visitInfos.
  destruct fv as [ty p|ty [d|]|elem [t|]|s fs]; simpl.
  - eauto.
  - destruct d as [ty' p|ty' [d'|]|e' t'|s fs]; simpl; eauto.
    destruct (negb _) eqn:E; simpl; intros; rewrite ?E; eauto.
  - eauto.
  - destruct t as [ty p|ty [d|]|e' t'|s fs]; simpl; eauto.
    + destruct d as [ty' p|ty' [d'|]|e' t'|s fs]; simpl; eauto.
      destruct (negb _) eqn:E; simpl; intros; rewrite ?E; eauto.
    + destruct (negb _) eqn:E; simpl; intros; rewrite ?E; eauto.
  - destruct canSet; [|exact I].
    destruct (Zero elem) as [ty p|ty [d|]|e' t'|s fs]; simpl; eauto.
    + destruct d as [ty' p|ty' [d'|]|e' t'|s fs]; simpl; eauto.
      destruct (negb _) eqn:E; simpl; intros; rewrite ?E; eauto.
    + destruct (negb _) eqn:E; simpl; intros; rewrite ?E; eauto.
  - destruct (negb _) eqn:E; simpl; intros; rewrite ?E; eauto.
Qed.

Lemma fetchStructFieldInfos_loop_again fs :
  forall canSet infos left,
    fetchStructFieldInfos_loop canSet fs = Some (infos, left) ->
    forall canSet', fetchStructFieldInfos_loop canSet' left = Some (infos, left).
Proof.
  induction fs as [|sf fv rest IHrest IHsub] using Fields_walk_ind;
    intros canSet infos left Hloop canSet'.
  - simp fetchStructFieldInfos_loop in Hloop. injection Hloop as <- <-.
    simp fetchStructFieldInfos_loop. reflexivity.
  - rewrite fetchStructFieldInfos_loop_cons in Hloop.
    destruct (IsFieldExportable (reflect.Name sf)) eqn:Hexp.
    2:{ destruct (fetchStructFieldInfos_loop canSet rest) as [[i r]|] eqn:Er;
          [|discriminate].
        simpl in Hloop. injection Hloop as <- <-.
        rewrite fetchStructFieldInfos_loop_cons, Hexp, (IHrest _ _ _ Er canSet').
        reflexivity. }
    destruct (Anonymous sf) eqn:Hanon.
    2:{ destruct (fetchStructFieldInfos_loop canSet rest) as [[i r]|] eqn:Er;
          [|discriminate].
        simpl in Hloop. injection Hloop as <- <-.
        rewrite fetchStructFieldInfos_loop_cons, Hexp, Hanon, (IHrest _ _ _ Er canSet').
        reflexivity. }
    pose proof (visitInfos_again canSet sf fv) as Hagain.
    destruct (visitInfos canSet sf fv) as [| |c n fields plug|cur field] eqn:Ev.
    + discriminate.
    + contradiction.
    + apply visitInfos_Descends_size in Ev.
      destruct (fetchStructFieldInfos_loop c fields) as [[sub f1]|] eqn:Es;
        [|discriminate].
      simpl in Hloop.
      destruct (fetchStructFieldInfos_loop canSet rest) as [[i r]|] eqn:Er;
        [|discriminate].
      simpl in Hloop. injection Hloop as <- <-.
      destruct (Hagain canSet' f1) as [c' Hv].
      rewrite fetchStructFieldInfos_loop_cons, Hexp, Hanon, Hv,
        (IHsub fields Ev _ _ _ Es c'), (IHrest _ _ _ Er canSet').
      reflexivity.
    + destruct (fetchStructFieldInfos_loop canSet rest) as [[i r]|] eqn:Er;
        [|discriminate].
      simpl in Hloop. injection Hloop as <- <-.
      destruct (Hagain canSet') as [cur' Hv].
      rewrite fetchStructFieldInfos_loop_cons, Hexp, Hanon, Hv, (IHrest _ _ _ Er canSet').
      reflexivity.
Qed.

Lemma visitValue_again canSet sf fv :
  match visitValue canSet true sf fv with
  | Panics => True
  | Skips => forall canSet' allocatePtr', visitValue canSet' allocatePtr' sf fv = Skips
  | Descends _ n fields plug =>
      forall canSet' allocatePtr' fields', exists c,
        visitValue canSet' allocatePtr' sf (plug (VStruct n fields'))
        = Descends c n fields' plug
  | Emits cur field =>
      forall canSet' allocatePtr',
        visitValue canSet' allocatePtr' sf field = Emits cur field
  end.
Proof.
  unfold visitValue.
  destruct fv as [ty p|ty [d|]|elem [t|]|s fs]; simpl.
  - eauto.
  - destruct d as [ty' p|ty' [d'|]|e' t'|s fs]; simpl; eauto.
    destruct (negb _) eqn:E; simpl; intros; rewrite ?E; eauto.
  - eauto.
  - destruct t as [ty p|ty [d|]|e' t'|s fs]; simpl; eauto.
    destruct (negb _) eqn:E; simpl; intros; rewrite ?E; eauto.
  - destruct canSet; [|exact I].
    destruct (Zero elem) as [ty p|ty [d|]|e' t'|s fs]; simpl; eauto.
    destruct (negb _) eqn:E; simpl; intros; rewrite ?E; eauto.
  - destruct (negb _) eqn:E; simpl; intros; rewrite ?E; eauto.
Qed.

Lemma fetchStructFieldValueV2s_loop_again fs :
  forall canSet index ret index' left,
    fetchStructFieldValueV2s_loop canSet true fs index = Some (ret, index', left) ->
    forall canSet' allocatePtr',
      fetchStructFieldValueV2s_loop canSet' allocatePtr' left index
      = Some (ret, index', left).
Proof.
  induction fs as [|sf fv rest IHrest IHsub] using Fields_walk_ind;
    intros canSet index ret index' left Hloop canSet' allocatePtr'.
  - simp fetchStructFieldValueV2s_loop in Hloop. injection Hloop as <- <- <-.
    simp fetchStructFieldValueV2s_loop. reflexivity.
  - rewrite fetchStructFieldValueV2s_loop_cons in Hloop.
    destruct (IsFieldExportable (reflect.Name sf)) eqn:Hexp.
    2:{ destruct (fetchStructFieldValueV2s_loop canSet true rest index)
          as [[[r i] f]|] eqn:Er; [|discriminate].
        simpl in Hloop. injection Hloop as <- <- <-.
        rewrite fetchStructFieldValueV2s_loop_cons, Hexp,
          (IHrest _ _ _ _ _ Er canSet' allocatePtr').
        reflexivity. }
    destruct (Anonymous sf) eqn:Hanon.
    2:{ destruct (fetchStructFieldValueV2s_loop canSet true rest (index + 1))
          as [[[r i] f]|] eqn:Er; [|discriminate].
        simpl in Hloop. injection Hloop as <- <- <-.
        rewrite fetchStructFieldValueV2s_loop_cons, Hexp, Hanon,
          (IHrest _ _ _ _ _ Er canSet' allocatePtr').
        reflexivity. }
    pose proof (visitValue_again canSet sf fv) as Hagain.
    destruct (visitValue canSet true sf fv) as [| |c n fields plug|cur field] eqn:Ev.
    + discriminate.
    + destruct (fetchStructFieldValueV2s_loop canSet true rest (index + 1))
        as [[[r i] f]|] eqn:Er; [|discriminate].
      simpl in Hloop. injection Hloop as <- <- <-.
      rewrite fetchStructFieldValueV2s_loop_cons, Hexp, Hanon, Hagain,
        (IHrest _ _ _ _ _ Er canSet' allocatePtr').
      reflexivity.
    + apply visitValue_Descends_size in Ev.
      destruct (fetchStructFieldValueV2s_loop c true fields index)
        as [[[sub i1] f1]|] eqn:Es; [|discriminate].
      simpl in Hloop.
      destruct (fetchStructFieldValueV2s_loop canSet true rest i1)
        as [[[r i] f]|] eqn:Er; [|discriminate].
      simpl in Hloop. injection Hloop as <- <- <-.
      destruct (Hagain canSet' allocatePtr' f1) as [c' Hv].
      rewrite fetchStructFieldValueV2s_loop_cons, Hexp, Hanon, Hv,
        (IHsub fields Ev _ _ _ _ _ Es c' allocatePtr'). cbn [mbind option_bind].
      rewrite (IHrest _ _ _ _ _ Er canSet' allocatePtr').
      reflexivity.
    + destruct (fetchStructFieldValueV2s_loop canSet true rest (index + 1))
        as [[[r i] f]|] eqn:Er; [|discriminate].
      simpl in Hloop. injection Hloop as <- <- <-.
      rewrite fetchStructFieldValueV2s_loop_cons, Hexp, Hanon, Hagain,
        (IHrest _ _ _ _ _ Er canSet' allocatePtr').
      reflexivity.
Qed.

(** X1: computing the schema twice.  When [fetchStructFieldInfos] has
    returned a schema and left an instance, computing the schema from the
    instance it left, addressable or not, returns the same schema and
    writes nothing: every pointer the walk needs is already set. *)
Theorem X1_schema_computation_is_idempotent
  (canSet canSet' : bool) (dataValue left : Value) (infos : list SStructFieldInfo) :
  fetchStructFieldInfos canSet dataValue = Some (infos, left) ->
  fetchStructFieldInfos canSet' left = Some (infos, left).
Proof.
  intros Hf. destruct dataValue as [| | |n fs]; try discriminate. simpl in Hf.
  destruct (fetchStructFieldInfos_loop canSet fs) as [[i f]|] eqn:E; [|discriminate].
  simpl in Hf. injection Hf as <- <-. simpl.
  rewrite (fetchStructFieldInfos_loop_again fs canSet i f E canSet'). reflexivity.
Qed.

(** X2: walking the values after a write-mode walk.  When
    [fetchStructFieldValueV2s] with [allocatePtr = true] has returned, a
    second walk of the instance it left, from the same counter, in either
    mode and on an addressable value or not, returns the same entries and
    the same counter and leaves the instance as it is. *)
Theorem X2_value_walk_after_write_mode_is_stable
  (canSet canSet' allocatePtr' : bool) (dataValue left : Value) (index index' : Z)
  (ret : list SStructFieldValueV2) :
  fetchStructFieldValueV2s canSet dataValue true index = Some (ret, index', left) ->
  fetchStructFieldValueV2s canSet' left allocatePtr' index = Some (ret, index', left).
Proof.
  intros Hf. destruct dataValue as [| | |n fs]; try discriminate.
  unfold fetchStructFieldValueV2s in Hf.
  destruct (fetchStructFieldValueV2s_loop canSet true fs index) as [[[r i] f]|] eqn:E;
    [|discriminate].
  simpl in Hf. injection Hf as <- <- <-. unfold fetchStructFieldValueV2s.
  rewrite (fetchStructFieldValueV2s_loop_again fs canSet index r i f E canSet' allocatePtr').
  reflexivity.
Qed.

End WalkAgain.

(** ** The two value walkers side by side *)

Section Siblings.
Context `{Collaborators}.

Lemma value_walkers_agree_loop fs :
  forall canSet allocatePtr index,
    (fun '(ret, _, inst) => (map ValueV2 ret, inst))
      <$> fetchStructFieldValueV2s_loop canSet allocatePtr fs index
    = (fun '(set, inst) => (map Value_ set, inst))
      <$> fetchStructFieldValueSet_loop canSet allocatePtr fs.
Proof.
  induction fs as [|sf fv rest IHrest IHsub] using Fields_walk_ind;
    intros canSet allocatePtr index.
  - simp fetchStructFieldValueV2s_loop fetchStructFieldValueSet_loop. reflexivity.
  - rewrite fetchStructFieldValueV2s_loop_cons, fetchStructFieldValueSet_loop_cons.
    assert (Hrest : forall idx,
      match fetchStructFieldValueV2s_loop canSet allocatePtr rest idx,
            fetchStructFieldValueSet_loop canSet allocatePtr rest with
      | Some (r, _, f), Some (s, f') => map ValueV2 r = map Value_ s /\ f = f'
      | None, None => True
      | _, _ => False
      end).
    { intros idx. specialize (IHrest canSet allocatePtr idx).
      destruct (fetchStructFieldValueV2s_loop canSet allocatePtr rest idx)
        as [[[r i] f]|];
      destruct (fetchStructFieldValueSet_loop canSet allocatePtr rest) as [[s f']|];
        simpl in IHrest; try discriminate; [|exact I].
      injection IHrest as -> ->. auto. }
    destruct (IsFieldExportable (reflect.Name sf)).
    2:{ specialize (Hrest index).
        destruct (fetchStructFieldValueV2s_loop canSet allocatePtr rest index)
          as [[[r i] f]|];
        destruct (fetchStructFieldValueSet_loop canSet allocatePtr rest) as [[s f']|];
          try contradiction; [|reflexivity].
        destruct Hrest as [Hm ->]. simpl. rewrite Hm. reflexivity. }
    destruct (Anonymous sf).
    2:{ specialize (Hrest (index + 1)).
        destruct (fetchStructFieldValueV2s_loop canSet allocatePtr rest (index + 1))
          as [[[r i] f]|];
        destruct (fetchStructFieldValueSet_loop canSet allocatePtr rest) as [[s f']|];
          try contradiction; [|reflexivity].
        destruct Hrest as [Hm ->]. simpl. rewrite Hm. reflexivity. }
    destruct (visitValue canSet allocatePtr sf fv) as [| |c n fields plug|cur field] eqn:Ev.
    + reflexivity.
    + specialize (Hrest (index + 1)).
      destruct (fetchStructFieldValueV2s_loop canSet allocatePtr rest (index + 1))
        as [[[r i] f]|];
      destruct (fetchStructFieldValueSet_loop canSet allocatePtr rest) as [[s f']|];
        try contradiction; [|reflexivity].
      destruct Hrest as [Hm ->]. simpl. rewrite Hm. reflexivity.
    + apply visitValue_Descends_size in Ev.
      specialize (IHsub fields Ev c allocatePtr index).
      destruct (fetchStructFieldValueV2s_loop c allocatePtr fields index)
        as [[[sub i1] f1]|];
      destruct (fetchStructFieldValueSet_loop c allocatePtr fields) as [[ssub f1']|];
        simpl in IHsub; try discriminate; [|reflexivity].
      injection IHsub as Hsub ->. cbn [mbind option_bind].
      specialize (Hrest i1).
      destruct (fetchStructFieldValueV2s_loop canSet allocatePtr rest i1)
        as [[[r i] f]|];
      destruct (fetchStructFieldValueSet_loop canSet allocatePtr rest) as [[s f']|];
        try contradiction; [|reflexivity].
      destruct Hrest as [Hm ->]. simpl. rewrite !map_app, Hsub, Hm. reflexivity.
    + specialize (Hrest (index + 1)).
      destruct (fetchStructFieldValueV2s_loop canSet allocatePtr rest (index + 1))
        as [[[r i] f]|];
      destruct (fetchStructFieldValueSet_loop canSet allocatePtr rest) as [[s f']|];
        try contradiction; [|reflexivity].
      destruct Hrest as [Hm ->]. simpl. rewrite Hm. reflexivity.
Qed.

(** X3: the two value walkers are the same walk.  On every instance, in
    either mode and from any counter, [fetchStructFieldValueSet] and
    [fetchStructFieldValueV2s] panic together or return together, and then
    they return the same values in the same order and leave the same
    instance; they differ in what they attach to a value (the policy, or
    the schema index). *)
Theorem X3_value_walkers_agree
  (canSet allocatePtr : bool) (dataValue : Value) (index : Z) :
  (fun '(ret, _, inst) => (map ValueV2 ret, inst))
    <$> fetchStructFieldValueV2s canSet dataValue allocatePtr index
  = (fun '(set, inst) => (map Value_ set, inst))
    <$> fetchStructFieldValueSet canSet dataValue allocatePtr.
Proof.
  destruct dataValue as [| | |n fs]; try reflexivity.
  unfold fetchStructFieldValueV2s, fetchStructFieldValueSet.
  pose proof (value_walkers_agree_loop fs canSet allocatePtr index) as Hloop.
  destruct (fetchStructFieldValueV2s_loop canSet allocatePtr fs index) as [[[r i] f]|];
  destruct (fetchStructFieldValueSet_loop canSet allocatePtr fs) as [[s f']|];
    simpl in Hloop; try discriminate; [|reflexivity].
  injection Hloop as Hm ->. simpl. rewrite Hm. reflexivity.
Qed.

End Siblings.

(** ** What the walks keep, and when they panic *)

Section Frames.
Context `{Collaborators}.

Lemma fetchStructFieldValueSet_loop_fields canSet allocatePtr fs :
  forall ret fs',
    fetchStructFieldValueSet_loop canSet allocatePtr fs = Some (ret, fs') ->
    map fst fs' = map fst fs.
Proof.
  intros ret fs' Hloop.
  pose proof (value_walkers_agree_loop fs canSet allocatePtr 0) as Hagree.
  rewrite Hloop in Hagree.
  destruct (fetchStructFieldValueV2s_loop canSet allocatePtr fs 0) as [[[r i] f]|] eqn:E;
    [|discriminate].
  simpl in Hagree. injection Hagree as _ ->.
  eapply fetchStructFieldValueV2s_loop_fields, E.
Qed.

(** X4: the walks keep the type of the instance.  Whatever
    [fetchStructFieldInfos], [fetchStructFieldValueV2s] and
    [fetchStructFieldValueSet] write, the instance they leave has the type
    of the instance they were given, so it has the same key in the schema
    cache. *)
Theorem X4_walks_keep_the_type (canSet allocatePtr : bool) (dataValue : Value) :
  (forall infos inst,
     fetchStructFieldInfos canSet dataValue = Some (infos, inst) ->
     TypeOf inst = TypeOf dataValue)
  /\ (forall index ret index' inst,
     fetchStructFieldValueV2s canSet dataValue allocatePtr index
       = Some (ret, index', inst) ->
     TypeOf inst = TypeOf dataValue)
  /\ (forall set inst,
     fetchStructFieldValueSet canSet dataValue allocatePtr = Some (set, inst) ->
     TypeOf inst = TypeOf dataValue).
Proof.
  destruct dataValue as [| | |n fs]; try (repeat split; intros; discriminate).
  split; [|split].
  - intros infos inst Hf. simpl in Hf.
    destruct (fetchStructFieldInfos_loop canSet fs) as [[i f]|] eqn:E; [|discriminate].
    simpl in Hf. injection Hf as <- <-. simpl.
    rewrite (fetchStructFieldInfos_loop_fields canSet fs i f E). reflexivity.
  - intros index ret index' inst Hf. unfold fetchStructFieldValueV2s in Hf.
    destruct (fetchStructFieldValueV2s_loop canSet allocatePtr fs index)
      as [[[r i] f]|] eqn:E; [|discriminate].
    simpl in Hf. injection Hf as <- <- <-. simpl.
    rewrite (fetchStructFieldValueV2s_loop_fields canSet allocatePtr fs index r i f E).
    reflexivity.
  - intros set inst Hf. unfold fetchStructFieldValueSet in Hf.
    destruct (fetchStructFieldValueSet_loop canSet allocatePtr fs) as [[r f]|] eqn:E;
      [|discriminate].
    simpl in Hf. injection Hf as <- <-. simpl.
    rewrite (fetchStructFieldValueSet_loop_fields canSet allocatePtr fs r f E).
    reflexivity.
Qed.

Lemma fetchStructFieldInfos_loop_unaddressable pre sf elem post :
  IsFieldExportable (reflect.Name sf) = true -> Anonymous sf = true ->
  fetchStructFieldInfos_loop false (pre ++ (sf, VPtr elem None) :: post) = None.
Proof.
  intros Hexp Hanon. rewrite fetchStructFieldInfos_loop_app.
  destruct (fetchStructFieldInfos_loop false pre) as [[i f]|]; [|reflexivity].
  cbn [mbind option_bind].
  rewrite fetchStructFieldInfos_loop_cons, Hexp, Hanon. reflexivity.
Qed.

Lemma fetchStructFieldValueV2s_loop_unaddressable pre sf elem post index :
  IsFieldExportable (reflect.Name sf) = true -> Anonymous sf = true ->
  fetchStructFieldValueV2s_loop false true (pre ++ (sf, VPtr elem None) :: post) index
  = None.
Proof.
  intros Hexp Hanon. rewrite fetchStructFieldValueV2s_loop_app.
  destruct (fetchStructFieldValueV2s_loop false true pre index) as [[[r i] f]|];
    [|reflexivity].
  cbn [mbind option_bind].
  rewrite fetchStructFieldValueV2s_loop_cons, Hexp, Hanon. reflexivity.
Qed.

(** X5: an instance that cannot be set.  Let a struct value that is not
    addressable have an exported anonymous nil pointer among its fields.
    Computing its schema panics ([fv.Set] on a value that cannot be set),
    and so do write-mode extraction and, on the first use of the type (no
    schema in the cache), the read-mode entry point
    [FetchStructFieldValueSetV2].  Once the cache holds a schema for the
    type, [FetchStructFieldValueSetV2] returns on the same value, with the
    cached schema, and leaves cache and instance as they are. *)
Theorem X5_unaddressable_instance_with_nil_pointer
  (n : string) (pre post : Fields) (sf : StructField) (elem : GoType) (cache : Cache) :
  IsFieldExportable (reflect.Name sf) = true ->
  Anonymous sf = true ->
  let dataValue := VStruct n (pre ++ (sf, VPtr elem None) :: post) in
  fetchStructFieldInfos false dataValue = None
  /\ (forall index, fetchStructFieldValueV2s false dataValue true index = None)
  /\ FetchStructFieldValueSetForWrite false dataValue = None
  /\ FetchStructFieldValueSetForWriteV2 cache false dataValue = None
  /\ (Load cache (TypeOf dataValue) = None ->
      FetchStructFieldValueSetV2 cache false dataValue = None)
  /\ (forall r, Load cache (TypeOf dataValue) = Some r ->
      exists values,
        FetchStructFieldValueSetV2 cache false dataValue
        = Some (mkSetV2 r values, cache, dataValue)).
Proof.
  intros Hexp Hanon dataValue. subst dataValue.
  assert (Hinfos : fetchStructFieldInfos false
                     (VStruct n (pre ++ (sf, VPtr elem None) :: post)) = None).
  { unfold fetchStructFieldInfos.
    rewrite fetchStructFieldInfos_loop_unaddressable by assumption. reflexivity. }
  assert (Hwrite : forall index,
            fetchStructFieldValueV2s false
              (VStruct n (pre ++ (sf, VPtr elem None) :: post)) true index = None).
  { intros index. unfold fetchStructFieldValueV2s.
    rewrite fetchStructFieldValueV2s_loop_unaddressable by assumption. reflexivity. }
  split; [exact Hinfos|]. split; [exact Hwrite|]. split; [|split; [|split]].
  - pose proof (X := value_walkers_agree_loop
                       (pre ++ (sf, VPtr elem None) :: post) false true 0).
    rewrite fetchStructFieldValueV2s_loop_unaddressable in X by assumption.
    unfold FetchStructFieldValueSetForWrite, fetchStructFieldValueSet.
    destruct (fetchStructFieldValueSet_loop false true _) as [[s f]|];
      [discriminate|reflexivity].
  - unfold FetchStructFieldValueSetForWriteV2, cachefetchStructFieldInfos.
    destruct (Load cache _) as [r|].
    + cbn [mbind option_bind]. rewrite Hwrite. reflexivity.
    + rewrite Hinfos. reflexivity.
  - intros Hload. unfold FetchStructFieldValueSetV2, cachefetchStructFieldInfos.
    rewrite Hload, Hinfos. reflexivity.
  - intros r Hload. unfold FetchStructFieldValueSetV2, cachefetchStructFieldInfos.
    rewrite Hload. cbn [mbind option_bind]. unfold fetchStructFieldValueV2s.
    destruct (fetchStructFieldValueV2s_loop_read
                (pre ++ (sf, VPtr elem None) :: post) false 0) as (ret & index' & ->).
    cbn [mbind option_bind]. eauto.
Qed.

End Frames.

(** ** The schema cache *)

Section CacheFacts.
Context `{Collaborators}.

Lemma type_eqb_neq a b : a <> b -> type_eqb a b = false.
Proof.
  intros Hne. destruct (type_eqb a b) eqn:E; [|reflexivity].
  apply type_eqb_eq in E. contradiction.
Qed.

(** X6: store and look up.  After [cachefetchStructFieldInfos] has returned
    a schema for an instance, the cache holds that schema under the type of
    the instance and holds what it held under every other type; and every
    later call on a value of the same type returns the same schema, without
    changing the cache and without touching the value, whatever the value
    holds and whether or not it can be set. *)
Theorem X6_cache_stores_then_serves
  (cache cache' : Cache) (canSet : bool) (dataValue inst : Value)
  (infos : list SStructFieldInfo) :
  cachefetchStructFieldInfos cache canSet dataValue = Some (infos, cache', inst) ->
  Load cache' (TypeOf dataValue) = Some infos
  /\ (forall t, t <> TypeOf dataValue -> Load cache' t = Load cache t)
  /\ (forall canSet2 dataValue2,
        TypeOf dataValue2 = TypeOf dataValue ->
        cachefetchStructFieldInfos cache' canSet2 dataValue2
        = Some (infos, cache', dataValue2)).
Proof.
  intros Hf. unfold cachefetchStructFieldInfos in Hf.
  assert (Hserve : Load cache' (TypeOf dataValue) = Some infos ->
    forall canSet2 dataValue2,
      TypeOf dataValue2 = TypeOf dataValue ->
      cachefetchStructFieldInfos cache' canSet2 dataValue2
      = Some (infos, cache', dataValue2)).
  { intros Hl canSet2 dataValue2 Hty. unfold cachefetchStructFieldInfos.
    rewrite Hty, Hl. reflexivity. }
  destruct (Load cache (TypeOf dataValue)) as [r|] eqn:El.
  - injection Hf as <- <- <-. auto.
  - destruct (fetchStructFieldInfos canSet dataValue) as [[i v]|]; [|discriminate].
    cbn [mbind option_bind] in Hf. unfold LoadOrStore in Hf. rewrite El in Hf.
    injection Hf as <- <- <-.
    assert (Hl : Load ((TypeOf dataValue, i) :: cache) (TypeOf dataValue) = Some i).
    { rewrite Load_cons, type_eqb_refl. reflexivity. }
    split; [exact Hl|]. split; [|exact (Hserve Hl)].
    intros t Hne. rewrite Load_cons, type_eqb_neq by congruence. reflexivity.
Qed.

End CacheFacts.

(** ** What the walks emit *)

Section Emitted.
Context `{Collaborators}.

Lemma Parse_FieldName sf :
  FieldName (ParseStructFieldJsonInfo sf) = reflect.Name sf.
Proof.
  assert (Hkeep : forall opts info,
            FieldName (fold_left applyOption opts info) = FieldName info).
  { apply (fold_applyOption_keeps FieldName). intros info k. unfold applyOption.
    repeat (destruct (String.eqb _ _); [reflexivity|]). reflexivity. }
  unfold ParseStructFieldJsonInfo. cbn [Tags].
  set (info0 := mkInfo _ _ _ _ _ _ _ _).
  set (info1 := match TagMap (Tag sf) !! "json" with Some _ => _ | None => _ end).
  assert (H1 : FieldName info1 = reflect.Name sf).
  { subst info1. destruct (TagMap (Tag sf) !! "json") as [val|]; [|reflexivity].
    cbv zeta. destruct (gostrings.SplitComma val) as [|k0 ks].
    - destruct (Z.ltb _ _); rewrite ?Hkeep; reflexivity.
    - destruct (String.eqb k0 "-"); destruct (Z.ltb _ _); rewrite ?Hkeep; reflexivity. }
  destruct (Tags info1 !! "name"); exact H1.
Qed.

Lemma visitValue_Emits_valid canSet allocatePtr sf fv cur field :
  visitValue canSet allocatePtr sf fv = Emits cur field -> is_Some cur.
Proof.
  unfold visitValue.
  destruct fv as [ty p|ty [d|]|elem [t|]|s fs]; simpl.
  - intros [= <- _]. eauto.
  - destruct d; try (intros [= <- _]; eauto).
    destruct (negb _); [discriminate|]. intros [= <- _]. eauto.
  - discriminate.
  - destruct t; try (intros [= <- _]; eauto).
    destruct (negb _); [discriminate|]. intros [= <- _]. eauto.
  - destruct allocatePtr; [|discriminate]. destruct canSet; [|discriminate].
    destruct (Zero elem); try (intros [= <- _]; eauto).
    destruct (negb _); [discriminate|]. intros [= <- _]. eauto.
  - destruct (negb _); [discriminate|]. intros [= <- _]. eauto.
Qed.

Lemma fetchStructFieldValueV2s_loop_valid fs :
  forall canSet allocatePtr index ret index' inst,
    fetchStructFieldValueV2s_loop canSet allocatePtr fs index = Some (ret, index', inst) ->
    Forall (fun e => is_Some (ValueV2 e)) ret.
Proof.
  induction fs as [|sf fv rest IHrest IHsub] using Fields_walk_ind;
    intros canSet allocatePtr index ret index' inst Hloop.
  - simp fetchStructFieldValueV2s_loop in Hloop. injection Hloop as <- <- <-. constructor.
  - rewrite fetchStructFieldValueV2s_loop_cons in Hloop.
    destruct (IsFieldExportable (reflect.Name sf)).
    2:{ destruct (fetchStructFieldValueV2s_loop _ _ rest index) as [[[r i] f]|] eqn:Er;
          [|discriminate].
        simpl in Hloop. injection Hloop as <- <- <-. eapply IHrest, Er. }
    destruct (Anonymous sf).
    2:{ destruct (fetchStructFieldValueV2s_loop _ _ rest (index + 1))
          as [[[r i] f]|] eqn:Er; [|discriminate].
        simpl in Hloop. injection Hloop as <- <- <-.
        constructor; [simpl; eauto|]. eapply IHrest, Er. }
    destruct (visitValue canSet allocatePtr sf fv) as [| |c n fields plug|cur field] eqn:Ev.
    + discriminate.
    + destruct (fetchStructFieldValueV2s_loop _ _ rest (index + 1))
        as [[[r i] f]|] eqn:Er; [|discriminate].
      simpl in Hloop. injection Hloop as <- <- <-. eapply IHrest, Er.
    + apply visitValue_Descends_size in Ev.
      destruct (fetchStructFieldValueV2s_loop c _ fields index)
        as [[[sub i1] f1]|] eqn:Es; [|discriminate].
      simpl in Hloop.
      destruct (fetchStructFieldValueV2s_loop _ _ rest i1)
        as [[[r i] f]|] eqn:Er; [|discriminate].
      simpl in Hloop. injection Hloop as <- <- <-.
      apply Forall_app. split; [eapply (IHsub fields Ev), Es|eapply IHrest, Er].
    + apply visitValue_Emits_valid in Ev.
      destruct (fetchStructFieldValueV2s_loop _ _ rest (index + 1))
        as [[[r i] f]|] eqn:Er; [|discriminate].
      simpl in Hloop. injection Hloop as <- <- <-.
      constructor; [exact Ev|]. eapply IHrest, Er.
Qed.

End Emitted.

(** ** Looking values up *)

Section Lookups.
Context `{Collaborators}.

Lemma StronglySorted_lookup_lt (l : list Z) (i j : nat) x y :
  StronglySorted Z.lt l -> (i < j)%nat -> l !! i = Some x -> l !! j = Some y -> x < y.
Proof.
  intros Hs. revert i j. induction Hs as [|a l Hs IH Hall]; intros i j Hij Hi Hj.
  - discriminate.
  - destruct j as [|j]; [lia|]. simpl in Hj. destruct i as [|i]; simpl in Hi.
    + injection Hi as <-. rewrite List.Forall_forall in Hall. apply Hall.
      apply list_elem_of_In. eapply list_elem_of_lookup_2, Hj.
    + apply (IH i j); [lia|assumption..].
Qed.

Lemma increasingWithin_position lo hi values (i : nat) e :
  increasingWithin lo hi values -> values !! i = Some e -> lo + Z.of_nat i <= Index e.
Proof.
  intros [Hs Hw]. revert lo i Hw. induction values as [|a values IH]; intros lo i Hw Hi.
  - discriminate.
  - inversion Hs as [|? ? Hs' Hlt]; subst. inversion Hw as [|? ? Ha Hw']; subst.
    destruct i as [|i]; simpl in Hi.
    + injection Hi as <-. lia.
    + assert (Hw1 : Forall (fun e => lo + 1 <= Index e < hi) values).
      { rewrite List.Forall_forall in *. intros x Hx.
        specialize (Hw' x Hx). specialize (Hlt (Index x) (in_map Index _ _ Hx)). lia. }
      specialize (IH Hs' (lo + 1) i Hw1 Hi). lia.
Qed.

Lemma getStructFieldIndex_scan_finds values index (p k : nat) e :
  StronglySorted Z.lt (map Index values) ->
  values !! p = Some e -> Index e = index ->
  (p <= k)%nat -> (k < length values)%nat ->
  SStructFieldValueSetV2.getStructFieldIndex_scan values index (S k) = Some (Z.of_nat p).
Proof.
  intros Hs Hp He Hpk. induction k as [|k IH]; intros Hk.
  - assert (p = 0%nat) as -> by lia. simpl. rewrite Hp. simpl.
    rewrite He, Z.eqb_refl. reflexivity.
  - destruct (Nat.eq_dec p (S k)) as [->|Hne].
    + cbn [SStructFieldValueSetV2.getStructFieldIndex_scan]. rewrite Hp.
      cbn [mbind option_bind]. rewrite He, Z.eqb_refl. reflexivity.
    + destruct (lookup_lt_is_Some_2 values (S k) Hk) as [e' He'].
      assert (Hlt : Index e < Index e').
      { apply (StronglySorted_lookup_lt (map Index values) p (S k)); [assumption|lia| |].
        - rewrite list_lookup_fmap, Hp. reflexivity.
        - rewrite list_lookup_fmap, He'. reflexivity. }
      change (SStructFieldValueSetV2.getStructFieldIndex_scan values index (S (S k)))
        with (e0 ← values !! S k;
              if Index e0 =? index then Some (Z.of_nat (S k))
              else SStructFieldValueSetV2.getStructFieldIndex_scan values index (S k)).
      rewrite He'. cbn [mbind option_bind].
      destruct (Z.eqb_spec (Index e') index); [lia|].
      apply IH; lia.
Qed.

Lemma getStructFieldIndex_scan_misses values index (k : nat) :
  Forall (fun e => Index e <> index) values ->
  (k <= length values)%nat ->
  SStructFieldValueSetV2.getStructFieldIndex_scan values index k = Some index.
Proof.
  intros Hno. induction k as [|k IH]; intros Hk; simpl; [reflexivity|].
  destruct (lookup_lt_is_Some_2 values k ltac:(lia)) as [e He]. rewrite He. simpl.
  assert (Hne : Index e <> index).
  { rewrite List.Forall_forall in Hno. apply Hno.
    apply list_elem_of_In. eapply list_elem_of_lookup_2, He. }
  destruct (Z.eqb_spec (Index e) index); [contradiction|].
  apply IH. lia.
Qed.

Lemma getStructFieldIndex_clamped set name :
  0 <= firstMatch (Infos set) name ->
  SStructFieldValueSetV2.getStructFieldIndex set name =
    let k := Z.min (firstMatch (Infos set) name) (Z.of_nat (length (Values set)) - 1) in
    SStructFieldValueSetV2.getStructFieldIndex_scan (Values set) k (Z.to_nat (k + 1)).
Proof.
  intros Hres. unfold SStructFieldValueSetV2.getStructFieldIndex.
  rewrite getStructFieldIndex_infos_0.
  destruct (Z.ltb_spec (firstMatch (Infos set) name) 0) as [|_]; [lia|].
  cbv zeta.
  destruct (Z.geb_spec (firstMatch (Infos set) name) (Z.of_nat (length (Values set)))).
  - rewrite Z.min_r by lia. reflexivity.
  - rewrite Z.min_l by lia. reflexivity.
Qed.

(** X8: what the lookup returns on the entries of a value walk that
    started from counter 0 (either mode), with any schema in which the name
    resolves.  Let [k] be the schema position the name resolves to, clamped
    to the last position of [Values].  If an entry carries index [k], it
    sits at or before position [k], [getStructFieldIndex] returns its
    position and [GetValue] its value; if no entry carries index [k],
    [getStructFieldIndex] returns [k] itself and [GetValue] the value at
    position [k].  The entry is found by the index it carries alone. *)
Theorem X8_lookup_returns_entry_carrying_clamped_index
  (canSet allocatePtr : bool) (dataValue inst : Value) (index' : Z)
  (values : list SStructFieldValueV2) (infos : list SStructFieldInfo)
  (name : string) :
  fetchStructFieldValueV2s canSet dataValue allocatePtr 0 = Some (values, index', inst) ->
  0 <= firstMatch infos name ->
  values <> [] ->
  let k := Z.min (firstMatch infos name) (Z.of_nat (length values) - 1) in
  (forall (p : nat) e,
     values !! p = Some e -> Index e = k ->
     Z.of_nat p <= k
     /\ SStructFieldValueSetV2.getStructFieldIndex (mkSetV2 infos values) name
        = Some (Z.of_nat p)
     /\ SStructFieldValueSetV2.GetValue (mkSetV2 infos values) name
        = Some (ValueV2 e, true))
  /\ (Forall (fun e => Index e <> k) values ->
      SStructFieldValueSetV2.getStructFieldIndex (mkSetV2 infos values) name = Some k
      /\ exists e,
           values !! Z.to_nat k = Some e
           /\ SStructFieldValueSetV2.GetValue (mkSetV2 infos values) name
              = Some (ValueV2 e, true)).
Proof.
  intros Hf Hres Hne k.
  assert (Hinc : increasingWithin 0 index' values).
  { destruct dataValue as [| | |n fs]; try discriminate.
    unfold fetchStructFieldValueV2s in Hf.
    destruct (fetchStructFieldValueV2s_loop canSet allocatePtr fs 0)
      as [[[r i] f]|] eqn:E; [|discriminate].
    simpl in Hf. injection Hf as <- <- <-.
    apply fetchStructFieldValueV2s_loop_increasing in E as [_ Hinc]. exact Hinc. }
  assert (Hlen : (0 < length values)%nat).
  { destruct values; [congruence|simpl; lia]. }
  assert (Hk : 0 <= k < Z.of_nat (length values)) by (subst k; lia).
  pose proof (getStructFieldIndex_clamped (mkSetV2 infos values) name Hres) as Hidx.
  cbn [Infos Values] in Hidx. cbv zeta in Hidx. fold k in Hidx.
  replace (Z.to_nat (k + 1)) with (S (Z.to_nat k)) in Hidx by lia.
  split.
  - intros p e Hp He.
    pose proof (increasingWithin_position 0 index' values p e Hinc Hp) as Hpos.
    assert (Hfound : SStructFieldValueSetV2.getStructFieldIndex (mkSetV2 infos values) name
                     = Some (Z.of_nat p)).
    { rewrite Hidx.
      apply (getStructFieldIndex_scan_finds values k p (Z.to_nat k) e);
        [apply Hinc|assumption|assumption|lia|lia]. }
    split; [lia|]. split; [exact Hfound|].
    unfold SStructFieldValueSetV2.GetValue. rewrite Hfound. cbn [mbind option_bind Values].
    destruct (Z.ltb_spec (Z.of_nat p) 0) as [|_]; [lia|].
    rewrite Nat2Z.id, Hp. reflexivity.
  - intros Hnone.
    assert (Hfall : SStructFieldValueSetV2.getStructFieldIndex (mkSetV2 infos values) name
                    = Some k).
    { rewrite Hidx. apply getStructFieldIndex_scan_misses; [exact Hnone|lia]. }
    split; [exact Hfall|].
    destruct (lookup_lt_is_Some_2 values (Z.to_nat k) ltac:(lia)) as [e He].
    exists e. split; [exact He|].
    unfold SStructFieldValueSetV2.GetValue. rewrite Hfall. cbn [mbind option_bind Values].
    destruct (Z.ltb_spec k 0) as [|_]; [lia|].
    rewrite He. reflexivity.
Qed.

Lemma consecutive_lookup index n (k : nat) :
  (k < n)%nat -> consecutive index n !! k = Some (index + Z.of_nat k).
Proof.
  revert index k. induction n as [|n IH]; intros index k Hk; [lia|].
  destruct k as [|k]; simpl.
  - f_equal. lia.
  - rewrite IH by lia. f_equal. lia.
Qed.

Lemma getStructFieldIndex_aligned set name :
  map Index (Values set) = consecutive 0 (length (Infos set)) ->
  SStructFieldValueSetV2.getStructFieldIndex set name
  = Some (firstMatch (Infos set) name).
Proof.
  intros Hal.
  assert (Hlen : length (Values set) = length (Infos set)).
  { apply (f_equal (@length _)) in Hal.
    rewrite List.length_map, consecutive_length in Hal. exact Hal. }
  unfold SStructFieldValueSetV2.getStructFieldIndex.
  rewrite getStructFieldIndex_infos_0.
  pose proof (firstMatch_bounds (Infos set) name) as Hb.
  destruct (Z.ltb_spec (firstMatch (Infos set) name) 0) as [Hneg|Hpos];
    [f_equal|].
  destruct (Z.geb_spec (firstMatch (Infos set) name) (Z.of_nat (length (Values set))))
    as [|_]; [lia|].
  set (k := Z.to_nat (firstMatch (Infos set) name)).
  replace (Z.to_nat (firstMatch (Infos set) name + 1)) with (S k) by lia.
  destruct (lookup_lt_is_Some_2 (Values set) k ltac:(lia)) as [e He].
  assert (Hie : Index e = firstMatch (Infos set) name).
  { assert (Hm : map Index (Values set) !! k = Some (Index e))
      by (rewrite list_lookup_fmap, He; reflexivity).
    rewrite Hal, consecutive_lookup in Hm by lia. injection Hm as <-. lia. }
  simpl. rewrite He. cbn [mbind option_bind]. rewrite Hie, Z.eqb_refl.
  f_equal. lia.
Qed.

(** X9: lookups on a set that is aligned with its schema.  When the entry
    at position [i] of [Values] carries index [i] for every position of the
    schema, [getStructFieldIndex] returns the schema index the name
    resolves to ([-1] when it resolves to none), and [GetValue] returns the
    value at that position, found exactly when the name resolves. *)
Theorem X9_aligned_set_lookup_is_exact (set : SStructFieldValueSetV2) (name : string) :
  map Index (Values set) = consecutive 0 (length (Infos set)) ->
  SStructFieldValueSetV2.getStructFieldIndex set name
    = Some (firstMatch (Infos set) name)
  /\ (firstMatch (Infos set) name = -1 ->
      SStructFieldValueSetV2.GetValue set name = Some (None, false))
  /\ (forall k : nat,
      firstMatch (Infos set) name = Z.of_nat k ->
      exists e, Values set !! k = Some e
                /\ Index e = Z.of_nat k
                /\ SStructFieldValueSetV2.GetValue set name = Some (ValueV2 e, true)).
Proof.
  intros Hal. pose proof (getStructFieldIndex_aligned set name Hal) as Hidx.
  split; [exact Hidx|]. split.
  - intros Hnone. unfold SStructFieldValueSetV2.GetValue. rewrite Hidx, Hnone.
    reflexivity.
  - intros k Hk.
    assert (Hlen : length (Values set) = length (Infos set)).
    { apply (f_equal (@length _)) in Hal.
      rewrite List.length_map, consecutive_length in Hal. exact Hal. }
    pose proof (firstMatch_bounds (Infos set) name) as Hb.
    destruct (lookup_lt_is_Some_2 (Values set) k ltac:(lia)) as [e He].
    exists e. split; [exact He|]. split.
    + assert (Hm : map Index (Values set) !! k = Some (Index e))
        by (rewrite list_lookup_fmap, He; reflexivity).
      rewrite Hal, consecutive_lookup in Hm by lia. injection Hm as <-. lia.
    + unfold SStructFieldValueSetV2.GetValue. rewrite Hidx, Hk.
      cbn [mbind option_bind].
      destruct (Z.ltb_spec (Z.of_nat k) 0) as [|_]; [lia|].
      rewrite Nat2Z.id, He. reflexivity.
Qed.

(** X10: [GetValue] of the second-generation set never indexes out of
    range, on any set at all; and it reports found exactly when the name
    resolves in the schema and [Values] is not empty, without looking at
    whether an entry carries the schema index. *)
Theorem X10_GetValue_total_and_found_iff (set : SStructFieldValueSetV2) (name : string) :
  exists v found,
    SStructFieldValueSetV2.GetValue set name = Some (v, found)
    /\ (found = true <-> 0 <= firstMatch (Infos set) name /\ Values set <> [])
    /\ (found = false -> v = None).
Proof.
  pose proof (firstMatch_bounds (Infos set) name) as Hb.
  destruct (Z.ltb_spec (firstMatch (Infos set) name) 0) as [Hneg|Hpos].
  - exists None, false. split; [|split; [|reflexivity]].
    + unfold SStructFieldValueSetV2.GetValue, SStructFieldValueSetV2.getStructFieldIndex.
      rewrite getStructFieldIndex_infos_0.
      destruct (Z.ltb_spec (firstMatch (Infos set) name) 0); [|lia].
      cbn [mbind option_bind].
      destruct (Z.ltb_spec (firstMatch (Infos set) name) 0); [reflexivity|lia].
    + split; [discriminate|]. intros [? _]. lia.
  - destruct (Values set) as [|e0 vs] eqn:Ev.
    + exists None, false. split; [|split; [|reflexivity]].
      * unfold SStructFieldValueSetV2.GetValue, SStructFieldValueSetV2.getStructFieldIndex.
        rewrite getStructFieldIndex_infos_0, Ev.
        destruct (Z.ltb_spec (firstMatch (Infos set) name) 0); [lia|].
        destruct (Z.geb_spec (firstMatch (Infos set) name) (Z.of_nat (length (@nil SStructFieldValueV2))));
          [|simpl in *; lia].
        reflexivity.
      * split; [discriminate|]. intros [_ Hne]. congruence.
    + assert (Hne : Values set <> []) by (rewrite Ev; discriminate).
      destruct (GetValue_found_when_name_resolves set name Hpos Hne)
        as (idx & e & _ & _ & Hget).
      exists (ValueV2 e), true. split; [exact Hget|]. split; [|discriminate].
      rewrite <- Ev. split; auto.
Qed.

End Lookups.

(** ** Sets that line up with the schema *)

Section AlignedSets.
Context `{Collaborators}.

(** X11: the first use of a type and write mode give exact lookups.  For a
    well-typed addressable instance whose type has no interface among its
    composed fields: on the first use of the type (no schema in the cache)
    the read-mode entry point [FetchStructFieldValueSetV2] returns a set
    whose entry at position [i] carries index [i] for every position of the
    schema (schema computation has set every nil pointer before the values
    are walked); [FetchStructFieldValueSetForWriteV2] does so from any
    sound cache; and on both sets [getStructFieldIndex] returns the schema
    index the name resolves to. *)
Theorem X11_first_use_and_write_mode_sets_are_aligned
  (cache : Cache) (n : string) (fields : Fields) :
  cacheSound cache ->
  wellTyped (VStruct n fields) = true ->
  ifaceFree (TypeOf (VStruct n fields)) = true ->
  (Load cache (TypeOf (VStruct n fields)) = None ->
   exists set cache' inst,
     FetchStructFieldValueSetV2 cache true (VStruct n fields) = Some (set, cache', inst)
     /\ Infos set = typeInfos (TypeOf (VStruct n fields))
     /\ map Index (Values set) = consecutive 0 (length (Infos set))
     /\ forall name,
          SStructFieldValueSetV2.getStructFieldIndex set name
          = Some (firstMatch (Infos set) name))
  /\ (exists set cache' inst,
     FetchStructFieldValueSetForWriteV2 cache true (VStruct n fields)
       = Some (set, cache', inst)
     /\ forall name,
          SStructFieldValueSetV2.getStructFieldIndex set name
          = Some (firstMatch (typeInfos (TypeOf (VStruct n fields))) name)).
Proof.
  intros Hc Hwt Hif. split.
  - intros Hload.
    unfold FetchStructFieldValueSetV2, cachefetchStructFieldInfos.
    rewrite Hload. unfold fetchStructFieldInfos.
    cbn [TypeOf] in *.
    destruct (write_walk_typed fields n Hwt Hif) as (fs' & Hi & Hv).
    rewrite Hi. cbn [mbind option_bind]. unfold LoadOrStore. rewrite Hload.
    cbn [mbind option_bind]. unfold fetchStructFieldValueV2s.
    destruct (Hv 0) as (values & Hw & Hidx).
    rewrite (fetchStructFieldValueV2s_loop_again fields true 0 _ _ _ Hw true false).
    cbn [mbind option_bind].
    eexists _, _, _. split; [reflexivity|]. cbn [Infos Values].
    split; [reflexivity|]. split; [exact Hidx|].
    intros name. apply getStructFieldIndex_aligned. exact Hidx.
  - destruct (FetchStructFieldValueSetForWriteV2_typed cache n fields Hc Hwt Hif)
      as (set & cache' & inst & Hf & Hinfos & _ & Hidx & _).
    exists set, cache', inst. split; [exact Hf|].
    intros name. rewrite <- Hinfos. apply getStructFieldIndex_aligned. exact Hidx.
Qed.

Lemma fetchStructFieldValueSet_loop_write_typed fs :
  forall n,
    wellTypedFields fs = true -> ifaceFree (TStruct n (map fst fs)) = true ->
    exists set fs',
      fetchStructFieldValueSet_loop true true fs = Some (set, fs')
      /\ map Info set = typeInfos (TStruct n (map fst fs)).
Proof.
  induction fs as [|sf fv rest IHrest IHsub] using Fields_walk_ind;
    intros n Hwt Hif.
  - exists [], []. simp fetchStructFieldValueSet_loop. split; reflexivity.
  - apply wellTypedFields_cons in Hwt as (Hty & Hwtv & Hwtrest).
    cbn [map fst] in Hif |- *. apply ifaceFree_cons in Hif as [Hifsf Hifrest].
    rewrite (typeInfos_cons n n).
    destruct (IHrest n Hwtrest Hifrest) as (srest & rest' & Hr & Hri).
    rewrite fetchStructFieldValueSet_loop_cons.
    destruct (IsFieldExportable (reflect.Name sf)) eqn:Hexp.
    2:{ rewrite Hr. cbn [mbind option_bind]. eexists _, _. split; [reflexivity|].
        rewrite Hri. simpl. rewrite Hexp. reflexivity. }
    destruct (Anonymous sf) eqn:Hanon.
    2:{ rewrite Hr. cbn [mbind option_bind]. eexists _, _. split; [reflexivity|].
        cbn [map Info]. rewrite Hri. simpl. rewrite Hexp, Hanon. reflexivity. }
    specialize (Hifsf eq_refl eq_refl).
    pose proof (visitInfos_typed true n sf fv Hexp Hanon Hty Hwtv Hifsf) as Hvisit.
    rewrite (visitValue_write_typed true sf fv Hty Hwtv Hifsf).
    destruct (visitInfos true sf fv) as [| |c s fields plug|fv' field] eqn:Ev.
    + discriminate.
    + contradiction.
    + destruct Hvisit as (Hinfos & Hwtf & Hiff & Hc & _).
      rewrite (Hc eq_refl) in *. clear Hc.
      apply visitInfos_Descends_size in Ev.
      destruct (IHsub fields Ev s Hwtf Hiff) as (ssub & fields' & Hs & Hsi).
      rewrite Hs. cbn [mbind option_bind]. rewrite Hr. cbn [mbind option_bind].
      eexists _, _. split; [reflexivity|].
      rewrite map_app, Hsi, Hri, Hinfos. reflexivity.
    + destruct Hvisit as (Hinfos & _ & _).
      rewrite Hr. cbn [mbind option_bind]. eexists _, _. split; [reflexivity|].
      cbn [map Info]. rewrite Hri, Hinfos. reflexivity.
Qed.

(** X12: the first-generation write set carries the schema.  For a
    well-typed addressable instance whose type has no interface among its
    composed fields, [FetchStructFieldValueSetForWrite] returns, and the
    policies of its entries, in order, are the flattened schema of the
    type, the one [fetchStructFieldInfos] computes. *)
Theorem X12_write_set_policies_are_the_schema (n : string) (fields : Fields) :
  wellTyped (VStruct n fields) = true ->
  ifaceFree (TypeOf (VStruct n fields)) = true ->
  exists set inst infos,
    FetchStructFieldValueSetForWrite true (VStruct n fields) = Some (set, inst)
    /\ fetchStructFieldInfos true (VStruct n fields) = Some (infos, inst)
    /\ map Info set = infos
    /\ infos = typeInfos (TypeOf (VStruct n fields)).
Proof.
  intros Hwt Hif. cbn [TypeOf] in *.
  destruct (fetchStructFieldValueSet_loop_write_typed fields n Hwt Hif)
    as (set & fs1 & Hs & Hsi).
  destruct (write_walk_typed fields n Hwt Hif) as (fs2 & Hi & Hv).
  destruct (Hv 0) as (values & Hw & _).
  pose proof (value_walkers_agree_loop fields true true 0) as Hagree.
  rewrite Hw, Hs in Hagree. simpl in Hagree. injection Hagree as _ ->.
  exists set, (VStruct n fs1), (typeInfos (TStruct n (map fst fields))).
  unfold FetchStructFieldValueSetForWrite, fetchStructFieldValueSet, fetchStructFieldInfos.
  rewrite Hs, Hi. cbn [mbind option_bind]. auto.
Qed.

End AlignedSets.

(** ** Lookups on the first-generation set; [GetInterface] *)

Section FirstGeneration.
Context `{Collaborators}.

Lemma GetStructFieldIndex_firstMatch set name :
  SStructFieldValueSet.GetStructFieldIndex set name = firstMatch (map Info set) name.
Proof.
  unfold SStructFieldValueSet.GetStructFieldIndex.
  rewrite GetStructFieldIndex_from_firstMatch. cbv zeta.
  pose proof (firstMatch_bounds (map Info set) name).
  destruct (Z.ltb_spec (firstMatch (map Info set) name) 0); lia.
Qed.

(** X13: [GetValue] of the first-generation set never indexes out of
    range; it reports not found exactly when no entry passes one of the
    four name tests, and otherwise returns the value of the first entry
    that passes one. *)
Theorem X13_first_generation_GetValue (set : list SStructFieldValue) (name : string) :
  (Forall (fun e => fieldMatches (Info e) name = false) set ->
   SStructFieldValueSet.GetValue set name = Some (None, false))
  /\ (forall pre e post,
      set = pre ++ e :: post ->
      Forall (fun e' => fieldMatches (Info e') name = false) pre ->
      fieldMatches (Info e) name = true ->
      SStructFieldValueSet.GetStructFieldIndex set name = Z.of_nat (length pre)
      /\ SStructFieldValueSet.GetValue set name = Some (Value_ e, true))
  /\ exists r, SStructFieldValueSet.GetValue set name = Some r.
Proof.
  split; [|split].
  - intros Hnone. unfold SStructFieldValueSet.GetValue.
    rewrite GetStructFieldIndex_firstMatch.
    assert (Hm : firstMatch (map Info set) name = -1).
    { apply firstMatch_none. apply List.Forall_map. exact Hnone. }
    rewrite Hm. reflexivity.
  - intros pre e post -> Hpre Hhit.
    assert (Hidx : SStructFieldValueSet.GetStructFieldIndex (pre ++ e :: post) name
                   = Z.of_nat (length pre)).
    { rewrite GetStructFieldIndex_firstMatch, map_app. cbn [map].
      rewrite (firstMatch_app_hit (map Info pre) (Info e) (map Info post) name);
        [rewrite List.length_map; reflexivity| |exact Hhit].
      apply List.Forall_map. exact Hpre. }
    split; [exact Hidx|].
    unfold SStructFieldValueSet.GetValue. rewrite Hidx.
    destruct (Z.ltb_spec (Z.of_nat (length pre)) 0) as [|_]; [lia|].
    rewrite Nat2Z.id, list_lookup_middle by reflexivity. reflexivity.
  - unfold SStructFieldValueSet.GetValue. rewrite GetStructFieldIndex_firstMatch.
    pose proof (firstMatch_bounds (map Info set) name) as Hb.
    rewrite List.length_map in Hb.
    destruct (Z.ltb_spec (firstMatch (map Info set) name) 0); [eauto|].
    destruct (lookup_lt_is_Some_2 set (Z.to_nat (firstMatch (map Info set) name))
                ltac:(lia)) as [e He].
    rewrite He. simpl. eauto.
Qed.

Lemma getStructFieldIndex_in_range set name :
  exists idx,
    SStructFieldValueSetV2.getStructFieldIndex set name = Some idx
    /\ (idx = -1 /\ (firstMatch (Infos set) name = -1 \/ Values set = [])
        \/ 0 <= idx /\ is_Some (Values set !! Z.to_nat idx)
           /\ 0 <= firstMatch (Infos set) name /\ Values set <> []).
Proof.
  pose proof (firstMatch_bounds (Infos set) name) as Hb.
  destruct (Z.ltb_spec (firstMatch (Infos set) name) 0) as [Hneg|Hpos].
  - exists (-1). split; [|left; split; [reflexivity|left; lia]].
    unfold SStructFieldValueSetV2.getStructFieldIndex.
    rewrite getStructFieldIndex_infos_0.
    destruct (Z.ltb_spec (firstMatch (Infos set) name) 0); [f_equal; lia|lia].
  - destruct (Values set) as [|e0 vs] eqn:Ev.
    + exists (-1). split; [|left; split; [reflexivity|right; reflexivity]].
      unfold SStructFieldValueSetV2.getStructFieldIndex.
      rewrite getStructFieldIndex_infos_0, Ev.
      destruct (Z.ltb_spec (firstMatch (Infos set) name) 0); [lia|].
      destruct (Z.geb_spec (firstMatch (Infos set) name)
                  (Z.of_nat (length (@nil SStructFieldValueV2))));
        [reflexivity|simpl in *; lia].
    + assert (Hne : Values set <> []) by (rewrite Ev; discriminate).
      destruct (GetValue_found_when_name_resolves set name Hpos Hne)
        as (idx & e & Hidx & He & Hget).
      exists idx. split; [exact Hidx|].
      unfold SStructFieldValueSetV2.GetValue in Hget. rewrite Hidx in Hget.
      cbn [mbind option_bind] in Hget.
      destruct (Z.ltb_spec idx 0) as [|Hge]; [discriminate|].
      right. split; [exact Hge|]. split; [rewrite <- Ev, He; eauto|].
      split; [exact Hpos|]. discriminate.
Qed.

Lemma GetInterface_valid_V2 flagRO set name :
  Forall (fun e => is_Some (ValueV2 e)) (Values set) ->
  exists idx v found,
    SStructFieldValueSetV2.getStructFieldIndex set name = Some idx
    /\ SStructFieldValueSetV2.GetValue set name = Some (v, found)
    /\ SStructFieldValueSetV2.GetInterface flagRO set name
       = if found && negb (flagRO (Z.to_nat idx)) then Some (v, true)
         else Some (None, false).
Proof.
  intros Hvalid.
  destruct (getStructFieldIndex_in_range set name) as (idx & Hidx & Hrange).
  unfold SStructFieldValueSetV2.GetInterface, SStructFieldValueSetV2.GetValue.
  rewrite Hidx. cbn [mbind option_bind].
  destruct Hrange as [[-> _]|(Hge & [e He] & _)].
  - exists (-1), None, false. auto.
  - destruct (Z.ltb_spec idx 0) as [|_]; [lia|].
    rewrite He. cbn [mbind option_bind].
    rewrite List.Forall_forall in Hvalid.
    destruct (Hvalid e) as [v Hv].
    { apply list_elem_of_In. eapply list_elem_of_lookup_2, He. }
    exists idx, (ValueV2 e), true. rewrite Hv. cbn [CanInterface mbind option_bind andb].
    destruct (flagRO (Z.to_nat idx)); auto.
Qed.

Lemma GetInterface_valid_V1 flagRO (set : list SStructFieldValue) name :
  Forall (fun e => is_Some (Value_ e)) set ->
  exists v found,
    SStructFieldValueSet.GetValue set name = Some (v, found)
    /\ SStructFieldValueSet.GetInterface flagRO set name
       = if found
            && negb (flagRO (Z.to_nat (SStructFieldValueSet.GetStructFieldIndex set name)))
         then Some (v, true) else Some (None, false).
Proof.
  intros Hvalid.
  unfold SStructFieldValueSet.GetInterface, SStructFieldValueSet.GetValue.
  pose proof (firstMatch_bounds (map Info set) name) as Hb.
  rewrite List.length_map in Hb.
  rewrite GetStructFieldIndex_firstMatch.
  destruct (Z.ltb_spec (firstMatch (map Info set) name) 0) as [|Hge].
  - exists None, false. auto.
  - destruct (lookup_lt_is_Some_2 set (Z.to_nat (firstMatch (map Info set) name))
                ltac:(lia)) as [e He].
    rewrite He. cbn [mbind option_bind].
    rewrite List.Forall_forall in Hvalid.
    destruct (Hvalid e) as [v Hv].
    { apply list_elem_of_In. eapply list_elem_of_lookup_2, He. }
    exists (Value_ e), true. rewrite Hv. cbn [CanInterface mbind option_bind andb].
    destruct (flagRO _); auto.
Qed.

(** X14: every entry a value walker returns holds a valid value, so on the
    sets built from them [GetInterface] never meets the zero
    [reflect.Value] (on which [CanInterface] panics): it returns, for both
    generations of sets.  It answers as [GetValue] does when the name is
    not found or the value found is not read-only, and it answers
    [(nil, false)] when the value found is read-only, which [GetValue]
    reports as found. *)
Theorem X14_entries_are_valid_and_GetInterface_returns
  (canSet allocatePtr : bool) (dataValue : Value) (flagRO : nat -> bool) :
  (forall index values index' inst,
     fetchStructFieldValueV2s canSet dataValue allocatePtr index
       = Some (values, index', inst) ->
     Forall (fun e => is_Some (ValueV2 e)) values
     /\ forall infos name,
          exists idx v found,
            SStructFieldValueSetV2.getStructFieldIndex (mkSetV2 infos values) name
              = Some idx
            /\ SStructFieldValueSetV2.GetValue (mkSetV2 infos values) name
               = Some (v, found)
            /\ SStructFieldValueSetV2.GetInterface flagRO (mkSetV2 infos values) name
               = if found && negb (flagRO (Z.to_nat idx)) then Some (v, true)
                 else Some (None, false))
  /\ (forall set inst,
     fetchStructFieldValueSet canSet dataValue allocatePtr = Some (set, inst) ->
     Forall (fun e => is_Some (Value_ e)) set
     /\ forall name,
          exists v found,
            SStructFieldValueSet.GetValue set name = Some (v, found)
            /\ SStructFieldValueSet.GetInterface flagRO set name
               = if found
                    && negb (flagRO (Z.to_nat
                                       (SStructFieldValueSet.GetStructFieldIndex set name)))
                 then Some (v, true) else Some (None, false)).
Proof.
  assert (HV2 : forall index values index' inst,
            fetchStructFieldValueV2s canSet dataValue allocatePtr index
              = Some (values, index', inst) ->
            Forall (fun e => is_Some (ValueV2 e)) values).
  { intros index values index' inst Hf.
    destruct dataValue as [| | |n fs]; try discriminate.
    unfold fetchStructFieldValueV2s in Hf.
    destruct (fetchStructFieldValueV2s_loop canSet allocatePtr fs index)
      as [[[r i] f]|] eqn:E; [|discriminate].
    simpl in Hf. injection Hf as <- <- <-.
    eapply fetchStructFieldValueV2s_loop_valid, E. }
  split.
  - intros index values index' inst Hf. pose proof (HV2 _ _ _ _ Hf) as Hvalid.
    split; [exact Hvalid|]. intros infos name.
    apply (GetInterface_valid_V2 flagRO (mkSetV2 infos values) name). exact Hvalid.
  - intros set inst Hf.
    assert (Hvalid : Forall (fun e => is_Some (Value_ e)) set).
    { destruct dataValue as [| | |n fs]; try discriminate.
      unfold fetchStructFieldValueSet in Hf.
      destruct (fetchStructFieldValueSet_loop canSet allocatePtr fs) as [[s f]|] eqn:E;
        [|discriminate].
      simpl in Hf. injection Hf as <- <-.
      pose proof (value_walkers_agree_loop fs canSet allocatePtr 0) as Hagree.
      rewrite E in Hagree.
      destruct (fetchStructFieldValueV2s_loop canSet allocatePtr fs 0)
        as [[[r i] f']|] eqn:E2; [|discriminate].
      simpl in Hagree. injection Hagree as Hm _.
      apply fetchStructFieldValueV2s_loop_valid in E2.
      apply (List.Forall_map ValueV2 is_Some) in E2. rewrite Hm in E2.
      apply (List.Forall_map Value_ is_Some). exact E2. }
    split; [exact Hvalid|]. intros name. apply GetInterface_valid_V1. exact Hvalid.
Qed.

End FirstGeneration.

(** ** Name resolution: the order of the fields decides *)

Section ResolutionOrder.
Context `{Collaborators}.

(** C4, as the code has it: name resolution returns the position of the
    first field, in schema order, that passes at least one of four tests,
    tried on each field in this order: (1) the key is the field's external
    name ([MarshalName]); (2) the key and the declared field name have the
    same [CamelSplit] form; (3) the key is the declared field name; (4) the
    capitalized key is the declared field name; it returns [-1] when no
    field passes a test.  The order of the fields decides, not the order of
    the tests: a field that passes any one test, with no field before it
    passing any, is selected whatever the fields after it are.  This holds
    of [GetStructFieldIndex] and of the schema loop of
    [getStructFieldIndex]; [getStructFieldIndex] itself returns [-1]
    exactly when no field passes a test or [Values] is empty, and on a set
    whose entry at position [i] carries index [i] it returns that schema
    position.  When [CamelSplit] turns [UserID] into [user_id], the keys
    [user_id] and [UserID] both select an untagged field declared [UserID]
    that no earlier field matches. *)
Theorem C4_name_resolution_first_field_passing_a_test :
  (forall set name,
     SStructFieldValueSet.GetStructFieldIndex set name = firstMatch (map Info set) name)
  /\ (forall infos name,
     SStructFieldValueSetV2.getStructFieldIndex_infos infos name 0 = firstMatch infos name)
  /\ (forall set name,
     exists idx,
       SStructFieldValueSetV2.getStructFieldIndex set name = Some idx
       /\ (idx = -1 <-> firstMatch (Infos set) name = -1 \/ Values set = []))
  /\ (forall set name,
     map Index (Values set) = consecutive 0 (length (Infos set)) ->
     SStructFieldValueSetV2.getStructFieldIndex set name
     = Some (firstMatch (Infos set) name))
  /\ (forall jsonInfo name,
     fieldMatches jsonInfo name = true <->
       fst (MarshalName jsonInfo) = name
       \/ CamelSplit (FieldName jsonInfo) "_" = CamelSplit name "_"
       \/ FieldName jsonInfo = name
       \/ FieldName jsonInfo = Capitalize name)
  /\ (forall infos name (i : nat),
     firstMatch infos name = Z.of_nat i <->
     exists jsonInfo,
       infos !! i = Some jsonInfo /\ fieldMatches jsonInfo name = true
       /\ forall (j : nat) other,
            (j < i)%nat -> infos !! j = Some other -> fieldMatches other name = false)
  /\ (forall infos name,
     firstMatch infos name = -1 <->
     Forall (fun jsonInfo => fieldMatches jsonInfo name = false) infos)
  /\ (forall pre jsonInfo post key,
     Forall (fun other => fieldMatches other key = false) pre ->
     fst (MarshalName jsonInfo) = key
     \/ CamelSplit (FieldName jsonInfo) "_" = CamelSplit key "_"
     \/ FieldName jsonInfo = key
     \/ FieldName jsonInfo = Capitalize key ->
     firstMatch (pre ++ jsonInfo :: post) key = Z.of_nat (length pre))
  /\ (forall pre jsonInfo post key,
     CamelSplit "UserID" "_" = "user_id" ->
     Name jsonInfo = EmptyString -> FieldName jsonInfo = "UserID" ->
     key = "user_id" \/ key = "UserID" ->
     Forall (fun other => fieldMatches other key = false) pre ->
     firstMatch (pre ++ jsonInfo :: post) key = Z.of_nat (length pre)).
Proof.
  split; [apply GetStructFieldIndex_firstMatch|].
  split; [apply getStructFieldIndex_infos_0|].
  split.
  { intros set name.
    destruct (getStructFieldIndex_in_range set name) as (idx & Hidx & Hrange).
    exists idx. split; [exact Hidx|].
    destruct Hrange as [[-> Hwhy]|(Hge & _ & Hres & Hne)].
    - split; [intros _; exact Hwhy|reflexivity].
    - split; [lia|]. intros [Hm|He]; [lia|contradiction]. }
  split; [apply getStructFieldIndex_aligned|].
  split; [apply fieldMatches_rules|].
  split; [apply firstMatch_some|].
  split; [apply firstMatch_none|].
  split.
  - intros pre jsonInfo post key Hpre Htest.
    apply firstMatch_app_hit; [exact Hpre|].
    apply fieldMatches_rules. exact Htest.
  - intros pre jsonInfo post key Hcs Hname Hfield Hkey Hpre.
    apply firstMatch_app_hit; [exact Hpre|].
    apply fieldMatches_rules. destruct Hkey as [->| ->].
    + left. rewrite MarshalName_unset by exact Hname. cbn. rewrite Hfield. exact Hcs.
    + right; left. rewrite Hfield. reflexivity.
Qed.

End ResolutionOrder.

(** ** The rest of the policy: [Ignore], [Name], [ForceString] *)

Section PolicyFields.
Context `{Collaborators}.

Lemma SplitComma_single val k : gostrings.SplitComma val = [k] -> val = k.
Proof.
  revert k. induction val as [|c r IH]; intros k; simpl.
  - intros [= <-]. reflexivity.
  - destruct (Ascii.eqb c ",").
    + intros [= _ Hr]. pose proof (SplitComma_length r) as Hl.
      rewrite Hr in Hl. simpl in Hl. lia.
    + destruct (gostrings.SplitComma r) as [|h t] eqn:E.
      * intros [= <-]. pose proof (SplitComma_length r) as Hl.
        rewrite E in Hl. simpl in Hl. lia.
      * intros [= <- ->]. f_equal. apply IH. reflexivity.
Qed.

Lemma SplitComma_dash : gostrings.SplitComma "-" = ["-"%string].
Proof. reflexivity. Qed.

Lemma applyOption_ForceString info k :
  ForceString (applyOption info k)
  = String.eqb (ToLower k) "string" || ForceString info.
Proof.
  unfold applyOption.
  destruct (String.eqb_spec (ToLower k) "string") as [->|Hne]; [reflexivity|].
  repeat (destruct (String.eqb _ _); [reflexivity|]). reflexivity.
Qed.

Lemma fold_applyOption_ForceString opts info :
  ForceString (fold_left applyOption opts info)
  = existsb (fun k => String.eqb (ToLower k) "string") opts || ForceString info.
Proof.
  revert info. induction opts as [|k rest IH]; intros info; simpl; [reflexivity|].
  rewrite IH, applyOption_ForceString.
  destruct (String.eqb (ToLower k) "string"), (existsb _ rest), (ForceString info);
    reflexivity.
Qed.

(** X15: [Ignore] and [Name].  [ParseStructFieldJsonInfo] marks a field
    ignored exactly when its json tag value is the single character ["-"].
    A [name] tag key gives the external name whatever the json tag says;
    without it the name is the first token of the json tag value (empty
    when that value is ["-"] alone or when there is no json tag, to be
    derived later by [MarshalName]); an option word in first position is a
    name, not an option. *)
Theorem X15_Ignore_and_Name (sf : StructField) :
  (Ignore (ParseStructFieldJsonInfo sf) = true <-> TagMap (Tag sf) !! "json" = Some "-")
  /\ Name (ParseStructFieldJsonInfo sf) =
     match TagMap (Tag sf) !! "name", TagMap (Tag sf) !! "json" with
     | Some v, _ => v
     | None, Some val =>
         if String.eqb val "-" then EmptyString
         else hd EmptyString (gostrings.SplitComma val)
     | None, None => EmptyString
     end.
Proof.
  destruct (Parse_Ignore_Name sf) as [Hi Hn]. split.
  - rewrite Hi. destruct (TagMap (Tag sf) !! "json") as [val|]; [|split; discriminate].
    destruct (gostrings.SplitComma val) as [|k0 [|k1 ks]] eqn:E.
    + split; [discriminate|]. intros [= ->]. discriminate E.
    + rewrite String.eqb_eq. split.
      * intros ->. apply SplitComma_single in E. congruence.
      * intros [= ->]. injection E as <-. reflexivity.
    + split; [discriminate|]. intros [= ->]. discriminate E.
  - rewrite Hn. destruct (TagMap (Tag sf) !! "name"); [reflexivity|].
    destruct (TagMap (Tag sf) !! "json") as [val|]; [|reflexivity].
    destruct (String.eqb_spec val "-") as [->|Hne]; [reflexivity|].
    destruct (gostrings.SplitComma val) as [|k0 [|k1 ks]] eqn:E; try reflexivity.
    apply SplitComma_single in E. subst k0. simpl.
    destruct (String.eqb_spec val "-"); [contradiction|reflexivity].
Qed.

(** X16: [ForceString].  The flag is set exactly when one of the tokens
    after the first of the json tag value is [string], compared after
    lower-casing; no token clears it, and a json value that is just
    [string] names the field instead. *)
Theorem X16_ForceString (sf : StructField) :
  ForceString (ParseStructFieldJsonInfo sf) =
    match TagMap (Tag sf) !! "json" with
    | Some val =>
        existsb (fun k => String.eqb (ToLower k) "string")
                (tail (gostrings.SplitComma val))
    | None => false
    end.
Proof.
  unfold ParseStructFieldJsonInfo. cbn [Tags].
  set (info0 := mkInfo _ _ _ _ _ _ _ _).
  set (info1 := match TagMap (Tag sf) !! "json" with Some _ => _ | None => _ end).
  assert (H1 : ForceString info1 =
    match TagMap (Tag sf) !! "json" with
    | Some val =>
        existsb (fun k => String.eqb (ToLower k) "string")
                (tail (gostrings.SplitComma val))
    | None => false
    end).
  { subst info1. destruct (TagMap (Tag sf) !! "json") as [val|]; [|reflexivity].
    cbv zeta. pose proof (SplitComma_length val) as Hlen.
    destruct (gostrings.SplitComma val) as [|k0 ks]; [simpl in Hlen; lia|].
    cbn [tail].
    set (info2 := if String.eqb k0 "-" then _ else _).
    assert (H2 : ForceString info2 = false).
    { subst info2. destruct (String.eqb k0 "-"); [destruct (Z.ltb _ _)|]; reflexivity. }
    destruct (Z.ltb_spec 1 (Z.of_nat (length (k0 :: ks)))) as [Hlt|Hge].
    - rewrite fold_applyOption_ForceString, H2, orb_false_r. reflexivity.
    - destruct ks; [exact H2|simpl in Hge; lia]. }
  destruct (Tags info1 !! "name"); exact H1.
Qed.

End PolicyFields.

(** ** Counters, cache hits and reachability by name *)

Section MoreInvariants.
Context `{Collaborators}.

(** X17: an entry never sits after the position its index names.  In the
    entries a value walk returns, the entry at position [i] carries an
    index of at least [start + i], and below the counter the walk ended
    with; so there are at most [end - start] entries, and the entry with a
    given index, if there is one, is at or before that position (what the
    reverse scan of [getStructFieldIndex] relies on). *)
Theorem X17_entry_index_bounds_its_position
  (canSet allocatePtr : bool) (dataValue inst : Value) (index index' : Z)
  (ret : list SStructFieldValueV2) :
  fetchStructFieldValueV2s canSet dataValue allocatePtr index = Some (ret, index', inst) ->
  (forall (i : nat) e, ret !! i = Some e -> index + Z.of_nat i <= Index e < index')
  /\ Z.of_nat (length ret) <= index' - index.
Proof.
  intros Hf.
  assert (Hinc : index <= index' /\ increasingWithin index index' ret).
  { destruct dataValue as [| | |n fs]; try discriminate.
    unfold fetchStructFieldValueV2s in Hf.
    destruct (fetchStructFieldValueV2s_loop canSet allocatePtr fs index)
      as [[[r i] f]|] eqn:E; [|discriminate].
    simpl in Hf. injection Hf as <- <- <-.
    eapply fetchStructFieldValueV2s_loop_increasing, E. }
  destruct Hinc as [Hle Hinc].
  assert (Hpos : forall (i : nat) e,
            ret !! i = Some e -> index + Z.of_nat i <= Index e < index').
  { intros i e Hi. split; [eapply increasingWithin_position; eassumption|].
    destruct Hinc as [_ Hw]. rewrite List.Forall_forall in Hw.
    apply Hw, list_elem_of_In. eapply list_elem_of_lookup_2, Hi. }
  split; [exact Hpos|].
  destruct ret as [|e0 ret'] eqn:Eret; [simpl; lia|]. rewrite <- Eret in *.
  assert (Hlast : (length ret - 1 < length ret)%nat) by (rewrite Eret; simpl; lia).
  destruct (lookup_lt_is_Some_2 ret _ Hlast) as [e He].
  specialize (Hpos _ _ He). rewrite Eret in *. simpl in *. lia.
Qed.

(** X18: after the first use, the read-mode entry point only reads.  When
    the cache holds a schema for the type of a struct value,
    [FetchStructFieldValueSetV2] returns on it, addressable or not: it
    hands out the cached schema and leaves the cache and the value as they
    are. *)
Theorem X18_read_entry_point_on_cache_hit
  (cache : Cache) (canSet : bool) (n : string) (fields : Fields)
  (r : list SStructFieldInfo) :
  Load cache (TypeOf (VStruct n fields)) = Some r ->
  exists values index',
    fetchStructFieldValueV2s canSet (VStruct n fields) false 0
      = Some (values, index', VStruct n fields)
    /\ FetchStructFieldValueSetV2 cache canSet (VStruct n fields)
       = Some (mkSetV2 r values, cache, VStruct n fields).
Proof.
  intros Hload. unfold FetchStructFieldValueSetV2, cachefetchStructFieldInfos.
  rewrite Hload. cbn [mbind option_bind]. unfold fetchStructFieldValueV2s.
  destruct (fetchStructFieldValueV2s_loop_read fields canSet 0) as (ret & index' & ->).
  cbn [mbind option_bind]. exists ret, index'. split; reflexivity.
Qed.

(** X19: what the cache hands out.  From a sound cache, for a well-typed
    instance whose type has no interface among its composed fields,
    [cachefetchStructFieldInfos] returns the schema of the type, whether it
    finds it or computes it, and whichever instance seeded the cache; and
    the cache it leaves is sound. *)
Theorem X19_cache_returns_the_schema_of_the_type
  (cache cache' : Cache) (canSet : bool) (dataValue inst : Value)
  (infos : list SStructFieldInfo) :
  cacheSound cache ->
  wellTyped dataValue = true ->
  cachefetchStructFieldInfos cache canSet dataValue = Some (infos, cache', inst) ->
  cacheSound cache'
  /\ (ifaceFree (TypeOf dataValue) = true -> infos = typeInfos (TypeOf dataValue)).
Proof.
  intros Hc Hwt Hf. unfold cachefetchStructFieldInfos in Hf.
  destruct (Load cache (TypeOf dataValue)) as [r|] eqn:El.
  - injection Hf as <- <- <-. split; [exact Hc|]. intros Hif.
    destruct (Hc _ _ El) as (c0 & v0 & v0' & Hwt0 & Hty0 & Hf0).
    destruct v0 as [| | |n0 fs0]; try discriminate. simpl in Hf0.
    destruct (fetchStructFieldInfos_loop c0 fs0) as [[i f]|] eqn:E; [|discriminate].
    simpl in Hf0. injection Hf0 as <- <-. rewrite <- Hty0 in Hif |- *.
    apply (fetchStructFieldInfos_loop_typed fs0 n0 c0 i f Hwt0 Hif E).
  - destruct (fetchStructFieldInfos canSet dataValue) as [[i v]|] eqn:Ei; [|discriminate].
    cbn [mbind option_bind] in Hf. unfold LoadOrStore in Hf. rewrite El in Hf.
    injection Hf as <- <- <-. split.
    + eapply cacheSound_store; eassumption.
    + intros Hif. destruct dataValue as [| | |n fs]; try discriminate. simpl in Ei.
      destruct (fetchStructFieldInfos_loop canSet fs) as [[i' f]|] eqn:E; [|discriminate].
      simpl in Ei. injection Ei as <- <-.
      apply (fetchStructFieldInfos_loop_typed fs n canSet i' f Hwt Hif E).
Qed.

Lemma firstMatch_le infos name (i : nat) info :
  infos !! i = Some info -> fieldMatches info name = true ->
  0 <= firstMatch infos name <= Z.of_nat i.
Proof.
  revert i. induction infos as [|a rest IH]; intros i Hi Hm; [discriminate|].
  simpl. destruct (fieldMatches a name) eqn:Ea; [lia|].
  destruct i as [|i]; simpl in Hi; [congruence|].
  specialize (IH i Hi Hm).
  destruct (Z.ltb_spec (firstMatch rest name) 0); lia.
Qed.

(** X20: a field answers to its own names.  For the policy at position [i]
    of a schema, the lookup keys that are its external name
    ([MarshalName]), its declared field name, and any key whose capitalized
    form is the declared name all resolve, to a position at or before [i]
    (before it only when an earlier field passes one of the tests for the
    same key). *)
Theorem X20_field_resolves_by_its_names
  (infos : list SStructFieldInfo) (i : nat) (info : SStructFieldInfo) (key : string) :
  infos !! i = Some info ->
  key = fst (MarshalName info) \/ key = FieldName info
  \/ FieldName info = Capitalize key ->
  0 <= firstMatch infos key <= Z.of_nat i
  /\ SStructFieldValueSetV2.getStructFieldIndex_infos infos key 0 = firstMatch infos key.
Proof.
  intros Hi Hkey. split; [|apply getStructFieldIndex_infos_0].
  apply (firstMatch_le infos key i info Hi).
  apply fieldMatches_rules. destruct Hkey as [->|[->|Hcap]]; auto.
Qed.

(** X21: every exported named field of a struct is in its schema and
    resolves by its declared name: after schema computation the lookup key
    equal to the declared name of such a field resolves to a schema
    position. *)
Theorem X21_declared_name_resolves_in_schema
  (canSet : bool) (n : string) (fields : Fields) (inst : Value)
  (infos : list SStructFieldInfo) (sf : StructField) (fv : Value) :
  fetchStructFieldInfos canSet (VStruct n fields) = Some (infos, inst) ->
  In (sf, fv) fields ->
  IsFieldExportable (reflect.Name sf) = true ->
  Anonymous sf = false ->
  In (ParseStructFieldJsonInfo sf) infos
  /\ 0 <= firstMatch infos (reflect.Name sf) < Z.of_nat (length infos).
Proof.
  intros Hf Hin Hexp Hanon. simpl in Hf.
  destruct (fetchStructFieldInfos_loop canSet fields) as [[i f]|] eqn:E; [|discriminate].
  simpl in Hf. injection Hf as <- <-.
  pose proof (fetchStructFieldInfos_loop_keeps_named canSet fields i f sf fv E Hin Hexp Hanon)
    as Hkept.
  split; [exact Hkept|].
  apply list_elem_of_In, list_elem_of_lookup_1 in Hkept as [k Hk].
  pose proof (firstMatch_bounds i (reflect.Name sf)) as Hb.
  assert (Hm : fieldMatches (ParseStructFieldJsonInfo sf) (reflect.Name sf) = true).
  { apply fieldMatches_rules. right; right; left. apply Parse_FieldName. }
  pose proof (firstMatch_le i (reflect.Name sf) k _ Hk Hm). lia.
Qed.

End MoreInvariants.

(** ** Read mode against write mode *)

Section ReadWithinWrite.
Context `{Collaborators}.

Lemma visitValue_read_write canSet sf fv :
  match visitValue canSet false sf fv with
  | Panics => False
  | Skips => True
  | other => visitValue canSet true sf fv = other
  end.
Proof.
  unfold visitValue.
  destruct fv as [ty p|ty [d|]|elem [t|]|s fs]; simpl; try exact I; try reflexivity.
  - destruct d; try reflexivity. destruct (negb _); reflexivity.
  - destruct t; try reflexivity. destruct (negb _); reflexivity.
  - destruct (negb _); reflexivity.
Qed.

Lemma read_values_within_write_values fs :
  forall canSet index index2 ret index' inst ret2 index2' inst2,
    fetchStructFieldValueV2s_loop canSet false fs index = Some (ret, index', inst) ->
    fetchStructFieldValueV2s_loop canSet true fs index2 = Some (ret2, index2', inst2) ->
    sublist (map ValueV2 ret) (map ValueV2 ret2).
Proof.
  induction fs as [|sf fv rest IHrest IHsub] using Fields_walk_ind;
    intros canSet index index2 ret index' inst ret2 index2' inst2 Hr Hw.
  - simp fetchStructFieldValueV2s_loop in Hr, Hw.
    injection Hr as <- <- <-. injection Hw as <- <- <-. constructor.
  - rewrite fetchStructFieldValueV2s_loop_cons in Hr, Hw.
    destruct (IsFieldExportable (reflect.Name sf)).
    2:{ destruct (fetchStructFieldValueV2s_loop canSet false rest index)
          as [[[r i] f]|] eqn:Er; [|discriminate].
        destruct (fetchStructFieldValueV2s_loop canSet true rest index2)
          as [[[r2 i2] f2]|] eqn:Ew; [|discriminate].
        simpl in Hr, Hw. injection Hr as <- <- <-. injection Hw as <- <- <-.
        eapply IHrest; eassumption. }
    destruct (Anonymous sf).
    2:{ destruct (fetchStructFieldValueV2s_loop canSet false rest (index + 1))
          as [[[r i] f]|] eqn:Er; [|discriminate].
        destruct (fetchStructFieldValueV2s_loop canSet true rest (index2 + 1))
          as [[[r2 i2] f2]|] eqn:Ew; [|discriminate].
        simpl in Hr, Hw. injection Hr as <- <- <-. injection Hw as <- <- <-.
        simpl. apply sublist_skip. eapply IHrest; eassumption. }
    pose proof (visitValue_read_write canSet sf fv) as Hrw.
    destruct (visitValue canSet false sf fv) as [| |c n fields plug|cur field] eqn:Ev.
    + contradiction.
    + (* read mode skips the field; write mode may add entries for it *)
      destruct (fetchStructFieldValueV2s_loop canSet false rest (index + 1))
        as [[[r i] f]|] eqn:Er; [|discriminate].
      simpl in Hr. injection Hr as <- <- <-.
      destruct (visitValue canSet true sf fv) as [| |c n fields plug|cur field].
      * discriminate.
      * destruct (fetchStructFieldValueV2s_loop canSet true rest (index2 + 1))
          as [[[r2 i2] f2]|] eqn:Ew; [|discriminate].
        simpl in Hw. injection Hw as <- <- <-. eapply IHrest; eassumption.
      * destruct (fetchStructFieldValueV2s_loop c true fields index2)
          as [[[sub i1] f1]|]; [|discriminate].
        simpl in Hw.
        destruct (fetchStructFieldValueV2s_loop canSet true rest i1)
          as [[[r2 i2] f2]|] eqn:Ew; [|discriminate].
        simpl in Hw. injection Hw as <- <- <-.
        rewrite map_app. apply sublist_inserts_l. eapply IHrest; eassumption.
      * destruct (fetchStructFieldValueV2s_loop canSet true rest (index2 + 1))
          as [[[r2 i2] f2]|] eqn:Ew; [|discriminate].
        simpl in Hw. injection Hw as <- <- <-.
        simpl. apply sublist_cons. eapply IHrest; eassumption.
    + rewrite Hrw in Hw. apply visitValue_Descends_size in Ev.
      destruct (fetchStructFieldValueV2s_loop c false fields index)
        as [[[sub i1] f1]|] eqn:Es; [|discriminate].
      simpl in Hr.
      destruct (fetchStructFieldValueV2s_loop canSet false rest i1)
        as [[[r i] f]|] eqn:Er; [|discriminate].
      simpl in Hr. injection Hr as <- <- <-.
      destruct (fetchStructFieldValueV2s_loop c true fields index2)
        as [[[sub2 i1'] f1']|] eqn:Es2; [|discriminate].
      simpl in Hw.
      destruct (fetchStructFieldValueV2s_loop canSet true rest i1')
        as [[[r2 i2] f2]|] eqn:Ew; [|discriminate].
      simpl in Hw. injection Hw as <- <- <-.
      rewrite !map_app. apply sublist_app.
      * eapply (IHsub fields Ev); eassumption.
      * eapply IHrest; eassumption.
    + rewrite Hrw in Hw.
      destruct (fetchStructFieldValueV2s_loop canSet false rest (index + 1))
        as [[[r i] f]|] eqn:Er; [|discriminate].
      destruct (fetchStructFieldValueV2s_loop canSet true rest (index2 + 1))
        as [[[r2 i2] f2]|] eqn:Ew; [|discriminate].
      simpl in Hr, Hw. injection Hr as <- <- <-. injection Hw as <- <- <-.
      simpl. apply sublist_skip. eapply IHrest; eassumption.
Qed.

(** X22: write mode only adds.  On one instance, the values read-mode
    extraction returns are, in order, among the values write-mode
    extraction returns: allocating the nil pointers inserts the entries of
    the allocated structs and removes none. *)
Theorem X22_read_values_are_among_write_values
  (canSet : bool) (dataValue inst inst2 : Value) (index index2 index' index2' : Z)
  (ret ret2 : list SStructFieldValueV2) :
  fetchStructFieldValueV2s canSet dataValue false index = Some (ret, index', inst) ->
  fetchStructFieldValueV2s canSet dataValue true index2 = Some (ret2, index2', inst2) ->
  sublist (map ValueV2 ret) (map ValueV2 ret2)
  /\ (length ret <= length ret2)%nat.
Proof.
  intros Hr Hw.
  assert (Hsub : sublist (map ValueV2 ret) (map ValueV2 ret2)).
  { destruct dataValue as [| | |n fs]; try discriminate.
    unfold fetchStructFieldValueV2s in Hr, Hw.
    destruct (fetchStructFieldValueV2s_loop canSet false fs index)
      as [[[r i] f]|] eqn:Er; [|discriminate].
    destruct (fetchStructFieldValueV2s_loop canSet true fs index2)
      as [[[r2 i2] f2]|] eqn:Ew; [|discriminate].
    simpl in Hr, Hw. injection Hr as <- <- <-. injection Hw as <- <- <-.
    eapply read_values_within_write_values; eassumption. }
  split; [exact Hsub|].
  apply sublist_length in Hsub. rewrite !List.length_map in Hsub. exact Hsub.
Qed.

End ReadWithinWrite.

(** ** What the walks write *)

Section WrittenFields.
Context `{Collaborators}.

Lemma fetchStructFieldInfos_loop_head canSet sf fv rest infos inst :
  fetchStructFieldInfos_loop canSet ((sf, fv) :: rest) = Some (infos, inst) ->
  exists fv' infos' rest',
    inst = (sf, fv') :: rest'
    /\ fetchStructFieldInfos_loop canSet rest = Some (infos', rest')
    /\ (IsFieldExportable (reflect.Name sf) && Anonymous sf = false -> fv' = fv).
Proof.
  rewrite fetchStructFieldInfos_loop_cons. intros Hloop.
  destruct (IsFieldExportable (reflect.Name sf)); [destruct (Anonymous sf)|].
  - destruct (visitInfos canSet sf fv) as [| |c n fields plug|cur field];
      [discriminate| | |].
    + destruct (fetchStructFieldInfos_loop canSet rest) as [[i r]|]; [|discriminate].
      simpl in Hloop. injection Hloop as <- <-. eexists _, _, _. split; [reflexivity|].
      split; [reflexivity|discriminate].
    + destruct (fetchStructFieldInfos_loop c fields) as [[sub f1]|]; [|discriminate].
      simpl in Hloop.
      destruct (fetchStructFieldInfos_loop canSet rest) as [[i r]|]; [|discriminate].
      simpl in Hloop. injection Hloop as <- <-. eexists _, _, _. split; [reflexivity|].
      split; [reflexivity|discriminate].
    + destruct (fetchStructFieldInfos_loop canSet rest) as [[i r]|]; [|discriminate].
      simpl in Hloop. injection Hloop as <- <-. eexists _, _, _. split; [reflexivity|].
      split; [reflexivity|discriminate].
  - destruct (fetchStructFieldInfos_loop canSet rest) as [[i r]|]; [|discriminate].
    simpl in Hloop. injection Hloop as <- <-. eexists _, _, _. split; [reflexivity|].
    split; reflexivity.
  - destruct (fetchStructFieldInfos_loop canSet rest) as [[i r]|]; [|discriminate].
    simpl in Hloop. injection Hloop as <- <-. eexists _, _, _. split; [reflexivity|].
    split; reflexivity.
Qed.

Lemma fetchStructFieldValueV2s_loop_head canSet allocatePtr sf fv rest index ret index' inst :
  fetchStructFieldValueV2s_loop canSet allocatePtr ((sf, fv) :: rest) index
    = Some (ret, index', inst) ->
  exists fv' index1 ret' rest',
    inst = (sf, fv') :: rest'
    /\ fetchStructFieldValueV2s_loop canSet allocatePtr rest index1
       = Some (ret', index', rest')
    /\ (IsFieldExportable (reflect.Name sf) && Anonymous sf = false -> fv' = fv).
Proof.
  rewrite fetchStructFieldValueV2s_loop_cons. intros Hloop.
  destruct (IsFieldExportable (reflect.Name sf)); [destruct (Anonymous sf)|].
  - destruct (visitValue canSet allocatePtr sf fv) as [| |c n fields plug|cur field];
      [discriminate| | |].
    + destruct (fetchStructFieldValueV2s_loop canSet _ rest (index + 1))
        as [[[r i] f]|] eqn:Er; [|discriminate].
      simpl in Hloop. injection Hloop as <- <- <-. eexists _, _, _, _.
      split; [reflexivity|]. split; [exact Er|discriminate].
    + destruct (fetchStructFieldValueV2s_loop c _ fields index) as [[[sub i1] f1]|];
        [|discriminate].
      simpl in Hloop.
      destruct (fetchStructFieldValueV2s_loop canSet _ rest i1)
        as [[[r i] f]|] eqn:Er; [|discriminate].
      simpl in Hloop. injection Hloop as <- <- <-. eexists _, _, _, _.
      split; [reflexivity|]. split; [exact Er|discriminate].
    + destruct (fetchStructFieldValueV2s_loop canSet _ rest (index + 1))
        as [[[r i] f]|] eqn:Er; [|discriminate].
      simpl in Hloop. injection Hloop as <- <- <-. eexists _, _, _, _.
      split; [reflexivity|]. split; [exact Er|discriminate].
  - destruct (fetchStructFieldValueV2s_loop canSet _ rest (index + 1))
      as [[[r i] f]|] eqn:Er; [|discriminate].
    simpl in Hloop. injection Hloop as <- <- <-. eexists _, _, _, _.
    split; [reflexivity|]. split; [exact Er|reflexivity].
  - destruct (fetchStructFieldValueV2s_loop canSet _ rest index)
      as [[[r i] f]|] eqn:Er; [|discriminate].
    simpl in Hloop. injection Hloop as <- <- <-. eexists _, _, _, _.
    split; [reflexivity|]. split; [exact Er|reflexivity].
Qed.

Lemma fetchStructFieldInfos_loop_frame canSet fs :
  forall infos inst (i : nat) sf fv,
    fetchStructFieldInfos_loop canSet fs = Some (infos, inst) ->
    fs !! i = Some (sf, fv) ->
    IsFieldExportable (reflect.Name sf) && Anonymous sf = false ->
    inst !! i = Some (sf, fv).
Proof.
  induction fs as [|[sf0 fv0] rest IH]; intros infos inst i sf fv Hloop Hi Hnot.
  - discriminate.
  - apply fetchStructFieldInfos_loop_head in Hloop
      as (fv' & infos' & rest' & -> & Hrest & Hsame).
    destruct i as [|i]; simpl in Hi |- *.
    + injection Hi as -> ->. rewrite (Hsame Hnot). reflexivity.
    + eapply IH; eassumption.
Qed.

Lemma fetchStructFieldValueV2s_loop_frame canSet allocatePtr fs :
  forall index ret index' inst (i : nat) sf fv,
    fetchStructFieldValueV2s_loop canSet allocatePtr fs index = Some (ret, index', inst) ->
    fs !! i = Some (sf, fv) ->
    IsFieldExportable (reflect.Name sf) && Anonymous sf = false ->
    inst !! i = Some (sf, fv).
Proof.
  induction fs as [|[sf0 fv0] rest IH]; intros index ret index' inst i sf fv Hloop Hi Hnot.
  - discriminate.
  - apply fetchStructFieldValueV2s_loop_head in Hloop
      as (fv' & index1 & ret' & rest' & -> & Hrest & Hsame).
    destruct i as [|i]; simpl in Hi |- *.
    + injection Hi as -> ->. rewrite (Hsame Hnot). reflexivity.
    + eapply IH; eassumption.
Qed.

(** X23: the walks write to embedded fields only.  Whatever mode, a field
    of the struct that is not exported or not anonymous holds after the
    walk what it held before, a nil pointer included: schema computation
    and write-mode extraction (of both generations) set pointers only in
    exported anonymous fields. *)
Theorem X23_walks_write_to_exported_anonymous_fields_only
  (canSet allocatePtr : bool) (n : string) (fields : Fields)
  (i : nat) (sf : StructField) (fv : Value) :
  fields !! i = Some (sf, fv) ->
  IsFieldExportable (reflect.Name sf) && Anonymous sf = false ->
  (forall infos inst,
     fetchStructFieldInfos canSet (VStruct n fields) = Some (infos, inst) ->
     exists fields', inst = VStruct n fields' /\ fields' !! i = Some (sf, fv))
  /\ (forall index ret index' inst,
     fetchStructFieldValueV2s canSet (VStruct n fields) allocatePtr index
       = Some (ret, index', inst) ->
     exists fields', inst = VStruct n fields' /\ fields' !! i = Some (sf, fv))
  /\ (forall set inst,
     fetchStructFieldValueSet canSet (VStruct n fields) allocatePtr = Some (set, inst) ->
     exists fields', inst = VStruct n fields' /\ fields' !! i = Some (sf, fv)).
Proof.
  intros Hi Hnot. split; [|split].
  - intros infos inst Hf. simpl in Hf.
    destruct (fetchStructFieldInfos_loop canSet fields) as [[r f]|] eqn:E; [|discriminate].
    simpl in Hf. injection Hf as <- <-. exists f. split; [reflexivity|].
    eapply fetchStructFieldInfos_loop_frame; eassumption.
  - intros index ret index' inst Hf. unfold fetchStructFieldValueV2s in Hf.
    destruct (fetchStructFieldValueV2s_loop canSet allocatePtr fields index)
      as [[[r j] f]|] eqn:E; [|discriminate].
    simpl in Hf. injection Hf as <- <- <-. exists f. split; [reflexivity|].
    eapply fetchStructFieldValueV2s_loop_frame; eassumption.
  - intros set inst Hf. unfold fetchStructFieldValueSet in Hf.
    destruct (fetchStructFieldValueSet_loop canSet allocatePtr fields) as [[s f]|] eqn:E;
      [|discriminate].
    simpl in Hf. injection Hf as <- <-. exists f. split; [reflexivity|].
    pose proof (value_walkers_agree_loop fields canSet allocatePtr 0) as Hagree.
    rewrite E in Hagree.
    destruct (fetchStructFieldValueV2s_loop canSet allocatePtr fields 0)
      as [[[r j] f']|] eqn:E2; [|discriminate].
    simpl in Hagree. injection Hagree as _ ->.
    eapply fetchStructFieldValueV2s_loop_frame; eassumption.
Qed.

End WrittenFields.

(** * Concrete instances *)

Section Concrete.
#[local] Existing Instance model.collaborators.

Lemma C7_witness :
  let sf := mkStructField "UserID" EmptyString false (TScalar "int") in
  let info := ParseStructFieldJsonInfo sf in
  MarshalName (snd (MarshalName info)) = MarshalName info
  /\ fst (MarshalName info) = "user_id"
  /\ Name (snd (MarshalName info)) = "user_id".
Proof.
  intros sf info.
  destruct (C7_MarshalName_lazy_memoized_idempotent info)
    as (_ & Hagain & Hex).
  split; [exact Hagain|].
  apply (Hex sf); reflexivity.
Defined.

Lemma C5_witness :
  fetchStructFieldValueV2s_loop true false
    ([(fieldA, VScalar "int" 1)] ++ (fieldInner, VPtr Inner None)
       :: [(fieldB, VScalar "int" 2)]) 0
  = Some ([mkFieldValueV2 (Some (VScalar "int" 1)) 0;
           mkFieldValueV2 (Some (VScalar "int" 2)) 2], 3,
          [(fieldA, VScalar "int" 1); (fieldInner, VPtr Inner None);
           (fieldB, VScalar "int" 2)]).
Proof.
  rewrite (C5_absent_composed_field_reserves_one_slot true
             [(fieldA, VScalar "int" 1)] [(fieldB, VScalar "int" 2)]
             fieldInner (VPtr Inner None) 0);
    reflexivity.
Defined.

Lemma C4_witness :
  let userID := ParseStructFieldJsonInfo fieldUserID in
  let other :=
    ParseStructFieldJsonInfo (mkStructField "Zone" EmptyString false (TScalar "string")) in
  let id :=
    ParseStructFieldJsonInfo (mkStructField "ID" EmptyString false (TScalar "int")) in
  firstMatch ([other] ++ userID :: [id]) "user_id" = 1
  /\ firstMatch ([other] ++ userID :: [id]) "UserID" = 1
  /\ (fst (MarshalName id) <> "iD"
      /\ CamelSplit (FieldName id) "_" <> CamelSplit "iD" "_"
      /\ FieldName id <> "iD"
      /\ firstMatch ([other; userID] ++ id :: []) "iD" = 2)
  /\ SStructFieldValueSetV2.getStructFieldIndex
       (mkSetV2 [other; userID; id]
          [ mkFieldValueV2 (Some (VScalar "string" 0)) 0;
            mkFieldValueV2 (Some (VScalar "int" 1)) 1;
            mkFieldValueV2 (Some (VScalar "int" 2)) 2 ]) "iD" = Some 2.
Proof.
  intros userID other id.
  destruct C4_name_resolution_first_field_passing_a_test
    as (_ & _ & _ & Haligned & _ & _ & _ & Hfirst & Hex).
  split; [|split; [|split]].
  - apply (Hex [other] userID [id] "user_id"); try reflexivity.
    + left; reflexivity.
    + repeat constructor.
  - apply (Hex [other] userID [id] "UserID"); try reflexivity.
    + right; reflexivity.
    + repeat constructor.
  - split; [vm_compute; discriminate|]. split; [vm_compute; discriminate|].
    split; [vm_compute; discriminate|].
    apply (Hfirst [other; userID] id [] "iD").
    + repeat constructor.
    + right; right; right. reflexivity.
  - etransitivity; [apply Haligned; reflexivity|]. reflexivity.
Defined.

(** C4 fails as stated.  In [struct { UserID int; Legacy int
    `json:"UserID"` }] the key [UserID] is exactly the external name of
    [Legacy] (test 1), and not that of the field [UserID], whose external
    name is [user_id]; yet both lookups select the field [UserID], the
    first field in schema order, which passes test 2: the tests are tried
    field by field, so the order of the fields comes before the order of
    the tests. *)
Lemma C4_counterexample :
  fst (MarshalName (ParseStructFieldJsonInfo fieldLegacy)) = "UserID"
  /\ fst (MarshalName (ParseStructFieldJsonInfo fieldUserID)) = "user_id"
  /\ (exists set1,
        FetchStructFieldValueSet true loginValue = Some (set1, loginValue)
        /\ map (fun e => FieldName (Info e)) set1 = ["UserID"; "Legacy"]
        /\ SStructFieldValueSet.GetStructFieldIndex set1 "UserID" = 0
        /\ SStructFieldValueSet.GetValue set1 "UserID"
           = Some (Some (VScalar "int" 1), true))
  /\ (exists set cache',
        FetchStructFieldValueSetV2 [] true loginValue = Some (set, cache', loginValue)
        /\ map FieldName (Infos set) = ["UserID"; "Legacy"]
        /\ SStructFieldValueSetV2.getStructFieldIndex_infos (Infos set) "UserID" 0 = 0
        /\ SStructFieldValueSetV2.getStructFieldIndex set "UserID" = Some 0
        /\ SStructFieldValueSetV2.GetValue set "UserID"
           = Some (Some (VScalar "int" 1), true)).
Proof.
  split; [reflexivity|]. split; [reflexivity|]. split.
  - eexists. split; [vm_compute; reflexivity|]. repeat split; reflexivity.
  - eexists _, _. split; [vm_compute; reflexivity|]. repeat split; reflexivity.
Qed.

(** C2 fails as stated.  The schema of [Account] has two entries: the field
    [Secret], tagged [json:"-"], is in it, marked [Ignore]; and the field
    [Dash], tagged [json:"-,string" name:"id"], has the name [id], not the
    literal ["-"]. *)
Lemma C2_counterexample :
  TagMap (Tag fieldSecret) !! "json" = Some "-"
  /\ (exists infos inst',
        fetchStructFieldInfos true (Zero Account) = Some (infos, inst')
        /\ map FieldName infos = ["ID"; "Secret"]
        /\ In (ParseStructFieldJsonInfo fieldSecret) infos)
  /\ TagMap (Tag fieldDash) !! "json" = Some "-,string"
  /\ Name (ParseStructFieldJsonInfo fieldDash) = "id".
Proof.
  split; [reflexivity|]. split; [|split; reflexivity].
  eexists _, _. split; [vm_compute; reflexivity|].
  split; [reflexivity|]. right; left; reflexivity.
Qed.

Lemma C2_witness :
  (Ignore (ParseStructFieldJsonInfo fieldSecret) = true
   /\ exists infos fs',
        fetchStructFieldInfos_loop true [(fieldSecret, VScalar "string" 0)]
          = Some (infos, fs')
        /\ In (ParseStructFieldJsonInfo fieldSecret) infos)
  /\ (Ignore (ParseStructFieldJsonInfo fieldHidden) = true
      /\ exists infos inst,
           fetchStructFieldInfos true diskValue = Some (infos, inst)
           /\ map FieldName infos = ["R"; "A"]
           /\ map Ignore infos = [false; false]
           /\ exists subInfo fields',
                fetchStructFieldInfos_loop true
                  [(mkStructField "R" EmptyString false (TScalar "int"), VScalar "int" 3)]
                  = Some (subInfo, fields')
                /\ infos = [] ++ subInfo ++ [ParseStructFieldJsonInfo fieldA])
  /\ Ignore (ParseStructFieldJsonInfo fieldDash) = false
  /\ Name (ParseStructFieldJsonInfo fieldDash) = "id".
Proof.
  split; [|split].
  - assert (Hjson : TagMap (Tag fieldSecret) !! "json" = Some "-") by reflexivity.
    destruct (C2_dash_alone_marks_ignore_and_stays_in_schema
                fieldSecret "-" Hjson) as [Hdash _].
    destruct (Hdash eq_refl) as (Hign & Hkept & _). split; [exact Hign|].
    eexists _, _. split; [vm_compute; reflexivity|].
    eapply (Hkept true [(fieldSecret, VScalar "string" 0)]);
      [vm_compute; reflexivity| left; reflexivity | reflexivity | reflexivity].
  - assert (Hjson : TagMap (Tag fieldHidden) !! "json" = Some "-") by reflexivity.
    destruct (C2_dash_alone_marks_ignore_and_stays_in_schema
                fieldHidden "-" Hjson) as [Hdash _].
    destruct (Hdash eq_refl) as (Hign & _ & Hfield). split; [exact Hign|].
    assert (Hloop : fetchStructFieldInfos_loop true
                      ([] ++ (fieldHidden,
                              VStruct "Circle"
                                [(mkStructField "R" EmptyString false (TScalar "int"),
                                  VScalar "int" 3)])
                          :: [(fieldA, VScalar "int" 7)])
                    = Some ([ ParseStructFieldJsonInfo
                                (mkStructField "R" EmptyString false (TScalar "int"));
                              ParseStructFieldJsonInfo fieldA ],
                            [ (fieldHidden,
                               VStruct "Circle"
                                 [(mkStructField "R" EmptyString false (TScalar "int"),
                                   VScalar "int" 3)]);
                              (fieldA, VScalar "int" 7) ]))
      by (vm_compute; reflexivity).
    destruct (Hfield true [] [(fieldA, VScalar "int" 7)] _ _ _ Hloop)
      as (infos1 & pre' & infos2 & post' & Hpre & Hpost & Hmid).
    assert (Hi1 : infos1 = []) by (vm_compute in Hpre; congruence).
    assert (Hi2 : infos2 = [ParseStructFieldJsonInfo fieldA])
      by (vm_compute in Hpost; injection Hpost as <- _; vm_compute; reflexivity).
    subst infos1 infos2.
    eexists _, _. split; [vm_compute; reflexivity|].
    split; [reflexivity|]. split; [reflexivity|].
    exact Hmid.
  - assert (Hjson : TagMap (Tag fieldDash) !! "json" = Some "-,string") by reflexivity.
    destruct (C2_dash_alone_marks_ignore_and_stays_in_schema
                fieldDash "-,string" Hjson) as [_ Hopts].
    exact (Hopts "string" [] eq_refl).
Defined.

(** C8 fails as stated: [holderNil] and [holderCircle] are two instances of
    one type, [struct { Shape; A int }], and their schemas differ (the
    interface field itself and [A], against the field [R] of the struct the
    interface holds and [A]).  And an index need not be a position of the
    schema: [wrapperNil], walked in read mode, yields the entry of [A] with
    index 1, while the schema of its type has the single position 0. *)
Lemma C8_counterexample :
  TypeOf holderNil = TypeOf holderCircle
  /\ (exists infos1 left1 infos2 left2,
        fetchStructFieldInfos true holderNil = Some (infos1, left1)
        /\ fetchStructFieldInfos true holderCircle = Some (infos2, left2)
        /\ map FieldName infos1 = ["Shape"; "A"]
        /\ map FieldName infos2 = ["R"; "A"]
        /\ infos1 <> infos2)
  /\ (exists ret left infos left',
        fetchStructFieldValueV2s true wrapperNil false 0 = Some (ret, 2, left)
        /\ map Index ret = [1]
        /\ fetchStructFieldInfos true wrapperNil = Some (infos, left')
        /\ map FieldName infos = ["A"]).
Proof.
  split; [reflexivity|]. split.
  - eexists _, _, _, _. split; [vm_compute; reflexivity|].
    split; [vm_compute; reflexivity|].
    split; [reflexivity|]. split; [reflexivity|].
    intros Heq. apply (f_equal (map FieldName)) in Heq. discriminate Heq.
  - eexists _, _, _, _. split; [vm_compute; reflexivity|].
    split; [reflexivity|]. split; [vm_compute; reflexivity|]. reflexivity.
Qed.

Lemma C8_witness :
  (exists infos1 infos2 left1 left2,
     fetchStructFieldInfos true (Zero Outer) = Some (infos1, left1)
     /\ fetchStructFieldInfos true outerAbsent = Some (infos2, left2)
     /\ infos1 = typeInfos Outer /\ infos2 = infos1)
  /\ (exists ret index' left,
     fetchStructFieldValueV2s true outerAbsent false 0 = Some (ret, index', left)
     /\ StronglySorted Z.lt (map Index ret)
     /\ Forall (fun e => 0 <= Index e < index') ret).
Proof.
  destruct C8_schema_of_interface_free_type_and_increasing_indices as [Hschema Hidx].
  split.
  - eexists _, _, _, _. split; [vm_compute; reflexivity|].
    split; [vm_compute; reflexivity|].
    eapply (Hschema true true (Zero Outer) outerAbsent);
      [reflexivity|reflexivity|reflexivity|reflexivity| |];
      vm_compute; reflexivity.
  - eexists _, _, _. split; [vm_compute; reflexivity|].
    eapply (Hidx true outerAbsent false 0). vm_compute; reflexivity.
Defined.

(** C3 fails as stated: [holderNil] has a nil anonymous interface field;
    write mode leaves it nil and returns one entry, while the schema has
    two. *)
Lemma C3_counterexample :
  exists set cache',
    FetchStructFieldValueSetForWriteV2 [] true holderNil = Some (set, cache', holderNil)
    /\ length (Values set) = 1%nat
    /\ length (Infos set) = 2%nat.
Proof.
  eexists _, _. split; [vm_compute; reflexivity|]. split; reflexivity.
Qed.

Lemma C3_witness :
  (exists ret index' left,
     fetchStructFieldValueV2s_loop true true
       ([(fieldA, VScalar "int" 1)] ++ (fieldInner, VPtr Inner None)
          :: [(fieldB, VScalar "int" 2)]) 0 = Some (ret, index', left)
     /\ exists pre' t post',
          left = pre' ++ (fieldInner, VPtr Inner (Some t)) :: post'
          /\ length pre' = 1%nat)
  /\ fetchStructFieldValueV2s_loop true true
       ((fieldShape, VInterface "Shape" None) :: [(fieldA, VScalar "int" 7)]) 0
     = Some ([mkFieldValueV2 (Some (VScalar "int" 7)) 1], 2,
             [(fieldShape, VInterface "Shape" None); (fieldA, VScalar "int" 7)])
  /\ (exists set cache' left,
        FetchStructFieldValueSetForWriteV2 [] true outerAbsent = Some (set, cache', left)
        /\ Infos set = typeInfos (TypeOf outerAbsent)
        /\ length (Values set) = length (Infos set)
        /\ map Index (Values set) = consecutive 0 (length (Infos set))
        /\ cacheSound cache').
Proof.
  destruct C3_write_mode_allocates_pointers_and_fills_schema as (Halloc & Hiface & Hcount).
  assert (Hexp : IsFieldExportable (reflect.Name fieldInner) = true) by reflexivity.
  assert (Hanon : Anonymous fieldInner = true) by reflexivity.
  assert (Hexp' : IsFieldExportable (reflect.Name fieldShape) = true) by reflexivity.
  assert (Hanon' : Anonymous fieldShape = true) by reflexivity.
  split; [|split].
  - destruct (Halloc [(fieldA, VScalar "int" 1)] fieldInner Inner
                [(fieldB, VScalar "int" 2)] 0 Hexp Hanon) as [_ Hleft].
    eexists _, _, _. split; [vm_compute; reflexivity|].
    eapply Hleft. vm_compute; reflexivity.
  - etransitivity;
      [exact (Hiface true fieldShape "Shape" [(fieldA, VScalar "int" 7)] 0 Hexp' Hanon')|].
    reflexivity.
  - apply (Hcount [] "Outer"
             [ (fieldA, VScalar "int" 1); (fieldInner, VPtr Inner None);
               (fieldB, VScalar "int" 2) ]).
    + apply cacheSound_nil.
    + reflexivity.
    + reflexivity.
Defined.

Lemma C9_witness :
  (exists set cache' left,
     FetchStructFieldValueSetV2 [] true outerAbsent = Some (set, cache', left)
     /\ exists pre' t post',
          left = VStruct "Outer" (pre' ++ (fieldInner, VPtr Inner (Some t)) :: post')
          /\ length pre' = 1%nat)
  /\ (exists set cache' left,
        FetchStructFieldValueSetV2
          [(TScalar "int", [])] true
          (VStruct "Outer"
             ([(fieldA, VScalar "int" 1)] ++ (fieldInner, VPtr Inner None)
                :: [(fieldB, VScalar "int" 2)])) = Some (set, cache', left)).
Proof.
  assert (Hexp : IsFieldExportable (reflect.Name fieldInner) = true) by reflexivity.
  assert (Hanon : Anonymous fieldInner = true) by reflexivity.
  destruct (C9_schema_computation_sets_nil_pointers "Outer"
              [(fieldA, VScalar "int" 1)] [(fieldB, VScalar "int" 2)]
              fieldInner Inner Hexp Hanon) as (_ & _ & Hseed & Htotal).
  split.
  - eexists _, _, _. split; [vm_compute; reflexivity|].
    eapply (Hseed []); [reflexivity|]. vm_compute; reflexivity.
  - apply Htotal; reflexivity.
Defined.

(** C9 fails as stated.  [hostNil] holds a nil anonymous pointer to a
    struct whose field name is not exported: schema computation skips the
    field, returns, and leaves it nil, by itself and through the read-mode
    entry point on the first use of the type.  And on [outerAbsent] taken
    as a value that is not addressable, schema computation sets nothing:
    [fv.Set] panics, by itself and through the entry point. *)
Lemma C9_counterexample :
  IsNil (VPtr inner None) = true
  /\ Anonymous fieldLower = true
  /\ (exists infos, fetchStructFieldInfos true hostNil = Some (infos, hostNil))
  /\ (exists set cache',
        FetchStructFieldValueSetV2 [] true hostNil = Some (set, cache', hostNil))
  /\ fetchStructFieldInfos false outerAbsent = None
  /\ FetchStructFieldValueSetV2 [] false outerAbsent = None.
Proof.
  split; [reflexivity|]. split; [reflexivity|]. split; [|split; [|split]].
  - eexists. vm_compute. reflexivity.
  - eexists _, _. vm_compute. reflexivity.
  - vm_compute. reflexivity.
  - vm_compute. reflexivity.
Qed.

(** C1 does not hold of the code.  After the type [Outer] has its schema in
    the cache, the instance [outerAbsent] (its [*Inner] nil) is walked in
    read mode: [Infos] is [A; X; Y; B], [Values] holds [A] with index 0 and
    [B] with index 2.  The name [X] resolves to schema index 1, no entry of
    [Values] carries index 1, and yet [GetValue] and [GetInterface] report
    found, with the value of [B]: the second loop of [getStructFieldIndex]
    falls through to [return index].  (The values are reached through
    exported fields: no handle of the set is read-only.)  On the first-generation set the same
    lookup reports not found. *)
Theorem C1_lookup_inside_absent_composed_field_reports_found :
  exists set0 cache1 left0 set,
    FetchStructFieldValueSetV2 [] true outerPresent = Some (set0, cache1, left0)
    /\ FetchStructFieldValueSetV2 cache1 true outerAbsent
       = Some (set, cache1, outerAbsent)
    /\ map FieldName (Infos set) = ["A"; "X"; "Y"; "B"]
    /\ Values set = [ mkFieldValueV2 (Some (VScalar "int" 1)) 0;
                      mkFieldValueV2 (Some (VScalar "int" 2)) 2 ]
    /\ SStructFieldValueSetV2.getStructFieldIndex_infos (Infos set) "X" 0 = 1
    /\ Forall (fun e => Index e <> 1) (Values set)
    /\ SStructFieldValueSetV2.getStructFieldIndex set "X" = Some 1
    /\ SStructFieldValueSetV2.GetValue set "X" = Some (Some (VScalar "int" 2), true)
    /\ SStructFieldValueSetV2.GetInterface (fun _ => false) set "X"
       = Some (Some (VScalar "int" 2), true)
    /\ SStructFieldValueSetV2.GetValue set "Y" = Some (Some (VScalar "int" 2), true)
    /\ exists set1,
         FetchStructFieldValueSet true outerAbsent = Some (set1, outerAbsent)
         /\ SStructFieldValueSet.GetValue set1 "X" = Some (None, false).
Proof.
  eexists _, _, _, _.
  split; [vm_compute; reflexivity|].
  split; [vm_compute; reflexivity|].
  split; [reflexivity|].
  split; [reflexivity|].
  split; [reflexivity|].
  split; [repeat constructor; discriminate|].
  split; [reflexivity|].
  split; [reflexivity|].
  split; [reflexivity|].
  split; [reflexivity|].
  eexists. split; [vm_compute; reflexivity|]. reflexivity.
Qed.

(** The order of the fields comes first: a field that passes a later test
    wins over a later field that passes an earlier test.  Here the key is
    the declared name of the first field and the external name of the
    second. *)
Example firstMatch_prefers_earlier_field :
  firstMatch
    [ mkInfo false true false false "z" "Zone" false ∅;
      mkInfo false true false false "Zone" "Region" false ∅ ] "Zone" = 0.
Proof. reflexivity. Qed.

(** [OmitEmpty] on a few tags. *)
Example OmitEmpty_examples :
  OmitEmpty (ParseStructFieldJsonInfo
               (mkStructField "F" EmptyString false (TScalar "int"))) = true
  /\ OmitEmpty (ParseStructFieldJsonInfo
                  (mkStructField "F" (model.tag "json" "f,allowempty") false
                     (TScalar "int"))) = false
  /\ OmitEmpty (ParseStructFieldJsonInfo
                  (mkStructField "F" (model.tag "json" "f,omitempty,AllowEmpty") false
                     (TScalar "int"))) = false
  /\ OmitEmpty (ParseStructFieldJsonInfo
                  (mkStructField "F" (model.tag "json" "f,allowempty,omitempty") false
                     (TScalar "int"))) = true.
Proof. repeat split; reflexivity. Qed.

Lemma X1_witness :
  exists infos left,
    fetchStructFieldInfos true outerAbsent = Some (infos, left)
    /\ left <> outerAbsent
    /\ fetchStructFieldInfos false left = Some (infos, left).
Proof.
  eexists _, _. split; [vm_compute; reflexivity|]. split; [discriminate|].
  apply (X1_schema_computation_is_idempotent true false outerAbsent).
  vm_compute; reflexivity.
Defined.

Lemma X2_witness :
  exists ret index' left,
    fetchStructFieldValueV2s true outerAbsent true 0 = Some (ret, index', left)
    /\ left <> outerAbsent
    /\ fetchStructFieldValueV2s false left false 0 = Some (ret, index', left).
Proof.
  eexists _, _, _. split; [vm_compute; reflexivity|]. split; [discriminate|].
  apply (X2_value_walk_after_write_mode_is_stable true false false outerAbsent).
  vm_compute; reflexivity.
Defined.

Lemma X4_witness :
  exists infos inst,
    fetchStructFieldInfos true outerAbsent = Some (infos, inst)
    /\ inst <> outerAbsent /\ TypeOf inst = TypeOf outerAbsent.
Proof.
  destruct (X4_walks_keep_the_type true true outerAbsent) as (Hinfos & _ & _).
  eexists _, _. split; [vm_compute; reflexivity|]. split; [discriminate|].
  eapply Hinfos. vm_compute; reflexivity.
Defined.

Lemma X5_witness :
  fetchStructFieldInfos false
    (VStruct "Outer"
       ([(fieldA, VScalar "int" 1)] ++ (fieldInner, VPtr Inner None)
          :: [(fieldB, VScalar "int" 2)])) = None
  /\ FetchStructFieldValueSetV2 []
       false
       (VStruct "Outer"
          ([(fieldA, VScalar "int" 1)] ++ (fieldInner, VPtr Inner None)
             :: [(fieldB, VScalar "int" 2)])) = None.
Proof.
  assert (Hexp : IsFieldExportable (reflect.Name fieldInner) = true) by reflexivity.
  assert (Hanon : Anonymous fieldInner = true) by reflexivity.
  destruct (X5_unaddressable_instance_with_nil_pointer "Outer"
              [(fieldA, VScalar "int" 1)] [(fieldB, VScalar "int" 2)]
              fieldInner Inner [] Hexp Hanon) as (Hinfos & _ & _ & _ & Hfirst & _).
  split; [exact Hinfos|]. apply Hfirst. reflexivity.
Defined.

Lemma X6_witness :
  exists infos cache' inst,
    cachefetchStructFieldInfos [] true outerPresent = Some (infos, cache', inst)
    /\ Load cache' (TypeOf outerPresent) = Some infos
    /\ cachefetchStructFieldInfos cache' false outerAbsent
       = Some (infos, cache', outerAbsent).
Proof.
  eexists _, _, _.
  assert (Hf : cachefetchStructFieldInfos [] true outerPresent
               = Some (typeInfos Outer, [(Outer, typeInfos Outer)], outerPresent))
    by (vm_compute; reflexivity).
  split; [exact Hf|].
  destruct (X6_cache_stores_then_serves _ _ _ _ _ _ Hf) as (Hload & _ & Hserve).
  split; [exact Hload|]. apply Hserve. reflexivity.
Defined.

Lemma X8_witness :
  exists values index' infos,
    fetchStructFieldValueV2s true badgeNil false 0 = Some (values, index', badgeNil)
    /\ map Index values = [1; 2]
    /\ map FieldName infos = ["R"; "A"; "B"]
    /\ SStructFieldValueSetV2.getStructFieldIndex (mkSetV2 infos values) "A" = Some 0
    /\ SStructFieldValueSetV2.GetValue (mkSetV2 infos values) "A"
       = Some (Some (VScalar "int" 7), true)
    /\ SStructFieldValueSetV2.getStructFieldIndex (mkSetV2 infos values) "R" = Some 0
    /\ SStructFieldValueSetV2.GetValue (mkSetV2 infos values) "R"
       = Some (Some (VScalar "int" 7), true).
Proof.
  set (values := [ mkFieldValueV2 (Some (VScalar "int" 7)) 1;
                   mkFieldValueV2 (Some (VScalar "int" 8)) 2 ]).
  set (infos := typeInfos (TypeOf badgeNil)).
  exists values, 3, infos.
  assert (Hf : fetchStructFieldValueV2s true badgeNil false 0
               = Some (values, 3, badgeNil))
    by (vm_compute; reflexivity).
  assert (HresA : 0 <= firstMatch infos "A") by (vm_compute; discriminate).
  assert (HresR : 0 <= firstMatch infos "R") by (vm_compute; discriminate).
  assert (Hne : values <> []) by discriminate.
  destruct (X8_lookup_returns_entry_carrying_clamped_index true false badgeNil badgeNil 3
              values infos "A" Hf HresA Hne) as [HA _].
  destruct (HA 0%nat (mkFieldValueV2 (Some (VScalar "int" 7)) 1) eq_refl eq_refl)
    as (_ & HidxA & HgetA).
  destruct (X8_lookup_returns_entry_carrying_clamped_index true false badgeNil badgeNil 3
              values infos "R" Hf HresR Hne) as [_ HR].
  destruct HR as (HidxR & e & He & HgetR).
  { repeat constructor; vm_compute; discriminate. }
  injection He as <-.
  split; [exact Hf|]. split; [reflexivity|]. split; [reflexivity|].
  split; [exact HidxA|]. split; [exact HgetA|]. split; [exact HidxR|]. exact HgetR.
Defined.

Lemma X9_witness :
  let set :=
    mkSetV2 (typeInfos Outer)
      [ mkFieldValueV2 (Some (VScalar "int" 5)) 0;
        mkFieldValueV2 (Some (VScalar "int" 8)) 1;
        mkFieldValueV2 (Some (VScalar "int" 9)) 2;
        mkFieldValueV2 (Some (VScalar "int" 6)) 3 ] in
  SStructFieldValueSetV2.getStructFieldIndex set "y" = Some 2
  /\ SStructFieldValueSetV2.getStructFieldIndex set "nope" = Some (-1).
Proof.
  intros set.
  assert (Hal : map Index (Values set) = consecutive 0 (length (Infos set)))
    by reflexivity.
  split.
  - etransitivity; [exact (proj1 (X9_aligned_set_lookup_is_exact set "y" Hal))|].
    reflexivity.
  - etransitivity; [exact (proj1 (X9_aligned_set_lookup_is_exact set "nope" Hal))|].
    reflexivity.
Defined.

Lemma X11_witness :
  exists set cache' inst,
    FetchStructFieldValueSetV2 [] true outerAbsent = Some (set, cache', inst)
    /\ map Index (Values set) = [0; 1; 2; 3]
    /\ SStructFieldValueSetV2.getStructFieldIndex set "X" = Some 1.
Proof.
  destruct (X11_first_use_and_write_mode_sets_are_aligned [] "Outer"
              [ (fieldA, VScalar "int" 1); (fieldInner, VPtr Inner None);
                (fieldB, VScalar "int" 2) ]) as [Hfirst _].
  - apply cacheSound_nil.
  - reflexivity.
  - reflexivity.
  - destruct (Hfirst eq_refl) as (set & cache' & inst & Hf & Hinfos & Hidx & Hlook).
    exists set, cache', inst. split; [exact Hf|].
    rewrite Hidx, (Hlook "X"), Hinfos. split; reflexivity.
Defined.

Lemma X12_witness :
  exists set inst,
    FetchStructFieldValueSetForWrite true outerAbsent = Some (set, inst)
    /\ map FieldName (map Info set) = ["A"; "X"; "Y"; "B"].
Proof.
  destruct (X12_write_set_policies_are_the_schema "Outer"
              [ (fieldA, VScalar "int" 1); (fieldInner, VPtr Inner None);
                (fieldB, VScalar "int" 2) ])
    as (set & inst & infos & Hf & _ & Hmap & Hinfos).
  - reflexivity.
  - reflexivity.
  - exists set, inst. split; [exact Hf|]. rewrite Hmap, Hinfos. reflexivity.
Defined.

Lemma X13_witness :
  let set :=
    [ mkFieldValue (ParseStructFieldJsonInfo fieldA) (Some (VScalar "int" 1));
      mkFieldValue (ParseStructFieldJsonInfo fieldB) (Some (VScalar "int" 2)) ] in
  SStructFieldValueSet.GetValue set "b" = Some (Some (VScalar "int" 2), true)
  /\ SStructFieldValueSet.GetValue set "X" = Some (None, false).
Proof.
  intros set.
  destruct (X13_first_generation_GetValue set "b") as (_ & Hhit & _).
  destruct (X13_first_generation_GetValue set "X") as (Hmiss & _ & _).
  split.
  - apply (Hhit [mkFieldValue (ParseStructFieldJsonInfo fieldA) (Some (VScalar "int" 1))]
             (mkFieldValue (ParseStructFieldJsonInfo fieldB) (Some (VScalar "int" 2))) []).
    + reflexivity.
    + repeat constructor.
    + reflexivity.
  - apply Hmiss. repeat constructor.
Defined.

Lemma X14_witness :
  let flagRO := fun i : nat => Nat.eqb i 1 in
  exists values index' inst,
    fetchStructFieldValueV2s true outerAbsent false 0 = Some (values, index', inst)
    /\ Forall (fun e => is_Some (ValueV2 e)) values
    /\ SStructFieldValueSetV2.GetInterface flagRO (mkSetV2 (typeInfos Outer) values) "A"
       = Some (Some (VScalar "int" 1), true)
    /\ SStructFieldValueSetV2.GetValue (mkSetV2 (typeInfos Outer) values) "B"
       = Some (Some (VScalar "int" 2), true)
    /\ SStructFieldValueSetV2.GetInterface flagRO (mkSetV2 (typeInfos Outer) values) "B"
       = Some (None, false).
Proof.
  intros flagRO.
  destruct (X14_entries_are_valid_and_GetInterface_returns true false outerAbsent flagRO)
    as [HV2 _].
  assert (Hf : fetchStructFieldValueV2s true outerAbsent false 0
               = Some ([ mkFieldValueV2 (Some (VScalar "int" 1)) 0;
                         mkFieldValueV2 (Some (VScalar "int" 2)) 2 ], 3, outerAbsent))
    by (vm_compute; reflexivity).
  destruct (HV2 0 _ _ _ Hf) as [Hvalid _].
  eexists _, _, _. split; [exact Hf|]. split; [exact Hvalid|].
  repeat split; vm_compute; reflexivity.
Defined.

Lemma X10_witness :
  exists v,
    SStructFieldValueSetV2.GetValue
      (mkSetV2 (typeInfos Outer)
         [ mkFieldValueV2 (Some (VScalar "int" 1)) 0;
           mkFieldValueV2 (Some (VScalar "int" 2)) 2 ]) "Y" = Some (v, true).
Proof.
  destruct (X10_GetValue_total_and_found_iff
              (mkSetV2 (typeInfos Outer)
                 [ mkFieldValueV2 (Some (VScalar "int" 1)) 0;
                   mkFieldValueV2 (Some (VScalar "int" 2)) 2 ]) "Y")
    as (v & found & Hget & Hiff & _).
  exists v. rewrite Hget. do 2 f_equal. apply Hiff. split; [|discriminate].
  vm_compute. discriminate.
Defined.

Lemma X15_witness :
  Ignore (ParseStructFieldJsonInfo fieldSecret) = true
  /\ Name (ParseStructFieldJsonInfo fieldDash) = "id".
Proof.
  split.
  - apply (proj1 (X15_Ignore_and_Name fieldSecret)). reflexivity.
  - etransitivity; [exact (proj2 (X15_Ignore_and_Name fieldDash))|]. reflexivity.
Defined.

Lemma X17_witness :
  exists ret index' inst,
    fetchStructFieldValueV2s true outerAbsent false 0 = Some (ret, index', inst)
    /\ Z.of_nat (length ret) <= index' - 0.
Proof.
  eexists _, _, _. split; [vm_compute; reflexivity|].
  eapply (X17_entry_index_bounds_its_position true false outerAbsent).
  vm_compute; reflexivity.
Defined.

Lemma X18_witness :
  exists values,
    FetchStructFieldValueSetV2 [(Outer, typeInfos Outer)] false
      (VStruct "Outer"
         [ (fieldA, VScalar "int" 1); (fieldInner, VPtr Inner None);
           (fieldB, VScalar "int" 2) ])
    = Some (mkSetV2 (typeInfos Outer) values, [(Outer, typeInfos Outer)],
            VStruct "Outer"
              [ (fieldA, VScalar "int" 1); (fieldInner, VPtr Inner None);
                (fieldB, VScalar "int" 2) ]).
Proof.
  destruct (X18_read_entry_point_on_cache_hit [(Outer, typeInfos Outer)] false "Outer"
              [ (fieldA, VScalar "int" 1); (fieldInner, VPtr Inner None);
                (fieldB, VScalar "int" 2) ] (typeInfos Outer))
    as (values & index' & _ & Hf).
  - reflexivity.
  - exists values. exact Hf.
Defined.

Lemma X19_witness :
  exists infos cache' inst,
    cachefetchStructFieldInfos [] true outerAbsent = Some (infos, cache', inst)
    /\ cacheSound cache' /\ infos = typeInfos (TypeOf outerAbsent).
Proof.
  assert (Hf : exists infos cache' inst,
            cachefetchStructFieldInfos [] true outerAbsent = Some (infos, cache', inst)).
  { eexists _, _, _. vm_compute. reflexivity. }
  destruct Hf as (infos & cache' & inst & Hf).
  exists infos, cache', inst. split; [exact Hf|].
  destruct (X19_cache_returns_the_schema_of_the_type [] cache' true outerAbsent inst infos)
    as [Hsound Hschema].
  - apply cacheSound_nil.
  - reflexivity.
  - exact Hf.
  - split; [exact Hsound|]. apply Hschema. reflexivity.
Defined.

Lemma X20_witness :
  0 <= firstMatch (typeInfos Outer) "Y" <= 2.
Proof.
  assert (Hl : typeInfos Outer !! 2%nat
               = Some (ParseStructFieldJsonInfo
                         (mkStructField "Y" EmptyString false (TScalar "int"))))
    by reflexivity.
  apply (X20_field_resolves_by_its_names (typeInfos Outer) 2 _ "Y" Hl).
  right; left. reflexivity.
Defined.

Lemma X21_witness :
  exists infos inst,
    fetchStructFieldInfos true outerAbsent = Some (infos, inst)
    /\ 0 <= firstMatch infos "B" < Z.of_nat (length infos).
Proof.
  assert (Hf : exists infos inst,
            fetchStructFieldInfos true outerAbsent = Some (infos, inst)).
  { eexists _, _. vm_compute. reflexivity. }
  destruct Hf as (infos & inst & Hf). exists infos, inst. split; [exact Hf|].
  assert (Hexp : IsFieldExportable (reflect.Name fieldB) = true) by reflexivity.
  assert (Hanon : Anonymous fieldB = false) by reflexivity.
  refine (proj2 (X21_declared_name_resolves_in_schema true "Outer" _ inst infos
                   fieldB (VScalar "int" 2) Hf _ Hexp Hanon)).
  right; right; left. reflexivity.
Defined.

Lemma X22_witness :
  exists ret index' inst ret2 index2' inst2,
    fetchStructFieldValueV2s true outerAbsent false 0 = Some (ret, index', inst)
    /\ fetchStructFieldValueV2s true outerAbsent true 0 = Some (ret2, index2', inst2)
    /\ length ret = 2%nat /\ length ret2 = 4%nat
    /\ sublist (map ValueV2 ret) (map ValueV2 ret2).
Proof.
  eexists _, _, _, _, _, _.
  split; [vm_compute; reflexivity|]. split; [vm_compute; reflexivity|].
  split; [reflexivity|]. split; [reflexivity|].
  eapply (X22_read_values_are_among_write_values true outerAbsent _ _ 0 0);
    vm_compute; reflexivity.
Defined.

Lemma X23_witness :
  let fields :=
    [ (mkStructField "Next" EmptyString false (TPtr Inner), VPtr Inner None);
      (fieldInner, VPtr Inner None) ] in
  exists ret index' fields',
    fetchStructFieldValueV2s true (VStruct "Node" fields) true 0
      = Some (ret, index', VStruct "Node" fields')
    /\ fields' <> fields
    /\ fields' !! 0%nat
       = Some (mkStructField "Next" EmptyString false (TPtr Inner), VPtr Inner None).
Proof.
  intros fields.
  assert (Hf : exists ret index' fields',
            fetchStructFieldValueV2s true (VStruct "Node" fields) true 0
            = Some (ret, index', VStruct "Node" fields') /\ fields' <> fields).
  { eexists _, _, _. split; [vm_compute; reflexivity|]. discriminate. }
  destruct Hf as (ret & index' & fields' & Hf & Hne).
  exists ret, index', fields'. split; [exact Hf|]. split; [exact Hne|].
  destruct (X23_walks_write_to_exported_anonymous_fields_only true true "Node" fields 0
              (mkStructField "Next" EmptyString false (TPtr Inner)) (VPtr Inner None))
    as (_ & Hvalues & _).
  - reflexivity.
  - reflexivity.
  - destruct (Hvalues 0 ret index' _ Hf) as (fields2 & Heq & Hl).
    injection Heq as <-. exact Hl.
Defined.

End Concrete.
